(** * The buffer manager of src/storage/buffer_manager.cpp

    A shallow embedding of [BlockHandle], [BufferEvictionNode] and
    [BufferManager] as a sequential program over an explicit store.

    - Handles are shared objects ([shared_ptr<BlockHandle>]): they live in a
      store [heap] indexed by address; a destroyed handle leaves [None]
      behind, and addresses are never reused, so a [weak_ptr] is an address
      whose [lock()] is a lookup in the store.
    - [idx_t] is an unsigned 64-bit integer, [int64_t] a signed one: both
      are [Z] with the wrap-around written at every arithmetic operation.
    - The readers count is a signed 32-bit integer ([atomic<int32_t>]),
      incremented and decremented with wrap-around.
    - The calls of the file system that the spill path makes
      ([CreateDirectory], [OpenFile] for writing, [Write]) can raise an I/O
      error, which propagates to the caller.
    - C++ exceptions are the [Throw] outcome of a state-and-error monad; the
      state reached at the point of the throw is kept, because some of the
      properties speak about the manager after a failed call.
    - [D_ASSERT] is compiled in debug builds only: the build is a
      parameter, and an assertion that fails in a debug build throws.
    - The mutexes are not modelled: calls run one after the other. *)

From Stdlib Require Import ZArith Lia List String.
From Stdlib.Strings Require Import Byte.
From stdpp Require Import base gmap list strings pretty.

Local Open Scope Z_scope.

(** ** Machine integers *)

Definition idx_t (z : Z) : Z := z mod 2 ^ 64.
Definition int64_t (z : Z) : Z := (z + 2 ^ 63) mod 2 ^ 64 - 2 ^ 63.
Definition int32_t (z : Z) : Z := (z + 2 ^ 31) mod 2 ^ 32 - 2 ^ 31.

(** ** Bytes and files *)

Definition byte_of_Z (z : Z) : byte :=
  default x00 (Byte.of_N (Z.to_N (z mod 256))).
Definition Z_of_byte (b : byte) : Z := Z.of_N (Byte.to_N b).

(** [n] bytes of [z], least significant first: the layout of
    [handle->Write(&buffer.size, sizeof(idx_t), 0)] on the supported
    (little-endian) targets. *)
Fixpoint encode_le (n : nat) (z : Z) : list byte :=
  match n with
  | O => []
  | S n' => byte_of_Z z :: encode_le n' (z / 256)
  end.

Fixpoint decode_le (bs : list byte) : Z :=
  match bs with
  | [] => 0
  | b :: bs' => Z_of_byte b + 256 * decode_le bs'
  end.

(** Modelled from the spec: the file handles of the file-system collaborator,
    [Write(src, n, offset)] and [Read(dst, n, offset)] (positional write and
    read; a short read is an I/O error). *)
Definition FileHandle_Write (file data : list byte) (off : nat) : list byte :=
  take off (file ++ replicate (off - length file)%nat x00)
    ++ data ++ drop (off + length data)%nat file.

Definition FileHandle_Read (file : list byte) (n off : nat) : option (list byte) :=
  if decide (off + n ≤ length file)%nat then Some (take n (drop off file)) else None.

Definition sizeof_idx_t : nat := 8.

(** ** Data model *)

(** Constants of [Storage::] and [MAXIMUM_BLOCK]; their values are declared
    outside this translation unit and are parameters here. *)
Class Storage := {
  BLOCK_SIZE : Z;
  BLOCK_HEADER_SIZE : Z;
  BLOCK_ALLOC_SIZE : Z;
  MAXIMUM_BLOCK : Z
}.

(** The [db] every object refers to: the build ([D_ASSERT] is active in
    debug builds only); the block manager, whose [Read] either fills a
    block with the bytes on disk or raises an I/O error ([None]); and the
    file system ([FileSystem::GetFileSystem(db)]), whose calls raise an I/O
    error where these predicates say so: [CreateDirectory] of a directory,
    [OpenFile] of a path for writing, and [Write] through the handle of a
    path at an offset. *)
Class DatabaseInstance := {
  DEBUG : bool;
  BlockManager_Read : Z → option (list byte);
  CreateDirectory_fails : string → bool;
  OpenFile_fails : string → bool;
  Write_fails : string → nat → bool
}.

Inductive BlockState := BLOCK_UNLOADED | BLOCK_LOADED.

Inductive FileBufferType := BLOCK | MANAGED_BUFFER.

(** Modelled from the spec: [FileBuffer] with its subclasses [Block] and
    [ManagedBuffer] (declared in headers that are not part of the source):
    a byte region of [buffer_size] bytes; a managed buffer also carries the
    anonymous id it was allocated for. *)
Record FileBuffer := mkFileBuffer {
  buffer_type : FileBufferType;
  buffer_size : Z;
  buffer_id : Z;
  buffer_can_destroy : bool;
  buffer_data : list byte
}.

(** [readers] is an [atomic<int32_t>]: its value is kept in [Z], and the
    increment of [Pin] and the decrement of [Unpin] wrap around
    ([int32_t]). *)
Record BlockHandle := mkBlockHandle {
  state : BlockState;
  readers : Z;
  block_id : Z;
  buffer : option FileBuffer;
  eviction_timestamp : Z;
  can_destroy : bool;
  memory_usage : Z
}.

(** [handle] is a [weak_ptr<BlockHandle>]: an address of the store. *)
Record BufferEvictionNode := mkBufferEvictionNode {
  handle : nat;
  timestamp : Z
}.

Record BufferManager := mkBufferManager {
  heap : list (option BlockHandle);
  blocks : gmap Z nat;
  current_memory : Z;
  maximum_memory : Z;
  temp_directory : string;
  temp_directory_handle : bool;
  temporary_id : Z;
  queue : list BufferEvictionNode;
  files : gmap string (list byte)
}.

#[global] Instance BlockState_eq_dec : EqDecision BlockState.
Proof. solve_decision. Defined.

Definition is_loaded (st : BlockState) : bool :=
  match st with BLOCK_LOADED => true | BLOCK_UNLOADED => false end.

(** Field updates. *)
Definition with_state (st : BlockState) (h : BlockHandle) : BlockHandle :=
  mkBlockHandle st (readers h) (block_id h) (buffer h) (eviction_timestamp h)
    (can_destroy h) (memory_usage h).
Definition with_readers (r : Z) (h : BlockHandle) : BlockHandle :=
  mkBlockHandle (state h) r (block_id h) (buffer h) (eviction_timestamp h)
    (can_destroy h) (memory_usage h).
Definition with_buffer (b : option FileBuffer) (h : BlockHandle) : BlockHandle :=
  mkBlockHandle (state h) (readers h) (block_id h) b (eviction_timestamp h)
    (can_destroy h) (memory_usage h).
Definition with_eviction_timestamp (t : Z) (h : BlockHandle) : BlockHandle :=
  mkBlockHandle (state h) (readers h) (block_id h) (buffer h) t
    (can_destroy h) (memory_usage h).
Definition with_memory_usage (m : Z) (h : BlockHandle) : BlockHandle :=
  mkBlockHandle (state h) (readers h) (block_id h) (buffer h) (eviction_timestamp h)
    (can_destroy h) m.

Definition set_heap (x : list (option BlockHandle)) (s : BufferManager) :=
  mkBufferManager x (blocks s) (current_memory s) (maximum_memory s)
    (temp_directory s) (temp_directory_handle s) (temporary_id s) (queue s) (files s).
Definition set_blocks (x : gmap Z nat) (s : BufferManager) :=
  mkBufferManager (heap s) x (current_memory s) (maximum_memory s)
    (temp_directory s) (temp_directory_handle s) (temporary_id s) (queue s) (files s).
Definition set_current_memory (x : Z) (s : BufferManager) :=
  mkBufferManager (heap s) (blocks s) x (maximum_memory s)
    (temp_directory s) (temp_directory_handle s) (temporary_id s) (queue s) (files s).
Definition set_maximum_memory (x : Z) (s : BufferManager) :=
  mkBufferManager (heap s) (blocks s) (current_memory s) x
    (temp_directory s) (temp_directory_handle s) (temporary_id s) (queue s) (files s).
Definition set_temp_directory (x : string) (s : BufferManager) :=
  mkBufferManager (heap s) (blocks s) (current_memory s) (maximum_memory s)
    x (temp_directory_handle s) (temporary_id s) (queue s) (files s).
Definition set_temp_directory_handle (x : bool) (s : BufferManager) :=
  mkBufferManager (heap s) (blocks s) (current_memory s) (maximum_memory s)
    (temp_directory s) x (temporary_id s) (queue s) (files s).
Definition set_temporary_id (x : Z) (s : BufferManager) :=
  mkBufferManager (heap s) (blocks s) (current_memory s) (maximum_memory s)
    (temp_directory s) (temp_directory_handle s) x (queue s) (files s).
Definition set_queue (x : list BufferEvictionNode) (s : BufferManager) :=
  mkBufferManager (heap s) (blocks s) (current_memory s) (maximum_memory s)
    (temp_directory s) (temp_directory_handle s) (temporary_id s) x (files s).
Definition set_files (x : gmap string (list byte)) (s : BufferManager) :=
  mkBufferManager (heap s) (blocks s) (current_memory s) (maximum_memory s)
    (temp_directory s) (temp_directory_handle s) (temporary_id s) (queue s) x.

(** ** Exceptions and the monad of the manager *)

Inductive exception :=
  | OutOfRangeException      (* "Not enough memory to complete operation" *)
  | NotImplementedException  (* SetTemporaryDirectory after use *)
  | Exception                (* no temporary directory is specified *)
  | IOException              (* raised by a collaborator *)
  | AssertionFailure         (* D_ASSERT, debug builds *)
  | NullDereference.         (* use of a null or dangling pointer *)

Inductive outcome (A : Type) :=
  | Ret (a : A)
  | Throw (e : exception).
Arguments Ret {A} a.
Arguments Throw {A} e.

Definition M (A : Type) : Type := BufferManager → outcome A * BufferManager.

Definition ret {A} (a : A) : M A := λ s, (Ret a, s).
Definition throw {A} (e : exception) : M A := λ s, (Throw e, s).
Definition bind {A B} (m : M A) (k : A → M B) : M B :=
  λ s, match m s with
       | (Ret a, s') => k a s'
       | (Throw e, s') => (Throw e, s')
       end.
Definition gets {A} (f : BufferManager → A) : M A := λ s, (Ret (f s), s).
Definition modify (f : BufferManager → BufferManager) : M unit := λ s, (Ret tt, f s).

Notation "x <- m ;; k" := (bind m (λ x, k))
  (at level 100, m at next level, right associativity).
Notation "m ;;; k" := (bind m (λ _, k))
  (at level 100, right associativity).

Definition returned {A} (r : outcome A * BufferManager) : Prop :=
  match r.1 with Ret _ => True | Throw _ => False end.

Section BufferManagerModel.
Context `{!Storage, !DatabaseInstance}.

Definition D_ASSERT (c : bool) : M unit :=
  if DEBUG && negb c then throw AssertionFailure else ret tt.

(** [weak_ptr::lock]: the handle, if it has not been destroyed. *)
Definition lock (a : nat) (s : BufferManager) : option BlockHandle :=
  mjoin (heap s !! a).

(** Access through a [shared_ptr]; a client cannot hold one to a destroyed
    handle, so a dead address behaves like a dangling pointer. *)
Definition deref (a : nat) : M BlockHandle :=
  λ s, match lock a s with
       | Some h => (Ret h, s)
       | None => (Throw NullDereference, s)
       end.

Definition store (a : nat) (h : BlockHandle) : M unit :=
  modify (λ s, set_heap (<[a := Some h]> (heap s)) s).

(** [make_shared<BlockHandle>]: a fresh address. *)
Definition make_shared (h : BlockHandle) : M nat :=
  λ s, (Ret (length (heap s)), set_heap (heap s ++ [Some h]) s).

(** ** BlockHandle *)

(** [BlockHandle::BlockHandle(db, block_id)] *)
Definition BlockHandle_new (block_id_p : Z) : BlockHandle :=
  mkBlockHandle BLOCK_UNLOADED 0 block_id_p None 0 false BLOCK_ALLOC_SIZE.

(** [BlockHandle::BlockHandle(db, block_id, buffer, can_destroy, alloc_size)] *)
Definition BlockHandle_new_loaded (block_id_p : Z) (buffer_p : FileBuffer)
    (can_destroy_p : bool) (alloc_size : Z) : M BlockHandle :=
  D_ASSERT (BLOCK_SIZE <=? alloc_size) ;;;
  ret (mkBlockHandle BLOCK_LOADED 0 block_id_p (Some buffer_p) 0 can_destroy_p
         (idx_t (alloc_size + BLOCK_HEADER_SIZE))).

(** [BlockHandle::CanUnload] *)
Definition CanUnload (h : BlockHandle) (s : BufferManager) : bool :=
  if negb (is_loaded (state h)) then false
  else if 0 <? readers h then false
  else if (MAXIMUM_BLOCK <=? block_id h) && negb (can_destroy h)
          && bool_decide (temp_directory s = "") then false
  else true.

(** [BufferEvictionNode::CanUnload] *)
Definition Node_CanUnload (node : BufferEvictionNode) (h : BlockHandle)
    (s : BufferManager) : bool :=
  if negb (timestamp node =? eviction_timestamp h) then false
  else CanUnload h s.

(** ** Temporary files *)

(** Modelled from the spec: [FileSystem::JoinPath] and the path
    [{temp_directory}/{id}.block]. *)
Definition GetTemporaryPath (id : Z) (s : BufferManager) : string :=
  temp_directory s +:+ "/" +:+ pretty id +:+ ".block".

(** Modelled from the spec: the calls of the file-system collaborator made
    by the spill path. A call that raises an I/O error is taken to leave
    the files as they were (the interface does not say what a failed call
    leaves behind, and no property below depends on it). [OpenFile] is the
    one with [FILE_FLAGS_WRITE | FILE_FLAGS_FILE_CREATE]: the file is
    created, empty, when missing. *)
Definition FileSystem_CreateDirectory (dir : string) : M unit :=
  if CreateDirectory_fails dir then throw IOException else ret tt.

Definition FileSystem_OpenFile (path : string) : M unit :=
  if OpenFile_fails path then throw IOException
  else modify (λ s, set_files (<[path := default [] (files s !! path)]> (files s)) s).

Definition FileHandle_Write_at (path : string) (data : list byte) (off : nat) : M unit :=
  if Write_fails path off then throw IOException
  else modify (λ s, set_files
                      (<[path := FileHandle_Write (default [] (files s !! path)) data off]>
                         (files s)) s).

(** [TemporaryDirectoryHandle::TemporaryDirectoryHandle] *)
Definition TemporaryDirectoryHandle_new (dir : string) : M unit :=
  if negb (bool_decide (dir = "")) then FileSystem_CreateDirectory dir else ret tt.

(** [BufferManager::RequireTemporaryDirectory]: [make_unique] runs the
    constructor before the handle is assigned, so a constructor that raises
    leaves the handle unset. *)
Definition RequireTemporaryDirectory : M unit :=
  dir <- gets temp_directory ;;
  if bool_decide (dir = "") then throw Exception
  else
    created <- gets temp_directory_handle ;;
    if negb created then
      TemporaryDirectoryHandle_new dir ;;;
      modify (set_temp_directory_handle true)
    else ret tt.

(** Modelled from the spec: [ManagedBuffer(db, size, can_destroy, id)]
    allocates [size] bytes. *)
Definition ManagedBuffer (size : Z) (can_destroy_p : bool) (id : Z) : FileBuffer :=
  mkFileBuffer MANAGED_BUFFER size id can_destroy_p (replicate (Z.to_nat size) x00).

(** Modelled from the spec: [FileBuffer::Resize] keeps the bytes that fit. *)
Definition Resize (alloc_size : Z) (b : FileBuffer) : FileBuffer :=
  mkFileBuffer (buffer_type b) alloc_size (buffer_id b) (buffer_can_destroy b)
    (take (Z.to_nat alloc_size)
       (buffer_data b ++ replicate (Z.to_nat alloc_size - length (buffer_data b))%nat x00)).

(** [BufferManager::WriteTemporaryBuffer]: the size, then the contents of
    the buffer at offset [sizeof(idx_t)]. The file is opened with
    [FILE_FLAGS_WRITE | FILE_FLAGS_FILE_CREATE]: created when missing. *)
Definition WriteTemporaryBuffer (b : FileBuffer) : M unit :=
  RequireTemporaryDirectory ;;;
  D_ASSERT (BLOCK_SIZE <=? buffer_size b) ;;;
  path <- gets (GetTemporaryPath (buffer_id b)) ;;
  FileSystem_OpenFile path ;;;
  FileHandle_Write_at path (encode_le sizeof_idx_t (buffer_size b)) 0 ;;;
  FileHandle_Write_at path (buffer_data b) sizeof_idx_t.

(** [BufferManager::ReadTemporaryBuffer] *)
Definition ReadTemporaryBuffer (id : Z) : M FileBuffer :=
  dir <- gets temp_directory ;;
  D_ASSERT (negb (bool_decide (dir = ""))) ;;;
  created <- gets temp_directory_handle ;;
  D_ASSERT created ;;;
  path <- gets (GetTemporaryPath id) ;;
  fs <- gets files ;;
  match fs !! path with
  | None => throw IOException
  | Some file =>
      match FileHandle_Read file sizeof_idx_t 0 with
      | None => throw IOException
      | Some header =>
          let alloc_size := decode_le header in
          match FileHandle_Read file (Z.to_nat alloc_size) sizeof_idx_t with
          | None => throw IOException
          | Some data =>
              ret (mkFileBuffer MANAGED_BUFFER alloc_size id false data)
          end
      end
  end.

(** [BufferManager::DeleteTemporaryFile] *)
Definition DeleteTemporaryFile (id : Z) : M unit :=
  dir <- gets temp_directory ;;
  created <- gets temp_directory_handle ;;
  if bool_decide (dir = "") || negb created then ret tt
  else
    path <- gets (GetTemporaryPath id) ;;
    modify (λ s, set_files (delete path (files s)) s).

(** [BlockHandle::Unload] *)
Definition Unload (a : nat) : M unit :=
  h <- deref a ;;
  if negb (is_loaded (state h)) then ret tt
  else
    can <- gets (CanUnload h) ;;
    D_ASSERT can ;;;
    D_ASSERT (BLOCK_SIZE <=? memory_usage h) ;;;
    store a (with_state BLOCK_UNLOADED h) ;;;
    (if (MAXIMUM_BLOCK <=? block_id h) && negb (can_destroy h) then
       match buffer h with
       | Some b => WriteTemporaryBuffer b
       | None => throw NullDereference
       end
     else ret tt) ;;;
    store a (with_buffer None (with_state BLOCK_UNLOADED h)) ;;;
    modify (λ s, set_current_memory (idx_t (current_memory s - memory_usage h)) s).

(** [BlockHandle::Load]; the result is the [BufferHandle] (the address of
    the pinned handle) or [nullptr]. *)
Definition Load (a : nat) : M (option nat) :=
  h <- deref a ;;
  if is_loaded (state h) then
    D_ASSERT (bool_decide (is_Some (buffer h))) ;;;
    ret (Some a)
  else
    store a (with_state BLOCK_LOADED h) ;;;
    if block_id h <? MAXIMUM_BLOCK then
      match BlockManager_Read (block_id h) with
      | None => throw IOException
      | Some bytes =>
          store a (with_buffer
                     (Some (mkFileBuffer BLOCK BLOCK_SIZE (block_id h) false bytes))
                     (with_state BLOCK_LOADED h)) ;;;
          ret (Some a)
      end
    else if can_destroy h then ret None
    else
      b <- ReadTemporaryBuffer (block_id h) ;;
      store a (with_buffer (Some b) (with_state BLOCK_LOADED h)) ;;;
      ret (Some a).

(** ** BufferManager *)

(** [BufferManager::BufferManager(db, tmp, maximum_memory)], over the files
    that exist at that moment. *)
Definition BufferManager_new (tmp : string) (maximum_memory_p : Z)
    (fs : gmap string (list byte)) : BufferManager :=
  mkBufferManager [] ∅ 0 maximum_memory_p tmp false MAXIMUM_BLOCK [] fs.

(** [BufferManager::SetTemporaryDirectory] *)
Definition SetTemporaryDirectory (new_dir : string) : M unit :=
  created <- gets temp_directory_handle ;;
  if created then throw NotImplementedException
  else modify (set_temp_directory new_dir).

(** [BufferManager::RegisterBlock] *)
Definition RegisterBlock (block_id_p : Z) : M nat :=
  entry <- gets (λ s, blocks s !! block_id_p) ;;
  existing_ptr <- gets (λ s, entry ≫= (λ a, lock a s)) ;;
  match entry, existing_ptr with
  | Some a, Some _ => ret a
  | _, _ =>
      result <- make_shared (BlockHandle_new block_id_p) ;;
      modify (λ s, set_blocks (<[block_id_p := result]> (blocks s)) s) ;;;
      ret result
  end.

(** The body of the loop of [EvictBlocks] for one dequeued node. The handle
    mutex is not modelled: the check made before taking it and the check
    made under it see the same handle. *)
Definition evict_node (node : BufferEvictionNode) : M unit :=
  locked <- gets (lock (handle node)) ;;
  match locked with
  | None => ret tt
  | Some h =>
      can <- gets (Node_CanUnload node h) ;;
      if negb can then ret tt
      else
        can_locked <- gets (Node_CanUnload node h) ;;
        if negb can_locked then ret tt
        else Unload (handle node)
  end.

(** The loop of [EvictBlocks]; [q] is the content of the queue, and
    [try_dequeue] takes its head. *)
Fixpoint evict_loop (extra_memory memory_limit : Z) (q : list BufferEvictionNode)
    {struct q} : M bool :=
  cur <- gets current_memory ;;
  if memory_limit <? cur then
    match q with
    | [] =>
        modify (set_current_memory (idx_t (cur - extra_memory))) ;;;
        ret false
    | node :: q' =>
        modify (set_queue q') ;;;
        evict_node node ;;;
        evict_loop extra_memory memory_limit q'
    end
  else ret true.

(** [BufferManager::EvictBlocks] *)
Definition EvictBlocks (extra_memory memory_limit : Z) : M bool :=
  modify (λ s, set_current_memory (idx_t (current_memory s + extra_memory)) s) ;;;
  q <- gets queue ;;
  evict_loop extra_memory memory_limit q.

(** [BufferManager::RegisterMemory] *)
Definition RegisterMemory (alloc_size : Z) (can_destroy_p : bool) : M nat :=
  limit <- gets maximum_memory ;;
  ok <- EvictBlocks (idx_t (alloc_size + BLOCK_HEADER_SIZE)) limit ;;
  if negb ok then throw OutOfRangeException
  else
    modify (λ s, set_temporary_id (int64_t (temporary_id s + 1)) s) ;;;
    temp_id <- gets temporary_id ;;
    let buffer_p := ManagedBuffer alloc_size can_destroy_p temp_id in
    h <- BlockHandle_new_loaded temp_id buffer_p can_destroy_p alloc_size ;;
    make_shared h.

(** [BufferManager::Pin] *)
Definition Pin (a : nat) : M (option nat) :=
  h <- deref a ;;
  if is_loaded (state h) then
    store a (with_readers (int32_t (readers h + 1)) h) ;;;
    Load a
  else
    let required_memory := memory_usage h in
    limit <- gets maximum_memory ;;
    ok <- EvictBlocks required_memory limit ;;
    if negb ok then throw OutOfRangeException
    else
      h <- deref a ;;
      if is_loaded (state h) then
        store a (with_readers (int32_t (readers h + 1)) h) ;;;
        Load a
      else
        D_ASSERT (readers h =? 0) ;;;
        store a (with_readers 1 h) ;;;
        Load a.

(** [BufferManager::Allocate] *)
Definition Allocate (alloc_size : Z) : M (option nat) :=
  block <- RegisterMemory alloc_size true ;;
  Pin block.

(** [BufferManager::ReAllocate]. The handle mutex held across the call is
    not modelled; when the asserted [readers == 1] fails in a release build
    and the eviction reaches the handle itself, the source blocks on that
    mutex, and the model fails at [Resize] on the buffer it released. *)
Definition ReAllocate (a : nat) (alloc_size : Z) : M unit :=
  D_ASSERT (BLOCK_SIZE <=? alloc_size) ;;;
  h <- deref a ;;
  D_ASSERT (readers h =? 1) ;;;
  let total_size := idx_t (alloc_size + BLOCK_HEADER_SIZE) in
  let required_memory := int64_t (total_size - memory_usage h) in
  (if 0 <? required_memory then
     limit <- gets maximum_memory ;;
     ok <- EvictBlocks required_memory limit ;;
     if negb ok then throw OutOfRangeException else ret tt
   else ret tt) ;;;
  h <- deref a ;;
  match buffer h with
  | None => throw NullDereference
  | Some b =>
      store a (with_buffer (Some (Resize alloc_size b)) h) ;;;
      (if required_memory <? 0 then
         modify (λ s, set_current_memory (idx_t (current_memory s + required_memory)) s)
       else ret tt) ;;;
      h <- deref a ;;
      store a (with_memory_usage total_size h)
  end.

(** [BufferManager::Unpin] *)
Definition Unpin (a : nat) : M unit :=
  h <- deref a ;;
  D_ASSERT (0 <? readers h) ;;;
  let h1 := with_readers (int32_t (readers h - 1)) h in
  store a h1 ;;;
  if readers h1 =? 0 then
    let h2 := with_eviction_timestamp (idx_t (eviction_timestamp h1 + 1)) h1 in
    store a h2 ;;;
    modify (λ s, set_queue (queue s ++ [mkBufferEvictionNode a (eviction_timestamp h2)]) s)
  else ret tt.

(** [BufferManager::UnregisterBlock] *)
Definition UnregisterBlock (block_id_p : Z) (can_destroy_p : bool) : M unit :=
  if MAXIMUM_BLOCK <=? block_id_p then
    if negb can_destroy_p then DeleteTemporaryFile block_id_p else ret tt
  else modify (λ s, set_blocks (delete block_id_p (blocks s)) s).

(** [BlockHandle::~BlockHandle], run when the last [shared_ptr] is dropped. *)
Definition BlockHandle_destroy (a : nat) : M unit :=
  h <- deref a ;;
  (if is_loaded (state h) then
     store a (with_buffer None h) ;;;
     modify (λ s, set_current_memory (idx_t (current_memory s - memory_usage h)) s)
   else ret tt) ;;;
  UnregisterBlock (block_id h) (can_destroy h) ;;;
  modify (λ s, set_heap (<[a := None]> (heap s)) s).

(** [BufferManager::SetLimit] *)
Definition SetLimit (limit : Z) : M unit :=
  ok <- EvictBlocks 0 limit ;;
  if negb ok then throw OutOfRangeException
  else
    old_limit <- gets maximum_memory ;;
    modify (set_maximum_memory limit) ;;;
    ok2 <- EvictBlocks 0 limit ;;
    if negb ok2 then
      modify (set_maximum_memory old_limit) ;;;
      throw OutOfRangeException
    else ret tt.

(** ** Clients *)

(** What a client can do with the manager and the handles it holds; the
    last one releases the last shared reference to a handle. *)
Inductive operation :=
  | OpRegisterBlock (id : Z)
  | OpRegisterMemory (alloc_size : Z) (can_destroy_p : bool)
  | OpAllocate (alloc_size : Z)
  | OpReAllocate (a : nat) (alloc_size : Z)
  | OpPin (a : nat)
  | OpUnpin (a : nat)
  | OpEvictBlocks (extra_memory memory_limit : Z)
  | OpSetLimit (limit : Z)
  | OpSetTemporaryDirectory (new_dir : string)
  | OpDestroy (a : nat).

Definition perform (o : operation) : M unit :=
  match o with
  | OpRegisterBlock id => RegisterBlock id ;;; ret tt
  | OpRegisterMemory alloc_size cd => RegisterMemory alloc_size cd ;;; ret tt
  | OpAllocate alloc_size => Allocate alloc_size ;;; ret tt
  | OpReAllocate a alloc_size => ReAllocate a alloc_size
  | OpPin a => Pin a ;;; ret tt
  | OpUnpin a => Unpin a
  | OpEvictBlocks extra limit => EvictBlocks extra limit ;;; ret tt
  | OpSetLimit limit => SetLimit limit
  | OpSetTemporaryDirectory d => SetTemporaryDirectory d
  | OpDestroy a => BlockHandle_destroy a
  end.

(** The manager after a sequence of calls, whatever each call's outcome. *)
Fixpoint run (ops : list operation) (s : BufferManager) : BufferManager :=
  match ops with
  | [] => s
  | o :: ops' => run ops' (perform o s).2
  end.

(** Every call of the sequence returns (none throws). *)
Fixpoint all_return (ops : list operation) (s : BufferManager) : Prop :=
  match ops with
  | [] => True
  | o :: ops' => returned (perform o s) ∧ all_return ops' (perform o s).2
  end.

(** The arithmetic of a call stays within 64 bits: the sizes it adds to the
    counter do not wrap around (nor does the signed difference computed by
    [ReAllocate]); and a direct call of [EvictBlocks] evicts against a limit
    no larger than the budget. *)
Definition fits (o : operation) (s : BufferManager) : Prop :=
  match o with
  | OpRegisterMemory alloc_size _ | OpAllocate alloc_size =>
      0 ≤ alloc_size + BLOCK_HEADER_SIZE ∧
      current_memory s + (alloc_size + BLOCK_HEADER_SIZE) < 2 ^ 64
  | OpReAllocate a alloc_size =>
      ∀ h, lock a s = Some h →
        0 ≤ alloc_size + BLOCK_HEADER_SIZE < 2 ^ 64 ∧
        - 2 ^ 63 ≤ alloc_size + BLOCK_HEADER_SIZE - memory_usage h < 2 ^ 63 ∧
        current_memory s + (alloc_size + BLOCK_HEADER_SIZE - memory_usage h) < 2 ^ 64
  | OpPin a =>
      ∀ h, lock a s = Some h → state h = BLOCK_UNLOADED →
        current_memory s + memory_usage h < 2 ^ 64
  | OpEvictBlocks extra_memory memory_limit =>
      0 ≤ extra_memory ∧
      current_memory s + extra_memory < 2 ^ 64 ∧
      memory_limit ≤ maximum_memory s
  | _ => True
  end.

Fixpoint all_fit (ops : list operation) (s : BufferManager) : Prop :=
  match ops with
  | [] => True
  | o :: ops' => fits o s ∧ all_fit ops' (perform o s).2
  end.

(** The same arithmetic conditions, with nothing asked of a direct call of
    [EvictBlocks]. *)
Definition sizes_fit (o : operation) (s : BufferManager) : Prop :=
  match o with
  | OpEvictBlocks _ _ => True
  | _ => fits o s
  end.

Fixpoint all_sizes_fit (ops : list operation) (s : BufferManager) : Prop :=
  match ops with
  | [] => True
  | o :: ops' => sizes_fit o s ∧ all_sizes_fit ops' (perform o s).2
  end.

End BufferManagerModel.

(** * Concrete inputs *)

(** The values of the constants in the storage headers of the repository
    (the headers are not among the sources). *)
Definition duckdb_storage : Storage :=
  {| BLOCK_SIZE := 262136;
     BLOCK_HEADER_SIZE := 8;
     BLOCK_ALLOC_SIZE := 262144;
     MAXIMUM_BLOCK := 4611686018427388000 |}.

(** A debug build over a disk whose blocks are zeroed. *)
Definition debug_database : DatabaseInstance :=
  {| DEBUG := true;
     BlockManager_Read := λ _, Some (replicate (Z.to_nat 262136) x00);
     CreateDirectory_fails := λ _, false;
     OpenFile_fails := λ _, false;
     Write_fails := λ _ _, false |}.

Section ConcreteInputs.
#[local] Existing Instance duckdb_storage.
#[local] Existing Instance debug_database.

(** One persistent block, pinned and unpinned: loaded, and in the queue. *)
Definition one_unpinned_block : BufferManager :=
  run [OpRegisterBlock 1; OpPin 0; OpUnpin 0] (BufferManager_new "" 262144 ∅).

(** An unpinned handle that is already unloaded. *)
Definition one_unloaded_block : BufferManager :=
  run [OpRegisterBlock 1] (BufferManager_new "" 262144 ∅).

(** A stale node: the handle was pinned and unpinned again after the node
    was enqueued (and has been evicted through its fresh node since). *)
Definition stale_node : BufferEvictionNode := mkBufferEvictionNode 0 1.

Definition repinned_block : BufferManager :=
  run [OpRegisterBlock 1; OpPin 0; OpUnpin 0; OpPin 0; OpUnpin 0;
       OpSetLimit 0; OpSetLimit 262144]
    (BufferManager_new "" 262144 ∅).

(** A destroyable anonymous block, evicted while unpinned and pinned again:
    its handle has one reader. *)
Definition pinned_again : BufferManager :=
  run [OpAllocate 262136; OpUnpin 0; OpSetLimit 0; OpSetLimit 262144; OpPin 0]
    (BufferManager_new "" 262144 ∅).

Definition pinned_again_handle : BlockHandle :=
  mkBlockHandle BLOCK_LOADED 1 4611686018427388001 None 1 true 262144.

(** A manager with a temporary directory, and a block-sized buffer. *)
Definition spilling_manager : BufferManager :=
  BufferManager_new "/tmp/duckdb" 262144 ∅.

Definition spilled_buffer : FileBuffer :=
  ManagedBuffer 262136 false 4611686018427388001.

Definition returning_calls : list operation :=
  [OpRegisterBlock 1; OpPin 0; OpUnpin 0; OpAllocate 262136; OpUnpin 1;
   OpRegisterBlock 2; OpPin 2; OpEvictBlocks 0 262144; OpSetLimit 600000].

(** Returning calls with a direct eviction that reserves nothing and
    evicts against a limit above the budget. *)
Definition balanced_calls : list operation :=
  [OpRegisterBlock 1; OpPin 0; OpUnpin 0; OpEvictBlocks 0 1000000;
   OpAllocate 262136].

(** One persistent block, pinned: loaded, and not in the queue. *)
Definition one_pinned_block : BufferManager :=
  run [OpRegisterBlock 1; OpPin 0] (BufferManager_new "" 262144 ∅).

(** A second block-sized buffer, with the next id. *)
Definition second_spilled_buffer : FileBuffer :=
  ManagedBuffer 262136 false 4611686018427388002.

(** A manager whose temporary directory has been used by a spill. *)
Definition spilled_manager : BufferManager :=
  (WriteTemporaryBuffer spilled_buffer spilling_manager).2.

(** Persistent and anonymous blocks side by side. *)
Definition mixed_registrations : list operation :=
  [OpRegisterBlock 1; OpRegisterMemory 262136 false; OpRegisterBlock 2].

(** Two persistent blocks, registered and not yet pinned. *)
Definition two_registered_blocks : BufferManager :=
  run [OpRegisterBlock 1; OpRegisterBlock 2] (BufferManager_new "" 524288 ∅).

End ConcreteInputs.

(** A debug build over a disk that cannot be read. *)
Definition unreadable_disk : DatabaseInstance :=
  {| DEBUG := true;
     BlockManager_Read := λ _, None;
     CreateDirectory_fails := λ _, false;
     OpenFile_fails := λ _, false;
     Write_fails := λ _ _, false |}.

(** A storage with 16-byte blocks and a zeroed disk of such blocks, for
    runs whose buffers are followed byte by byte. *)
Definition small_storage : Storage :=
  {| BLOCK_SIZE := 16;
     BLOCK_HEADER_SIZE := 8;
     BLOCK_ALLOC_SIZE := 24;
     MAXIMUM_BLOCK := 4611686018427388000 |}.

Definition small_database : DatabaseInstance :=
  {| DEBUG := true;
     BlockManager_Read := λ _, Some (replicate 16 x00);
     CreateDirectory_fails := λ _, false;
     OpenFile_fails := λ _, false;
     Write_fails := λ _ _, false |}.

(** The same build over a file system in which no directory can be
    created. *)
Definition failing_file_system : DatabaseInstance :=
  {| DEBUG := true;
     BlockManager_Read := λ _, Some (replicate 16 x00);
     CreateDirectory_fails := λ _, true;
     OpenFile_fails := λ _, false;
     Write_fails := λ _ _, false |}.

Section SmallInputs.
#[local] Existing Instance small_storage.
#[local] Existing Instance small_database.

(** One persistent block, pinned once. *)
Definition small_pinned_block : BufferManager :=
  run [OpRegisterBlock 1; OpPin 0] (BufferManager_new "" 64 ∅).

Definition small_pinned_handle : BlockHandle :=
  mkBlockHandle BLOCK_LOADED 1 1
    (Some (mkFileBuffer BLOCK 16 1 false (replicate 16 x00))) 0 false 24.

(** One allocation: an anonymous destroyable block, pinned once. *)
Definition small_allocation : BufferManager :=
  run [OpAllocate 16] (BufferManager_new "" 64 ∅).

Definition small_allocated_handle : BlockHandle :=
  mkBlockHandle BLOCK_LOADED 1 4611686018427388001
    (Some (ManagedBuffer 16 true 4611686018427388001)) 0 true 24.

(** An anonymous block that cannot be destroyed, unpinned, under a manager
    with a temporary directory. *)
Definition small_spillable : BufferManager :=
  run [OpRegisterMemory 16 false] (BufferManager_new "/tmp/duckdb" 64 ∅).

Definition small_spillable_handle : BlockHandle :=
  mkBlockHandle BLOCK_LOADED 0 4611686018427388001
    (Some (ManagedBuffer 16 false 4611686018427388001)) 0 false 24.

(** One persistent block, pinned and released twice: two nodes of the
    queue point to it. *)
Definition twice_unpinned : list operation :=
  [OpRegisterBlock 1; OpPin 0; OpUnpin 0; OpPin 0; OpUnpin 0].

End SmallInputs.

(** * Reasoning about the monad *)

(** A call that leaves the manager in relation [R] with the one it started
    from, whatever its outcome. *)
Definition preserves {A} (R : relation BufferManager) (m : M A) : Prop :=
  ∀ s, R s (m s).2.

(** A result, from its outcome. *)
Lemma outcome_eq {A} (r : outcome A * BufferManager) (o : outcome A) :
  r.1 = o → r = (o, r.2).
Proof. destruct r. simpl. by intros ->. Qed.

Section Preserves.
Context (R : relation BufferManager) `{!PreOrder R}.

Lemma preserves_ret {A} (a : A) : preserves R (ret a).
Proof. intros s. simpl. reflexivity. Qed.

Lemma preserves_throw {A} e : preserves R (@throw A e).
Proof. intros s. simpl. reflexivity. Qed.

Lemma preserves_gets {A} (f : BufferManager → A) : preserves R (gets f).
Proof. intros s. simpl. reflexivity. Qed.

Lemma preserves_modify f : (∀ s, R s (f s)) → preserves R (modify f).
Proof. intros Hf s. apply Hf. Qed.

Lemma preserves_bind {A B} (m : M A) (k : A → M B) :
  preserves R m → (∀ a, preserves R (k a)) → preserves R (bind m k).
Proof.
  intros Hm Hk s. unfold bind. specialize (Hm s).
  destruct (m s) as [[a|e] s']; simpl in *; [|done].
  etransitivity; [exact Hm|apply Hk].
Qed.

End Preserves.

Section BufferManagerProperties.
Context `{!Storage, !DatabaseInstance}.

(** ** Predicates and relations of the specification *)

(** A handle after [Unload]. *)
Definition unloaded (h : BlockHandle) : BlockHandle :=
  with_buffer None (with_state BLOCK_UNLOADED h).

(** The parts of the manager that eviction never touches. *)
Definition same_configuration (s s' : BufferManager) : Prop :=
  maximum_memory s' = maximum_memory s ∧
  temp_directory s' = temp_directory s ∧
  blocks s' = blocks s ∧
  temporary_id s' = temporary_id s.

(** A handle before and after an eviction: untouched, or it could be
    unloaded and now is; its other fields, the buffer apart, are kept. *)
Definition evicted (s : BufferManager) (h h' : BlockHandle) : Prop :=
  h' = h ∨
  (CanUnload h s = true ∧ state h' = BLOCK_UNLOADED ∧
   readers h' = readers h ∧ block_id h' = block_id h ∧
   eviction_timestamp h' = eviction_timestamp h ∧
   can_destroy h' = can_destroy h ∧ memory_usage h' = memory_usage h).

(** The manager before and after an eviction: no handle is created or
    destroyed, and each one is [evicted]. *)
Definition evict_rel (s s' : BufferManager) : Prop :=
  same_configuration s s' ∧
  length (heap s') = length (heap s) ∧
  ∀ a, match lock a s, lock a s' with
       | Some h, Some h' => evicted s h h'
       | None, None => True
       | _, _ => False
       end.

(** The memory counter is a 64-bit value after every eviction step. *)
Definition counter_in_range (s s' : BufferManager) : Prop :=
  0 ≤ current_memory s < 2 ^ 64 → 0 ≤ current_memory s' < 2 ^ 64.

(** What a slot of the store accounts against the budget. *)
Definition charge (o : option BlockHandle) : Z :=
  match o with
  | Some h => if is_loaded (state h) then memory_usage h else 0
  | None => 0
  end.

(** The charges of a store, added up. *)
Definition total_charge (l : list (option BlockHandle)) : Z :=
  foldr (λ o acc, charge o + acc) 0 l.

(** The sum of memory_usage over the LOADED handles. *)
Definition loaded_memory (s : BufferManager) : Z := total_charge (heap s).

(** [p] holds of every live handle. *)
Definition all_handles (p : BlockHandle → Prop) (s : BufferManager) : Prop :=
  ∀ a h, lock a s = Some h → p h.

(** [p] holds of every live handle but the one at [a], which a call is
    in the middle of updating. *)
Definition all_handles_except (a : nat) (p : BlockHandle → Prop)
    (s : BufferManager) : Prop :=
  ∀ a' h, a' ≠ a → lock a' s = Some h → p h.

(** The store is untouched. *)
Definition same_heap (s s' : BufferManager) : Prop := heap s' = heap s.

(** The invariant of the readers count. *)
Definition pinned_is_loaded (h : BlockHandle) : Prop :=
  0 < readers h → state h = BLOCK_LOADED.

(** [Unpin] cannot wrap the readers count around: the build checks its
    assertion, or no count is at the least 32-bit value. *)
Definition Unpin_in_range (s : BufferManager) : Prop :=
  DEBUG = true ∨ all_handles (λ h, - 2 ^ 31 < readers h) s.

(** The readers count after at most [n] calls: at most [n], and not
    negative in a debug build, where [Unpin] checks its assertion. *)
Definition readers_within (n : Z) (h : BlockHandle) : Prop :=
  (if DEBUG then 0 else - n) ≤ readers h ≤ n.

(** The registry, the id counter and the identity of every handle are
    what they were. *)
Definition stable (s s' : BufferManager) : Prop :=
  blocks s' = blocks s ∧
  temporary_id s' = temporary_id s ∧
  length (heap s') = length (heap s) ∧
  ∀ a, block_id <$> lock a s' = block_id <$> lock a s.

(** [stable] from the moment the handle at [a] is known to carry [id]. *)
Definition stable_at (a : nat) (id : Z) (s s' : BufferManager) : Prop :=
  block_id <$> lock a s = Some id → stable s s'.

(** Every live handle with a persistent id is the one the registry holds
    for that id. *)
Definition registered (s : BufferManager) : Prop :=
  ∀ a h, lock a s = Some h → block_id h < MAXIMUM_BLOCK →
         blocks s !! block_id h = Some a.

(** After [n] calls the id counter has moved at most [n] times. *)
Definition registry_inv (n : Z) (s : BufferManager) : Prop :=
  registered s ∧ MAXIMUM_BLOCK ≤ temporary_id s ≤ MAXIMUM_BLOCK + n.

(** [a] is the live handle the registry holds for [id]. *)
Definition registered_as (id : Z) (a : nat) (s : BufferManager) : Prop :=
  blocks s !! id = Some a ∧ is_Some (lock a s).

(** A destroyed handle. *)
Definition dead (a : nat) (s : BufferManager) : Prop :=
  (a < length (heap s))%nat ∧ lock a s = None.

(** A handle accounts a non-negative size, and holds a buffer only while
    it is loaded. *)
Definition sound_handle (h : BlockHandle) : Prop :=
  0 ≤ memory_usage h ∧ (is_Some (buffer h) → state h = BLOCK_LOADED).

(** The counter covers the loaded handles and a reservation of [extra]
    bytes, within 64 bits. *)
Definition accounted (extra : Z) (s : BufferManager) : Prop :=
  0 ≤ extra ∧
  loaded_memory s + extra ≤ current_memory s ∧
  current_memory s < 2 ^ 64 ∧
  all_handles sound_handle s.

(** What holds between two calls: the accounts are right and the counter
    is within the budget. *)
Definition budget_inv (s : BufferManager) : Prop :=
  accounted 0 s ∧ current_memory s ≤ maximum_memory s.

(** The accounts are untouched. *)
Definition same_accounts (s s' : BufferManager) : Prop :=
  heap s' = heap s ∧ current_memory s' = current_memory s ∧
  maximum_memory s' = maximum_memory s.

(** What a spill can change: the files, and the directory handle, which
    it may set. *)
Definition spilled (s s' : BufferManager) : Prop :=
  heap s' = heap s ∧ blocks s' = blocks s ∧
  current_memory s' = current_memory s ∧ maximum_memory s' = maximum_memory s ∧
  temp_directory s' = temp_directory s ∧ temporary_id s' = temporary_id s ∧
  queue s' = queue s ∧
  (temp_directory_handle s = true → temp_directory_handle s' = true).

(** The file system accepts the spill of the buffer with this id: the
    directory can be created, if it has not been yet, and the file of the
    id can be opened and written. *)
Definition accepts_spill (id : Z) (s : BufferManager) : Prop :=
  (temp_directory_handle s = false → CreateDirectory_fails (temp_directory s) = false) ∧
  OpenFile_fails (GetTemporaryPath id s) = false ∧
  Write_fails (GetTemporaryPath id s) 0 = false ∧
  Write_fails (GetTemporaryPath id s) sizeof_idx_t = false.

(** Once the temporary directory has been created it stays in use, and it
    stays the same directory. *)
Definition directory_fixed (s s' : BufferManager) : Prop :=
  temp_directory_handle s = true →
  temp_directory_handle s' = true ∧ temp_directory s' = temp_directory s.

(** The counter is exactly the memory of the loaded handles. *)
Definition balanced (s : BufferManager) : Prop :=
  current_memory s = loaded_memory s.

(** What a direct call of [EvictBlocks] asks to reserve. *)
Definition direct_reservation (o : operation) : Z :=
  match o with
  | OpEvictBlocks extra_memory _ => extra_memory
  | _ => 0
  end.

(** No two live handles carry the same block id. *)
Definition unique_ids (s : BufferManager) : Prop :=
  ∀ a1 h1 a2 h2, lock a1 s = Some h1 → lock a2 s = Some h2 →
                 block_id h1 = block_id h2 → a1 = a2.

(** Every id carried by a live handle is persistent or was issued by the
    id counter. *)
Definition ids_issued (s : BufferManager) : Prop :=
  ∀ a h, lock a s = Some h → block_id h ≤ temporary_id s.

(** [RegisterBlock] is for persistent blocks: ids below [MAXIMUM_BLOCK]. *)
Definition registers_persistent (o : operation) : Prop :=
  match o with
  | OpRegisterBlock id => id < MAXIMUM_BLOCK
  | _ => True
  end.

(** The part of the handle at address [a] that a call is to keep: its
    identity always, and its readers, its stamp and its accounted size
    unless [a] is masked for them. *)
Definition watched (mr mt mu : nat → bool) (a : nat) (h : BlockHandle)
    : Z * bool * Z * Z * Z :=
  (block_id h, can_destroy h,
   if mr a then 0 else readers h,
   if mt a then 0 else eviction_timestamp h,
   if mu a then 0 else memory_usage h).

(** No handle is destroyed or brought back, and every handle keeps its
    [key]. *)
Definition kept {K} (key : nat → BlockHandle → K) (s s' : BufferManager) : Prop :=
  (length (heap s) ≤ length (heap s'))%nat ∧
  ∀ a, (a < length (heap s))%nat → key a <$> lock a s' = key a <$> lock a s.

(** [kept] from the moment the handle at [a] is known to carry [k]. *)
Definition kept_at {K} (key : nat → BlockHandle → K) (a : nat) (k : K)
    (s s' : BufferManager) : Prop :=
  key a <$> lock a s = Some k → kept key s s'.

(** The handles whose readers, stamp and accounted size a call may change. *)
Definition changes_readers (o : operation) (a : nat) : bool :=
  match o with
  | OpPin a' | OpUnpin a' => bool_decide (a' = a)
  | _ => false
  end.

Definition changes_stamp (o : operation) (a : nat) : bool :=
  match o with
  | OpUnpin a' => bool_decide (a' = a)
  | _ => false
  end.

Definition changes_size (o : operation) (a : nat) : bool :=
  match o with
  | OpReAllocate a' _ => bool_decide (a' = a)
  | _ => false
  end.

(** The queue loses nodes from its front and gains none. *)
Definition queue_shrinks (s s' : BufferManager) : Prop :=
  queue s' `suffix_of` queue s.

(** The stamps of the handles and of the queue after at most [n] calls: a
    stamp is within [0, n]; a node points into the store; it carries no
    stamp from the future of its handle; and the nodes of one handle sit
    in the queue in the order of their stamps. *)
Definition queue_inv (n : Z) (s : BufferManager) : Prop :=
  (∀ a h, lock a s = Some h → 0 ≤ eviction_timestamp h ≤ n) ∧
  (∀ node, node ∈ queue s → (handle node < length (heap s))%nat) ∧
  (∀ node h, node ∈ queue s → lock (handle node) s = Some h →
             timestamp node ≤ eviction_timestamp h) ∧
  (∀ i j ni nj, queue s !! i = Some ni → queue s !! j = Some nj → (i < j)%nat →
                handle ni = handle nj → timestamp ni < timestamp nj).

Lemma preserves_D_ASSERT R `{!PreOrder R} c : preserves R (D_ASSERT c).
Proof. unfold D_ASSERT. destruct (DEBUG && negb c); intros s; simpl; reflexivity. Qed.

Lemma D_ASSERT_holds c s : c = true → D_ASSERT c s = (Ret tt, s).
Proof. intros ->. unfold D_ASSERT. by rewrite andb_false_r. Qed.

Lemma D_ASSERT_passes c s : (DEBUG = true → c = true) → D_ASSERT c s = (Ret tt, s).
Proof.
  intros Hc. unfold D_ASSERT. destruct DEBUG; [|done].
  by rewrite Hc.
Qed.

(** ** Unload on an unloaded handle *)

(** C10: [Unload] on a handle whose state is already UNLOADED returns
    without raising and leaves the whole manager as it was: the state,
    buffer, readers and eviction_timestamp of the handle and the
    current_memory of the manager are unchanged. *)
Theorem Unload_unloaded_is_noop (a : nat) (h : BlockHandle) (s : BufferManager) :
  lock a s = Some h →
  state h = BLOCK_UNLOADED →
  Unload a s = (Ret tt, s).
Proof.
  intros Hlock Hstate. unfold Unload, bind, deref.
  rewrite Hlock, Hstate. reflexivity.
Qed.

(** ** The store *)

Lemma lock_Some a s h : lock a s = Some h ↔ heap s !! a = Some (Some h).
Proof.
  unfold lock. destruct (heap s !! a) as [[h'|]|]; simpl; split; congruence.
Qed.

Lemma lock_lt a s h : lock a s = Some h → (a < length (heap s))%nat.
Proof. rewrite lock_Some. apply lookup_lt_Some. Qed.

Lemma lock_set_heap_eq a o (s : BufferManager) :
  (a < length (heap s))%nat → lock a (set_heap (<[a := o]> (heap s)) s) = o.
Proof.
  intros Hlt. unfold lock. simpl. by rewrite list_lookup_insert_eq.
Qed.

Lemma lock_set_heap_ne a a' o (s : BufferManager) :
  a ≠ a' → lock a' (set_heap (<[a := o]> (heap s)) s) = lock a' s.
Proof.
  intros Hne. unfold lock. simpl. by rewrite list_lookup_insert_ne.
Qed.

Lemma lock_make_shared_old a h (s : BufferManager) :
  (a < length (heap s))%nat → lock a (set_heap (heap s ++ [Some h]) s) = lock a s.
Proof. intros Hlt. unfold lock. simpl. by rewrite lookup_app_l. Qed.

Lemma lock_make_shared_new h (s : BufferManager) :
  lock (length (heap s)) (set_heap (heap s ++ [Some h]) s) = Some h.
Proof.
  unfold lock. simpl. rewrite lookup_app_r by lia.
  by rewrite Nat.sub_diag.
Qed.

Lemma lock_beyond a (s : BufferManager) :
  (length (heap s) ≤ a)%nat → lock a s = None.
Proof. intros Hle. unfold lock. by rewrite lookup_ge_None_2. Qed.

(** ** What a spill does *)

Lemma FileSystem_OpenFile_returns path s :
  OpenFile_fails path = false →
  FileSystem_OpenFile path s
  = (Ret tt, set_files (<[path := default [] (files s !! path)]> (files s)) s).
Proof. intros Hok. unfold FileSystem_OpenFile. by rewrite Hok. Qed.

Lemma FileHandle_Write_at_returns path data off s :
  Write_fails path off = false →
  FileHandle_Write_at path data off s
  = (Ret tt,
     set_files (<[path := FileHandle_Write (default [] (files s !! path)) data off]>
                  (files s)) s).
Proof. intros Hok. unfold FileHandle_Write_at. by rewrite Hok. Qed.

#[local] Instance spilled_preorder : PreOrder spilled.
Proof.
  split.
  - intros s. by repeat split.
  - intros s1 s2 s3 (?&?&?&?&?&?&?&?) (?&?&?&?&?&?&?&?).
    repeat split; try congruence. auto.
Qed.

Lemma WriteTemporaryBuffer_spilled b : preserves spilled (WriteTemporaryBuffer b).
Proof.
  unfold WriteTemporaryBuffer, RequireTemporaryDirectory, TemporaryDirectoryHandle_new,
    FileSystem_CreateDirectory, FileSystem_OpenFile, FileHandle_Write_at.
  repeat first
    [ apply preserves_ret; apply _
    | apply preserves_throw; apply _
    | apply preserves_gets; apply _
    | apply preserves_D_ASSERT; apply _
    | apply preserves_modify; intros ?; by repeat split
    | apply preserves_bind; [apply _| |intros ?]
    | match goal with
      | |- preserves _ (if ?b then _ else _) => destruct b
      end ].
Qed.

(** Whatever its outcome, [WriteTemporaryBuffer] changes the files and the
    directory handle only. *)
Lemma WriteTemporaryBuffer_state b s :
  ∃ created fs,
    (WriteTemporaryBuffer b s).2 = set_files fs (set_temp_directory_handle created s) ∧
    (temp_directory_handle s = true → created = true).
Proof.
  pose proof (WriteTemporaryBuffer_spilled b s) as Hsp.
  destruct (WriteTemporaryBuffer b s) as [r s']. simpl in *.
  exists (temp_directory_handle s'), (files s').
  destruct Hsp as (?&?&?&?&?&?&?&?). split; [|done].
  destruct s, s'; simpl in *. by subst.
Qed.

(** ** What an unload does *)

#[local] Instance same_configuration_preorder : PreOrder same_configuration.
Proof.
  split.
  - intros s. by repeat split.
  - intros s1 s2 s3 (?&?&?&?) (?&?&?&?). repeat split; congruence.
Qed.

(** [Unload] of a loaded handle: when it returns, the handle is unloaded
    without a buffer and its memory is released; when it throws (a failed
    assertion, no buffer to spill, or an I/O error of the spill), nothing
    has been released. *)
Lemma Unload_loaded a s h :
  lock a s = Some h →
  state h = BLOCK_LOADED →
  ∃ r s', Unload a s = (r, s') ∧
    same_configuration s s' ∧ queue s' = queue s ∧
    match r with
    | Ret _ =>
        heap s' = <[a := Some (unloaded h)]> (heap s) ∧
        current_memory s' = idx_t (current_memory s - memory_usage h)
    | Throw _ =>
        current_memory s' = current_memory s ∧
        (heap s' = heap s ∨ heap s' = <[a := Some (with_state BLOCK_UNLOADED h)]> (heap s))
    end.
Proof.
  intros Hlock Hst. unfold Unload, bind, deref. rewrite Hlock, Hst. simpl.
  unfold D_ASSERT.
  destruct (DEBUG && negb (CanUnload h s)); simpl;
    [eexists _, _; split; [reflexivity|]; repeat split; auto|].
  destruct (DEBUG && negb (BLOCK_SIZE <=? memory_usage h)); simpl;
    [eexists _, _; split; [reflexivity|]; repeat split; auto|].
  destruct ((MAXIMUM_BLOCK <=? block_id h) && negb (can_destroy h)); simpl.
  - destruct (buffer h) as [b|]; simpl;
      [|eexists _, _; split; [reflexivity|]; repeat split; auto].
    match goal with
    | |- context [WriteTemporaryBuffer b ?s0] =>
        destruct (WriteTemporaryBuffer_state b s0) as (created & fs & Hw & _);
        destruct (WriteTemporaryBuffer b s0) as [[[]|e] s1]
    end; simpl in Hw; subst s1; simpl;
      eexists _, _; (split; [reflexivity|]); repeat split; simpl; auto.
    by rewrite list_insert_insert_eq.
  - eexists _, _; split; [reflexivity|]. repeat split; simpl.
    by rewrite list_insert_insert_eq.
Qed.

(** ** What an eviction does *)

Lemma CanUnload_loaded h s : CanUnload h s = true → state h = BLOCK_LOADED.
Proof. unfold CanUnload. destruct (state h); simpl; [discriminate|done]. Qed.

Lemma CanUnload_same_directory h s s' :
  temp_directory s' = temp_directory s → CanUnload h s' = CanUnload h s.
Proof. intros Hd. unfold CanUnload. by rewrite Hd. Qed.

#[local] Instance evict_rel_preorder : PreOrder evict_rel.
Proof.
  split.
  - intros s. split; [reflexivity|]. split; [done|].
    intros a. destruct (lock a s); [by left|done].
  - intros s1 s2 s3 (Hc1 & Hl1 & H1) (Hc2 & Hl2 & H2).
    split; [by etransitivity|]. split; [congruence|].
    intros a. specialize (H1 a). specialize (H2 a).
    destruct (lock a s1) as [h1|], (lock a s2) as [h2|], (lock a s3) as [h3|];
      try done.
    destruct H2 as [->|(Hcan & H2)]; [done|].
    destruct H1 as [->|(Hcan1 & Hst1 & _)].
    + right. split; [|done].
      rewrite <- Hcan. symmetry. apply CanUnload_same_directory, Hc1.
    + apply CanUnload_loaded in Hcan. congruence.
Qed.

Lemma evict_rel_set_current_memory x s : evict_rel s (set_current_memory x s).
Proof.
  split; [by repeat split|]. split; [done|].
  intros a. change (lock a (set_current_memory x s)) with (lock a s).
  destruct (lock a s); [by left|done].
Qed.

Lemma evict_rel_set_queue x s : evict_rel s (set_queue x s).
Proof.
  split; [by repeat split|]. split; [done|].
  intros a. change (lock a (set_queue x s)) with (lock a s).
  destruct (lock a s); [by left|done].
Qed.

(** A handle replaced in the store by an evicted version of itself. *)
Lemma evict_rel_heap_insert s s' a h h' :
  same_configuration s s' →
  lock a s = Some h →
  heap s' = <[a := Some h']> (heap s) →
  evicted s h h' →
  evict_rel s s'.
Proof.
  intros Hc Hlock Hheap Hev. split; [done|].
  split; [by rewrite Hheap, length_insert|].
  intros a'.
  assert (lock a' s' = lock a' (set_heap (<[a := Some h']> (heap s)) s)) as ->
    by (unfold lock; by rewrite Hheap).
  destruct (decide (a = a')) as [<-|Hne].
  - rewrite Hlock, lock_set_heap_eq by eauto using lock_lt. done.
  - rewrite lock_set_heap_ne by done.
    destruct (lock a' s); [by left|done].
Qed.

Lemma evict_rel_heap_same s s' :
  same_configuration s s' → heap s' = heap s → evict_rel s s'.
Proof.
  intros Hc Hheap. split; [done|]. split; [by rewrite Hheap|].
  intros a.
  assert (lock a s' = lock a s) as -> by (unfold lock; by rewrite Hheap).
  destruct (lock a s); [by left|done].
Qed.

(** The three things that can happen to a dequeued node. *)
Lemma evict_node_cases node s :
  evict_node node s = (Ret tt, s) ∨
  ∃ h, lock (handle node) s = Some h ∧ Node_CanUnload node h s = true ∧
       evict_node node s = Unload (handle node) s.
Proof.
  unfold evict_node, bind, gets. simpl.
  destruct (lock (handle node) s) as [h|] eqn:Hlock; [|by left].
  destruct (Node_CanUnload node h s) eqn:Hcan; simpl; [|by left].
  right. exists h. by rewrite Hcan.
Qed.

Lemma Node_CanUnload_true node h s :
  Node_CanUnload node h s = true →
  timestamp node = eviction_timestamp h ∧ CanUnload h s = true.
Proof.
  unfold Node_CanUnload.
  destruct (timestamp node =? eviction_timestamp h) eqn:Heq; simpl; [|done].
  apply Z.eqb_eq in Heq. done.
Qed.

Lemma evict_node_rel node : preserves evict_rel (evict_node node).
Proof.
  intros s. destruct (evict_node_cases node s) as [->|(h & Hlock & Hcan & ->)].
  - reflexivity.
  - apply Node_CanUnload_true in Hcan as [_ Hcan].
    destruct (Unload_loaded _ _ _ Hlock (CanUnload_loaded _ _ Hcan))
      as (r & s' & -> & Hc & _ & Hr). simpl.
    destruct r as [[]|e].
    + destruct Hr as [Hheap _].
      eapply evict_rel_heap_insert; [done..|]. by right.
    + destruct Hr as [_ [Hheap|Hheap]].
      * by apply evict_rel_heap_same.
      * eapply evict_rel_heap_insert; [done..|]. by right.
Qed.

Lemma evict_loop_rel extra limit q : preserves evict_rel (evict_loop extra limit q).
Proof.
  induction q as [|node q IH]; simpl.
  - apply preserves_bind; [apply _|apply preserves_gets, _|]. intros cur.
    destruct (limit <? cur); [|apply preserves_ret, _].
    apply preserves_bind; [apply _| |intros; apply preserves_ret, _].
    apply preserves_modify, evict_rel_set_current_memory.
  - apply preserves_bind; [apply _|apply preserves_gets, _|]. intros cur.
    destruct (limit <? cur); [|apply preserves_ret, _].
    apply preserves_bind; [apply _| |intros _].
    { apply preserves_modify, evict_rel_set_queue. }
    apply preserves_bind; [apply _|apply evict_node_rel|intros _; apply IH].
Qed.

Lemma EvictBlocks_rel extra limit : preserves evict_rel (EvictBlocks extra limit).
Proof.
  unfold EvictBlocks.
  apply preserves_bind; [apply _| |intros _].
  { apply preserves_modify. intros s. apply evict_rel_set_current_memory. }
  apply preserves_bind; [apply _|apply preserves_gets, _|].
  intros q. apply evict_loop_rel.
Qed.

(** ** Stale queue nodes *)

(** C5: a dequeued node whose stamp differs from the current
    eviction_timestamp of its handle is discarded: processing it returns
    without unloading and leaves the whole manager (so the state, buffer and
    readers of the handle) unchanged, and the loop of [EvictBlocks] goes on
    with the rest of the queue as if the node had never been there. *)
Theorem stale_node_is_discarded (node : BufferEvictionNode) (h : BlockHandle)
    (s : BufferManager) (extra limit : Z) (q : list BufferEvictionNode) :
  lock (handle node) s = Some h →
  timestamp node ≠ eviction_timestamp h →
  evict_node node s = (Ret tt, s) ∧
  (limit < current_memory s →
   evict_loop extra limit (node :: q) s = evict_loop extra limit q (set_queue q s)).
Proof.
  intros Hlock Hstamp.
  assert (Hnode : ∀ s0, lock (handle node) s0 = Some h → evict_node node s0 = (Ret tt, s0)).
  { intros s0 Hl. unfold evict_node, bind, gets. simpl. rewrite Hl.
    unfold Node_CanUnload.
    destruct (timestamp node =? eviction_timestamp h) eqn:Heq; [|done].
    apply Z.eqb_eq in Heq. done. }
  split; [by apply Hnode|].
  intros Hover. simpl. unfold bind at 1. simpl.
  apply Z.ltb_lt in Hover. rewrite Hover.
  unfold bind at 1. simpl. unfold bind at 1.
  by rewrite Hnode.
Qed.

(** ** Handles that cannot be unloaded *)

Lemma CanUnload_false_iff h s :
  CanUnload h s = false ↔
  state h = BLOCK_UNLOADED ∨ 0 < readers h ∨
  (MAXIMUM_BLOCK ≤ block_id h ∧ can_destroy h = false ∧ temp_directory s = "").
Proof.
  unfold CanUnload.
  destruct (state h); simpl; [naive_solver|].
  destruct (0 <? readers h) eqn:Hr; [apply Z.ltb_lt in Hr; naive_solver|].
  apply Z.ltb_ge in Hr.
  destruct (MAXIMUM_BLOCK <=? block_id h) eqn:Hid; simpl.
  - apply Z.leb_le in Hid. destruct (can_destroy h); simpl.
    + split; [done|]. intros [?|[?|(?&?&?)]]; [done|lia|done].
    + case_bool_decide; simpl; [naive_solver|].
      split; [done|]. intros [?|[?|(?&?&?)]]; [done|lia|done].
  - apply Z.leb_gt in Hid. split; [done|].
    intros [?|[?|(?&?&?)]]; [done|lia|lia].
Qed.

(** C6: [CanUnload] is false exactly for a handle that is UNLOADED, has
    readers, or is anonymous and not destroyable while no temporary
    directory is set; and [EvictBlocks], whatever its arguments and its
    outcome, leaves such a handle exactly as it was (it is never unloaded). *)
Theorem CanUnload_false_never_evicted (a : nat) (h : BlockHandle) (s : BufferManager)
    (extra limit : Z) :
  (CanUnload h s = false ↔
   state h = BLOCK_UNLOADED ∨ 0 < readers h ∨
   (MAXIMUM_BLOCK ≤ block_id h ∧ can_destroy h = false ∧ temp_directory s = "")) ∧
  (lock a s = Some h → CanUnload h s = false →
   lock a (EvictBlocks extra limit s).2 = Some h).
Proof.
  split; [apply CanUnload_false_iff|].
  intros Hlock Hcan.
  destruct (EvictBlocks_rel extra limit s) as (_ & _ & Hrel).
  specialize (Hrel a). rewrite Hlock in Hrel.
  destruct (lock a (EvictBlocks extra limit s).2) as [h'|]; [|done].
  destruct Hrel as [->|(Hcan' & _)]; [done|congruence].
Qed.

(** ** The result of an eviction *)

Lemma evict_loop_satisfied extra limit q s :
  current_memory s ≤ limit → evict_loop extra limit q s = (Ret true, s).
Proof.
  intros Hle. apply Z.ltb_ge in Hle.
  destruct q; simpl; unfold bind, gets; simpl; by rewrite Hle.
Qed.

Lemma evict_loop_true extra limit q s s' :
  evict_loop extra limit q s = (Ret true, s') → current_memory s' ≤ limit.
Proof.
  revert s. induction q as [|node q IH]; intros s; simpl; unfold bind, gets; simpl.
  - destruct (limit <? current_memory s) eqn:Hlt; [done|].
    intros [= <-]. by apply Z.ltb_ge.
  - destruct (limit <? current_memory s) eqn:Hlt.
    + destruct (evict_node node (set_queue q s)) as [[[]|e] s1]; [apply IH|done].
    + intros [= <-]. by apply Z.ltb_ge.
Qed.

Lemma EvictBlocks_true extra limit s s' :
  EvictBlocks extra limit s = (Ret true, s') → current_memory s' ≤ limit.
Proof. unfold EvictBlocks, bind, gets. simpl. apply evict_loop_true. Qed.

Lemma EvictBlocks_maximum_memory extra limit s :
  maximum_memory (EvictBlocks extra limit s).2 = maximum_memory s.
Proof. by destruct (EvictBlocks_rel extra limit s) as ((? & _) & _). Qed.

Lemma idx_t_range z : 0 ≤ idx_t z < 2 ^ 64.
Proof. unfold idx_t. apply Z.mod_pos_bound. lia. Qed.

Lemma idx_t_small z : 0 ≤ z < 2 ^ 64 → idx_t z = z.
Proof. unfold idx_t. intros. by apply Z.mod_small. Qed.

#[local] Instance counter_in_range_preorder : PreOrder counter_in_range.
Proof. split; unfold counter_in_range; [by intros s|intros s1 s2 s3; auto]. Qed.

Lemma evict_node_counter node : preserves counter_in_range (evict_node node).
Proof.
  intros s Hr. destruct (evict_node_cases node s) as [->|(h & Hlock & Hcan & ->)]; [done|].
  apply Node_CanUnload_true in Hcan as [_ Hcan].
  destruct (Unload_loaded _ _ _ Hlock (CanUnload_loaded _ _ Hcan))
    as (r & s' & -> & _ & _ & Hr'). simpl.
  destruct r as [[]|e].
  - destruct Hr' as [_ ->]. apply idx_t_range.
  - destruct Hr' as [-> _]. done.
Qed.

Lemma evict_loop_counter extra limit q :
  preserves counter_in_range (evict_loop extra limit q).
Proof.
  induction q as [|node q IH]; simpl.
  - apply preserves_bind; [apply _|apply preserves_gets, _|]. intros cur.
    destruct (limit <? cur); [|apply preserves_ret, _].
    apply preserves_bind; [apply _| |intros; apply preserves_ret, _].
    apply preserves_modify. intros s _. apply idx_t_range.
  - apply preserves_bind; [apply _|apply preserves_gets, _|]. intros cur.
    destruct (limit <? cur); [|apply preserves_ret, _].
    apply preserves_bind; [apply _| |intros _].
    { apply preserves_modify. intros s Hs. exact Hs. }
    apply preserves_bind; [apply _|apply evict_node_counter|intros _; apply IH].
Qed.

Lemma EvictBlocks_counter extra limit s :
  0 ≤ current_memory (EvictBlocks extra limit s).2 < 2 ^ 64.
Proof.
  unfold EvictBlocks, bind at 1. simpl. unfold bind, gets. simpl.
  apply evict_loop_counter. simpl. apply idx_t_range.
Qed.

Lemma EvictBlocks_zero_satisfied limit s :
  0 ≤ current_memory s < 2 ^ 64 →
  current_memory s ≤ limit →
  ∃ s', EvictBlocks 0 limit s = (Ret true, s') ∧
        maximum_memory s' = maximum_memory s ∧
        current_memory s' = current_memory s.
Proof.
  intros Hrange Hle. unfold EvictBlocks, bind, gets, modify. simpl.
  rewrite evict_loop_satisfied; simpl.
  - eexists; split; [reflexivity|]. simpl.
    by rewrite Z.add_0_r, idx_t_small.
  - by rewrite Z.add_0_r, idx_t_small.
Qed.

(** ** SetLimit *)

(** C9: when [SetLimit] throws (the only exception it can throw on its own
    is the out-of-memory [OutOfRangeException]), maximum_memory is what it
    was before the call; when it returns, maximum_memory is the new limit
    and current_memory is at most that limit. *)
Theorem SetLimit_commits_or_restores (limit : Z) (s : BufferManager) :
  match SetLimit limit s with
  | (Ret _, s') => maximum_memory s' = limit ∧ current_memory s' ≤ limit
  | (Throw _, s') => maximum_memory s' = maximum_memory s
  end.
Proof.
  unfold SetLimit, bind at 1.
  pose proof (EvictBlocks_maximum_memory 0 limit s) as Hmax.
  pose proof (EvictBlocks_counter 0 limit s) as Hrange.
  destruct (EvictBlocks 0 limit s) as [[ok|e] s1] eqn:Hfirst; simpl in *; [|done].
  destruct ok; simpl; [|done].
  apply EvictBlocks_true in Hfirst.
  unfold bind at 1. simpl. unfold bind at 1. simpl.
  destruct (EvictBlocks_zero_satisfied limit (set_maximum_memory limit s1))
    as (s2 & Hsecond & Hmax2 & Hcur2); [done..|].
  unfold bind at 1. rewrite Hsecond. simpl.
  rewrite Hmax2, Hcur2. done.
Qed.

(** ** Memory accounted to loaded handles *)

Lemma total_charge_app l1 l2 :
  total_charge (l1 ++ l2) = total_charge l1 + total_charge l2.
Proof. induction l1 as [|o l1 IH]; simpl; [done|]. rewrite IH. lia. Qed.

Lemma total_charge_insert l a o o' :
  l !! a = Some o →
  total_charge (<[a := o']> l) = total_charge l - charge o + charge o'.
Proof.
  revert a. induction l as [|x l IH]; intros [|a] Hl; simpl in *; try done.
  - injection Hl as ->. lia.
  - rewrite (IH _ Hl). lia.
Qed.

Lemma loaded_memory_insert s s' a h h' :
  lock a s = Some h →
  heap s' = <[a := Some h']> (heap s) →
  loaded_memory s' = loaded_memory s - charge (Some h) + charge (Some h').
Proof.
  intros Hlock Hheap. unfold loaded_memory. rewrite Hheap.
  apply total_charge_insert. by apply lock_Some.
Qed.

Lemma idx_t_sub_idemp x y : idx_t (idx_t x - y) = idx_t (x - y).
Proof. unfold idx_t. apply Zminus_mod_idemp_l. Qed.

(** A node whose processing returns releases from the counter exactly the
    memory of the handle it unloaded, if any. *)
Lemma evict_node_accounting node s s' :
  0 ≤ current_memory s < 2 ^ 64 →
  evict_node node s = (Ret tt, s') →
  current_memory s' = idx_t (current_memory s - (loaded_memory s - loaded_memory s')).
Proof.
  intros Hrange.
  destruct (evict_node_cases node s) as [->|(h & Hlock & Hcan & ->)].
  - intros [= <-]. rewrite Z.sub_diag, Z.sub_0_r. by rewrite idx_t_small.
  - apply Node_CanUnload_true in Hcan as [_ Hcan].
    pose proof (CanUnload_loaded _ _ Hcan) as Hst.
    destruct (Unload_loaded _ _ _ Hlock Hst) as (r & s1 & -> & _ & _ & Hr).
    intros [= -> <-]. destruct Hr as [Hheap ->].
    rewrite (loaded_memory_insert _ _ _ _ _ Hlock Hheap). simpl.
    rewrite Hst. simpl. f_equal. lia.
Qed.

Lemma evict_loop_false extra limit q s s' :
  0 ≤ current_memory s < 2 ^ 64 →
  evict_loop extra limit q s = (Ret false, s') →
  current_memory s' =
    idx_t (current_memory s - extra - (loaded_memory s - loaded_memory s')).
Proof.
  revert s. induction q as [|node q IH]; intros s Hrange; simpl;
    unfold bind, gets; simpl.
  - destruct (limit <? current_memory s); [|done].
    intros [= <-]. simpl.
    change (loaded_memory (set_current_memory _ s)) with (loaded_memory s).
    f_equal. lia.
  - destruct (limit <? current_memory s); [|done].
    pose proof (evict_node_counter node (set_queue q s) Hrange) as Hrange1.
    pose proof (evict_node_accounting node (set_queue q s)) as Hacc.
    destruct (evict_node node (set_queue q s)) as [[[]|e] s1]; [|done].
    simpl in Hrange1. intros Hloop. rewrite (IH _ Hrange1 Hloop).
    rewrite (Hacc s1 Hrange eq_refl). simpl.
    change (loaded_memory (set_queue q s)) with (loaded_memory s).
    rewrite <- Z.sub_add_distr, idx_t_sub_idemp. f_equal. lia.
Qed.

(** C3, as the code has it: when [EvictBlocks] returns false the
    reservation [extra] has been rolled back, but the handles the call
    unloaded before the queue ran dry stay unloaded: current_memory is its
    value before the call minus the memory_usage of the handles the call
    unloaded (modulo 2^64), every handle being either untouched or unloaded
    with its other fields kept. It is the value before the call when the
    call unloaded nothing. *)
Theorem EvictBlocks_false_rolls_back_reservation (extra limit : Z)
    (s s' : BufferManager) :
  EvictBlocks extra limit s = (Ret false, s') →
  current_memory s' =
    idx_t (current_memory s - (loaded_memory s - loaded_memory s')) ∧
  evict_rel s s' ∧
  (0 ≤ current_memory s < 2 ^ 64 → loaded_memory s' = loaded_memory s →
   current_memory s' = current_memory s).
Proof.
  intros Hev.
  assert (Hcur : current_memory s' =
            idx_t (current_memory s - (loaded_memory s - loaded_memory s'))).
  { revert Hev. unfold EvictBlocks, bind, gets, modify. simpl. intros Hloop.
    apply evict_loop_false in Hloop; [|simpl; apply idx_t_range].
    rewrite Hloop. simpl.
    change (loaded_memory (set_current_memory _ s)) with (loaded_memory s).
    rewrite <- Z.sub_add_distr, idx_t_sub_idemp. f_equal. lia. }
  split; [done|]. split.
  - pose proof (EvictBlocks_rel extra limit s) as Hrel. by rewrite Hev in Hrel.
  - intros Hrange Hsame. rewrite Hcur, Hsame, Z.sub_diag, Z.sub_0_r.
    by apply idx_t_small.
Qed.

(** ** Temporary files: the size header and the payload *)

Lemma Z_of_byte_of_Z z : Z_of_byte (byte_of_Z z) = z mod 256.
Proof.
  unfold Z_of_byte, byte_of_Z.
  assert (Hb : 0 ≤ z mod 256 < 256) by (apply Z.mod_pos_bound; lia).
  pose proof (Byte.to_of_N_option_map (Z.to_N (z mod 256))) as Hopt.
  destruct (Byte.of_N (Z.to_N (z mod 256))) as [b|]; simpl in *.
  - destruct (Z.to_N (z mod 256) <=? 255)%N; [|done].
    injection Hopt as ->. lia.
  - destruct (Z.to_N (z mod 256) <=? 255)%N eqn:Hle; [done|].
    apply N.leb_gt in Hle. lia.
Qed.

Lemma length_encode_le n z : length (encode_le n z) = n.
Proof. revert z. induction n as [|n IH]; intros z; simpl; [done|]. by rewrite IH. Qed.

Lemma decode_encode_le n z : decode_le (encode_le n z) = z mod 256 ^ Z.of_nat n.
Proof.
  revert z. induction n as [|n IH]; intros z.
  - simpl. by rewrite Z.mod_1_r.
  - cbn [encode_le decode_le]. rewrite IH, Z_of_byte_of_Z.
    rewrite Nat2Z.inj_succ, Z.pow_succ_r by lia.
    rewrite Z.rem_mul_r by lia. done.
Qed.

Lemma decode_encode_size z :
  0 ≤ z < 2 ^ 64 → decode_le (encode_le sizeof_idx_t z) = z.
Proof.
  intros Hz. rewrite decode_encode_le.
  change (256 ^ Z.of_nat sizeof_idx_t) with (2 ^ 64). by apply Z.mod_small.
Qed.

(** The file after the two writes of [WriteTemporaryBuffer]. *)
Lemma spill_file_layout (file header data : list byte) :
  length header = sizeof_idx_t →
  ∃ rest,
    FileHandle_Write (FileHandle_Write file header 0) data sizeof_idx_t
    = header ++ data ++ rest.
Proof.
  intros Hlen. unfold FileHandle_Write. simpl.
  rewrite <- app_assoc, take_app_length' by done.
  eexists. reflexivity.
Qed.

Lemma FileHandle_Read_header (header rest : list byte) :
  FileHandle_Read (header ++ rest) (length header) 0 = Some header.
Proof.
  unfold FileHandle_Read. rewrite decide_True by (rewrite length_app; lia).
  rewrite drop_0. by rewrite take_app_length.
Qed.

Lemma FileHandle_Read_payload (header data rest : list byte) :
  FileHandle_Read (header ++ data ++ rest) (length data) (length header) = Some data.
Proof.
  unfold FileHandle_Read.
  rewrite decide_True by (rewrite !length_app; lia).
  by rewrite drop_app_length, take_app_length.
Qed.

Lemma ReadTemporaryBuffer_returns id s (header data rest : list byte) :
  temp_directory s ≠ "" →
  temp_directory_handle s = true →
  files s !! GetTemporaryPath id s = Some (header ++ data ++ rest) →
  length header = sizeof_idx_t →
  length data = Z.to_nat (decode_le header) →
  ReadTemporaryBuffer id s
  = (Ret (mkFileBuffer MANAGED_BUFFER (decode_le header) id false data), s).
Proof.
  intros Hdir Hcreated Hfile Hheader Hdata.
  unfold ReadTemporaryBuffer, bind, gets. simpl.
  rewrite D_ASSERT_holds by (by rewrite bool_decide_eq_false_2).
  rewrite D_ASSERT_holds by done.
  rewrite Hfile.
  rewrite <- Hheader, FileHandle_Read_header.
  rewrite <- Hdata, FileHandle_Read_payload. done.
Qed.

Lemma WriteTemporaryBuffer_returns b s :
  temp_directory s ≠ "" →
  accepts_spill (buffer_id b) s →
  (DEBUG = true → BLOCK_SIZE ≤ buffer_size b) →
  ∃ rest,
    WriteTemporaryBuffer b s
    = (Ret tt,
       set_files (<[GetTemporaryPath (buffer_id b) s :=
                      encode_le sizeof_idx_t (buffer_size b) ++ buffer_data b ++ rest]>
                    (files s))
         (set_temp_directory_handle true s)).
Proof.
  intros Hdir (Hcreate & Hopen & Hheader & Hpayload) Hassert.
  destruct (spill_file_layout
              (default [] (files s !! GetTemporaryPath (buffer_id b) s))
              (encode_le sizeof_idx_t (buffer_size b)) (buffer_data b))
    as [rest Hfile]; [apply length_encode_le|].
  assert (Hok : DEBUG && negb (BLOCK_SIZE <=? buffer_size b) = false).
  { destruct DEBUG; [|done]. simpl.
    rewrite (proj2 (Z.leb_le _ _)) by auto. done. }
  exists rest. rewrite <- Hfile.
  set (path := GetTemporaryPath (buffer_id b) s) in *.
  assert (Hrequire : RequireTemporaryDirectory s
                     = (Ret tt, set_temp_directory_handle true s)).
  { unfold RequireTemporaryDirectory, TemporaryDirectoryHandle_new,
      FileSystem_CreateDirectory, bind, gets, modify. simpl.
    rewrite bool_decide_eq_false_2 by done.
    destruct (temp_directory_handle s) eqn:Hcreated; simpl.
    - destruct s; simpl in *. by subst.
    - by rewrite Hcreate. }
  unfold WriteTemporaryBuffer, bind at 1. rewrite Hrequire.
  unfold bind at 1, D_ASSERT. rewrite Hok. cbn [ret].
  unfold bind at 1, gets.
  change (GetTemporaryPath (buffer_id b) (set_temp_directory_handle true s)) with path.
  unfold bind. rewrite FileSystem_OpenFile_returns by done.
  rewrite FileHandle_Write_at_returns by done.
  rewrite FileHandle_Write_at_returns by done.
  cbn [files set_files]. rewrite !lookup_insert_eq. cbn [default].
  by rewrite !insert_insert_eq.
Qed.

(** C8: after [WriteTemporaryBuffer] of a buffer (a temporary directory
    being set, the file system accepting the write, and the buffer holding
    [buffer_size] bytes), the file of its
    id is the 8-byte little-endian size followed by the payload, and
    [ReadTemporaryBuffer] of that id returns a buffer of the written size
    whose bytes are the written payload. *)
Theorem temporary_buffer_round_trip (b : FileBuffer) (s : BufferManager) :
  temp_directory s ≠ "" →
  accepts_spill (buffer_id b) s →
  0 ≤ buffer_size b < 2 ^ 64 →
  length (buffer_data b) = Z.to_nat (buffer_size b) →
  (DEBUG = true → BLOCK_SIZE ≤ buffer_size b) →
  ∃ s1 rest,
    WriteTemporaryBuffer b s = (Ret tt, s1) ∧
    files s1 !! GetTemporaryPath (buffer_id b) s1
      = Some (encode_le sizeof_idx_t (buffer_size b) ++ buffer_data b ++ rest) ∧
    ∃ b', ReadTemporaryBuffer (buffer_id b) s1 = (Ret b', s1) ∧
          buffer_size b' = buffer_size b ∧
          buffer_data b' = buffer_data b ∧
          buffer_id b' = buffer_id b.
Proof.
  intros Hdir Hfs Hsize Hlen Hassert.
  destruct (WriteTemporaryBuffer_returns b s Hdir Hfs Hassert) as [rest Hwrite].
  set (path := GetTemporaryPath (buffer_id b) s) in *.
  set (header := encode_le sizeof_idx_t (buffer_size b)) in *.
  eexists _, rest. split; [exact Hwrite|].
  assert (Hfile : <[path := header ++ buffer_data b ++ rest]> (files s) !! path
                  = Some (header ++ buffer_data b ++ rest))
    by apply lookup_insert_eq.
  split; [exact Hfile|].
  eexists. split; [|split; [|split]].
  - apply (ReadTemporaryBuffer_returns _ _ header (buffer_data b) rest);
      [done|done|exact Hfile|apply length_encode_le|].
    unfold header. by rewrite decode_encode_size.
  - simpl. unfold header. by apply decode_encode_size.
  - done.
  - done.
Qed.

(** X1: the round trip through the handle: a loaded, unpinned anonymous
    block that cannot be destroyed is written to its temporary file by
    [Unload] (the file system accepting the write), which leaves the
    handle unloaded, and [Load] brings its size and its bytes back. *)
Lemma spilled_block_is_reloaded (a : nat) (h : BlockHandle) (b : FileBuffer)
    (s : BufferManager) :
  lock a s = Some h →
  state h = BLOCK_LOADED → readers h ≤ 0 →
  MAXIMUM_BLOCK ≤ block_id h → can_destroy h = false →
  buffer h = Some b → buffer_id b = block_id h →
  temp_directory s ≠ "" →
  accepts_spill (block_id h) s →
  0 ≤ buffer_size b < 2 ^ 64 →
  length (buffer_data b) = Z.to_nat (buffer_size b) →
  (DEBUG = true → BLOCK_SIZE ≤ buffer_size b ∧ BLOCK_SIZE ≤ memory_usage h) →
  ∃ s1 s2 b',
    Unload a s = (Ret tt, s1) ∧
    lock a s1 = Some (unloaded h) ∧
    Load a s1 = (Ret (Some a), s2) ∧
    lock a s2 = Some (with_buffer (Some b') h) ∧
    buffer_size b' = buffer_size b ∧
    buffer_data b' = buffer_data b.
Proof.
  intros Hlock Hst Hreaders Hanon Hcd Hbuf Hid Hdir Hfs Hsize Hlen Hassert.
  rewrite <- Hid in Hfs.
  pose proof (lock_lt _ _ _ Hlock) as Hlt.
  assert (Hcan : CanUnload h s = true).
  { unfold CanUnload. rewrite Hst, Hcd. simpl.
    rewrite (proj2 (Z.ltb_ge _ _)) by done.
    rewrite bool_decide_eq_false_2 by done. by rewrite andb_false_r. }
  assert (Hanon' : (MAXIMUM_BLOCK <=? block_id h) = true) by by apply Z.leb_le.
  assert (Hanon'' : (block_id h <? MAXIMUM_BLOCK) = false) by (apply Z.ltb_ge; lia).
  set (s0 := set_heap (<[a := Some (with_state BLOCK_UNLOADED h)]> (heap s)) s).
  destruct (WriteTemporaryBuffer_returns b s0 Hdir Hfs (λ Hd, proj1 (Hassert Hd)))
    as [rest Hwrite].
  set (header := encode_le sizeof_idx_t (buffer_size b)) in *.
  set (path := GetTemporaryPath (buffer_id b) s0) in *.
  set (s1 := set_current_memory (idx_t (current_memory s - memory_usage h))
               (set_heap (<[a := Some (unloaded h)]> (heap s))
                  (set_files (<[path := header ++ buffer_data b ++ rest]> (files s))
                     (set_temp_directory_handle true s)))).
  assert (HUnload : Unload a s = (Ret tt, s1)).
  { unfold Unload, bind at 1, deref. rewrite Hlock, Hst. simpl.
    unfold bind at 1, gets. simpl. rewrite Hcan.
    unfold bind at 1. rewrite D_ASSERT_holds by done.
    unfold bind at 1. rewrite D_ASSERT_passes
      by (intros Hd; apply Z.leb_le, (Hassert Hd)).
    unfold bind at 1, store, modify. simpl. fold s0.
    rewrite Hanon', Hcd, Hbuf. simpl.
    unfold bind at 1. rewrite Hwrite.
    unfold bind. simpl. unfold s1, unloaded. f_equal. f_equal.
    by rewrite list_insert_insert_eq. }
  assert (Hlock1 : lock a s1 = Some (unloaded h)).
  { apply lock_Some. unfold s1. simpl. by apply list_lookup_insert_eq. }
  set (b' := mkFileBuffer MANAGED_BUFFER (decode_le header) (block_id h) false
               (buffer_data b)).
  set (s1' := set_heap (<[a := Some (with_state BLOCK_LOADED (unloaded h))]> (heap s1)) s1).
  assert (Hread : ReadTemporaryBuffer (block_id h) s1' = (Ret b', s1')).
  { apply (ReadTemporaryBuffer_returns _ _ header (buffer_data b) rest);
      [done|done| |apply length_encode_le|].
    - rewrite <- Hid.
      change (<[path := header ++ buffer_data b ++ rest]> (files s) !! path
              = Some (header ++ buffer_data b ++ rest)).
      apply lookup_insert_eq.
    - unfold header. by rewrite decode_encode_size. }
  exists s1, (set_heap (<[a := Some (with_buffer (Some b') h)]> (heap s1)) s1), b'.
  split; [done|]. split; [done|]. split; [|split; [|split]].
  - unfold Load, bind at 1, deref. rewrite Hlock1. simpl.
    unfold bind at 1, store, modify. simpl.
    rewrite Hanon'', Hcd. unfold bind at 1.
    change (ReadTemporaryBuffer (block_id h) _)
      with (ReadTemporaryBuffer (block_id h) s1').
    rewrite Hread.
    unfold bind, store, modify. simpl. f_equal.
    unfold s1', set_heap. simpl. f_equal.
    rewrite !list_insert_insert_eq. do 2 f_equal.
    destruct h. simpl in *. by subst.
  - apply lock_Some. simpl. apply list_lookup_insert_eq.
    unfold s1. simpl. by rewrite length_insert.
  - simpl. unfold header. by apply decode_encode_size.
  - done.
Qed.

(** ** Properties of every handle of the store *)

Lemma all_handles_weaken a p s : all_handles p s → all_handles_except a p s.
Proof. intros Hall a' h _. apply Hall. Qed.

Lemma all_handles_same_heap p s s' :
  heap s' = heap s → all_handles p s → all_handles p s'.
Proof.
  intros Hheap Hall a h Hlock. apply (Hall a). unfold lock in *. by rewrite <- Hheap.
Qed.

Lemma all_handles_except_same_heap a p s s' :
  heap s' = heap s → all_handles_except a p s → all_handles_except a p s'.
Proof.
  intros Hheap Hall a' h Hne Hlock. apply (Hall a'); [done|].
  unfold lock in *. by rewrite <- Hheap.
Qed.

Lemma all_handles_store a p h' s :
  all_handles_except a p s → p h' →
  all_handles p (set_heap (<[a := Some h']> (heap s)) s).
Proof.
  intros Hall Hp a0 h0. destruct (decide (a = a0)) as [<-|Hne].
  - destruct (decide (a < length (heap s))%nat) as [Hlt|Hge].
    + rewrite lock_set_heap_eq by done. by intros [= <-].
    + rewrite lock_beyond; [done|]. simpl. rewrite length_insert. lia.
  - rewrite lock_set_heap_ne by done. by apply Hall.
Qed.

Lemma all_handles_except_store a p o s :
  all_handles_except a p s →
  all_handles_except a p (set_heap (<[a := o]> (heap s)) s).
Proof.
  intros Hall a0 h0 Hne. rewrite lock_set_heap_ne by done. by apply Hall.
Qed.

Lemma all_handles_release a p s :
  all_handles_except a p s →
  all_handles p (set_heap (<[a := None]> (heap s)) s).
Proof.
  intros Hall a0 h0. destruct (decide (a = a0)) as [<-|Hne].
  - destruct (decide (a < length (heap s))%nat) as [Hlt|Hge].
    + by rewrite lock_set_heap_eq.
    + rewrite lock_beyond; [done|]. simpl. rewrite length_insert. lia.
  - rewrite lock_set_heap_ne by done. by apply Hall.
Qed.

Lemma lock_make_shared a h h' (s : BufferManager) :
  lock a (set_heap (heap s ++ [Some h']) s) = Some h →
  lock a s = Some h ∨ (a = length (heap s) ∧ h = h').
Proof.
  destruct (decide (a < length (heap s))%nat) as [Hlt|Hge].
  - rewrite lock_make_shared_old by done. by left.
  - destruct (decide (a = length (heap s))) as [->|Hne].
    + rewrite lock_make_shared_new. intros [= <-]. by right.
    + rewrite lock_beyond; [done|]. simpl. rewrite length_app. simpl. lia.
Qed.

Lemma lock_appended a h h' (s s' : BufferManager) :
  heap s' = heap s ++ [Some h'] →
  lock a s' = Some h →
  lock a s = Some h ∨ (a = length (heap s) ∧ h = h').
Proof.
  intros Hheap Hlock. apply lock_make_shared.
  unfold lock in *. simpl. by rewrite <- Hheap.
Qed.

Lemma all_handles_make_shared p h' s :
  all_handles p s → p h' → all_handles p (set_heap (heap s ++ [Some h']) s).
Proof.
  intros Hall Hp a h Hlock.
  apply lock_make_shared in Hlock as [Hlock|[_ ->]]; [by apply (Hall a)|done].
Qed.

(** The same facts for any manager whose store is the updated one. *)
Lemma all_handles_insert a p h' s s' :
  heap s' = <[a := Some h']> (heap s) →
  all_handles_except a p s → p h' → all_handles p s'.
Proof.
  intros Hheap Hall Hp.
  apply (all_handles_same_heap _ (set_heap (<[a := Some h']> (heap s)) s));
    [done|by apply all_handles_store].
Qed.

Lemma all_handles_released a p s s' :
  heap s' = <[a := None]> (heap s) →
  all_handles_except a p s → all_handles p s'.
Proof.
  intros Hheap Hall.
  apply (all_handles_same_heap _ (set_heap (<[a := None]> (heap s)) s));
    [done|by apply all_handles_release].
Qed.

Lemma all_handles_appended p h' s s' :
  heap s' = heap s ++ [Some h'] →
  all_handles p s → p h' → all_handles p s'.
Proof.
  intros Hheap Hall Hp.
  apply (all_handles_same_heap _ (set_heap (heap s ++ [Some h']) s));
    [done|by apply all_handles_make_shared].
Qed.

#[local] Instance same_heap_preorder : PreOrder same_heap.
Proof. split; unfold same_heap; [done|]. intros s1 s2 s3. congruence. Qed.

Lemma ReadTemporaryBuffer_heap id : preserves same_heap (ReadTemporaryBuffer id).
Proof.
  unfold ReadTemporaryBuffer.
  apply preserves_bind; [apply _|apply preserves_gets, _|intros dir].
  apply preserves_bind; [apply _|apply preserves_D_ASSERT, _|intros _].
  apply preserves_bind; [apply _|apply preserves_gets, _|intros created].
  apply preserves_bind; [apply _|apply preserves_D_ASSERT, _|intros _].
  apply preserves_bind; [apply _|apply preserves_gets, _|intros path].
  apply preserves_bind; [apply _|apply preserves_gets, _|intros fs].
  destruct (fs !! path) as [file|]; [|apply preserves_throw, _].
  destruct (FileHandle_Read file sizeof_idx_t 0) as [header|]; [|apply preserves_throw, _].
  destruct (FileHandle_Read file _ sizeof_idx_t); [apply preserves_ret, _|apply preserves_throw, _].
Qed.

Lemma DeleteTemporaryFile_heap id : preserves same_heap (DeleteTemporaryFile id).
Proof.
  unfold DeleteTemporaryFile.
  apply preserves_bind; [apply _|apply preserves_gets, _|intros dir].
  apply preserves_bind; [apply _|apply preserves_gets, _|intros created].
  destruct (bool_decide (dir = "") || negb created); [apply preserves_ret, _|].
  apply preserves_bind; [apply _|apply preserves_gets, _|intros path].
  by apply preserves_modify.
Qed.

Lemma UnregisterBlock_heap id cd : preserves same_heap (UnregisterBlock id cd).
Proof.
  unfold UnregisterBlock. destruct (MAXIMUM_BLOCK <=? id).
  - destruct (negb cd); [apply DeleteTemporaryFile_heap|apply preserves_ret, _].
  - by apply preserves_modify.
Qed.

(** ** Pinned handles are loaded *)

Lemma all_handles_except_live a p s h :
  all_handles_except a p s → lock a s = Some h → p h → all_handles p s.
Proof.
  intros Hall Hlock Hp a' h' Hlock'. destruct (decide (a' = a)) as [->|Hne].
  - congruence.
  - by apply (Hall a').
Qed.

Lemma all_handles_except_dead a p s :
  all_handles_except a p s → lock a s = None → all_handles p s.
Proof.
  intros Hall Hlock a' h' Hlock'. destruct (decide (a' = a)) as [->|Hne].
  - congruence.
  - by apply (Hall a').
Qed.

Lemma is_loaded_true st : is_loaded st = true ↔ st = BLOCK_LOADED.
Proof. destruct st; simpl; split; congruence. Qed.

(** [Load] leaves its handle loaded, whatever the outcome. *)
Lemma Load_pinned a s :
  all_handles_except a pinned_is_loaded s →
  all_handles pinned_is_loaded (Load a s).2.
Proof.
  intros Hall. unfold Load, bind at 1, deref.
  destruct (lock a s) as [h|] eqn:Hlock; simpl;
    [|by apply (all_handles_except_dead a)].
  destruct (is_loaded (state h)) eqn:Hst.
  - apply is_loaded_true in Hst.
    assert (all_handles pinned_is_loaded s)
      by (apply (all_handles_except_live a _ _ h); [done..|by intros _]).
    unfold bind, D_ASSERT. by destruct (DEBUG && _).
  - unfold bind at 1, store, modify. simpl.
    set (s1 := set_heap _ s).
    assert (Hs1 : all_handles_except a pinned_is_loaded s1)
      by (by apply all_handles_except_store).
    destruct (block_id h <? MAXIMUM_BLOCK).
    + destruct (BlockManager_Read (block_id h)); simpl.
      * by eapply (all_handles_insert a _ _ s1).
      * by eapply (all_handles_insert a _ _ s).
    + destruct (can_destroy h); simpl; [by eapply (all_handles_insert a _ _ s)|].
      unfold bind at 1.
      pose proof (ReadTemporaryBuffer_heap (block_id h) s1) as Hheap.
      destruct (ReadTemporaryBuffer (block_id h) s1) as [[b|e] s2]; simpl in *.
      * eapply (all_handles_insert a _ _ s2); [done| |done].
        by apply (all_handles_except_same_heap _ _ s1).
      * apply (all_handles_same_heap _ s1); [done|].
        by eapply (all_handles_insert a _ _ s).
Qed.

Lemma CanUnload_readers h s : CanUnload h s = true → readers h ≤ 0.
Proof.
  unfold CanUnload. destruct (negb _); [done|].
  destruct (0 <? readers h) eqn:Hr; [done|]. intros _. by apply Z.ltb_ge.
Qed.

Lemma evict_rel_pinned s s' :
  evict_rel s s' →
  all_handles pinned_is_loaded s → all_handles pinned_is_loaded s'.
Proof.
  intros (_ & _ & Hrel) Hall a h' Hlock'.
  specialize (Hrel a). rewrite Hlock' in Hrel.
  destruct (lock a s) as [h|] eqn:Hlock; [|done].
  destruct Hrel as [->|(Hcan & _ & Hr & _)]; [by apply (Hall a)|].
  apply CanUnload_readers in Hcan. unfold pinned_is_loaded. lia.
Qed.

Lemma EvictBlocks_pinned extra limit s :
  all_handles pinned_is_loaded s →
  all_handles pinned_is_loaded (EvictBlocks extra limit s).2.
Proof. apply evict_rel_pinned, EvictBlocks_rel. Qed.

Lemma RegisterBlock_pinned id s :
  all_handles pinned_is_loaded s →
  all_handles pinned_is_loaded (RegisterBlock id s).2.
Proof.
  intros Hall. unfold RegisterBlock, bind, gets, make_shared, modify. simpl.
  assert (Hnew : all_handles pinned_is_loaded
            (set_blocks (<[id := length (heap s)]> (blocks s))
               (set_heap (heap s ++ [Some (BlockHandle_new id)]) s))).
  { eapply (all_handles_appended _ _ s); [done..|].
    unfold pinned_is_loaded. simpl. lia. }
  destruct (blocks s !! id) as [a|]; simpl; [|done].
  destruct (lock a s); simpl; done.
Qed.

Lemma RegisterMemory_pinned alloc_size cd s :
  all_handles pinned_is_loaded s →
  all_handles pinned_is_loaded (RegisterMemory alloc_size cd s).2.
Proof.
  intros Hall. unfold RegisterMemory, bind at 1, gets. simpl. unfold bind at 1.
  pose proof (EvictBlocks_pinned (idx_t (alloc_size + BLOCK_HEADER_SIZE))
                (maximum_memory s) s Hall) as Hev.
  destruct (EvictBlocks _ _ s) as [[ok|e] s1]; simpl in *; [|done].
  destruct ok; simpl; [|done].
  unfold bind, modify, gets, BlockHandle_new_loaded, D_ASSERT, make_shared. simpl.
  destruct (DEBUG && _); simpl.
  - by apply (all_handles_same_heap _ s1).
  - eapply (all_handles_appended _ _ s1); [done..|].
    unfold pinned_is_loaded. simpl. lia.
Qed.

Lemma Pin_pinned a s :
  all_handles pinned_is_loaded s →
  all_handles pinned_is_loaded (Pin a s).2.
Proof.
  intros Hall. unfold Pin, bind at 1, deref.
  destruct (lock a s) as [h|] eqn:Hlock; simpl; [|done].
  destruct (is_loaded (state h)) eqn:Hst.
  - unfold bind at 1, store, modify. simpl.
    apply Load_pinned. apply all_handles_except_store.
    by apply all_handles_weaken.
  - unfold bind at 1, gets. simpl. unfold bind at 1.
    pose proof (EvictBlocks_pinned (memory_usage h) (maximum_memory s) s Hall) as Hev.
    destruct (EvictBlocks _ _ s) as [[ok|e] s1]; simpl in *; [|done].
    destruct ok; simpl; [|done].
    unfold bind at 1, deref.
    destruct (lock a s1) as [h1|] eqn:Hlock1; simpl; [|done].
    destruct (is_loaded (state h1)).
    + unfold bind at 1, store, modify. simpl.
      apply Load_pinned. apply all_handles_except_store.
      by apply all_handles_weaken.
    + unfold bind at 1, D_ASSERT.
      destruct (DEBUG && _); simpl; [done|].
      unfold bind at 1, store, modify. simpl.
      apply Load_pinned. apply all_handles_except_store.
      by apply all_handles_weaken.
Qed.

Lemma Allocate_pinned alloc_size s :
  all_handles pinned_is_loaded s →
  all_handles pinned_is_loaded (Allocate alloc_size s).2.
Proof.
  intros Hall. unfold Allocate, bind.
  pose proof (RegisterMemory_pinned alloc_size true s Hall) as Hreg.
  destruct (RegisterMemory alloc_size true s) as [[block|e] s1]; simpl in *; [|done].
  by apply Pin_pinned.
Qed.

Lemma int32_t_small z : - 2 ^ 31 ≤ z < 2 ^ 31 → int32_t z = z.
Proof. intros Hz. unfold int32_t. rewrite Z.mod_small; lia. Qed.

Lemma int32_t_range z : - 2 ^ 31 ≤ int32_t z < 2 ^ 31.
Proof.
  unfold int32_t. pose proof (Z.mod_pos_bound (z + 2 ^ 31) (2 ^ 32)). lia.
Qed.

(** A count that is positive after a decrement that did not wrap around
    was positive before. *)
Lemma int32_t_pred_positive r :
  - 2 ^ 31 < r → 0 < int32_t (r - 1) → 0 < r.
Proof.
  intros Hlow Hpos. destruct (decide (0 < r)) as [|Hle]; [done|].
  rewrite int32_t_small in Hpos by lia. lia.
Qed.

Lemma Unpin_pinned a s :
  Unpin_in_range s →
  all_handles pinned_is_loaded s →
  all_handles pinned_is_loaded (Unpin a s).2.
Proof.
  intros Hrange Hall. unfold Unpin, bind at 1, deref.
  destruct (lock a s) as [h|] eqn:Hlock; simpl; [|done].
  pose proof (Hall a h Hlock) as Hh.
  unfold bind at 1, D_ASSERT.
  destruct (DEBUG && _) eqn:Hassert; simpl; [done|].
  unfold bind at 1, store, modify. simpl.
  assert (Hloaded : 0 < int32_t (readers h - 1) → state h = BLOCK_LOADED).
  { intros Hr. apply Hh. destruct Hrange as [Hdebug|Hlow].
    - rewrite Hdebug in Hassert. simpl in Hassert.
      by apply negb_false_iff, Z.ltb_lt in Hassert.
    - apply int32_t_pred_positive; [|done]. by apply (Hlow a). }
  assert (Hs1 : all_handles pinned_is_loaded
            (set_heap (<[a := Some (with_readers (int32_t (readers h - 1)) h)]> (heap s)) s)).
  { apply all_handles_store; [by apply all_handles_weaken|]. done. }
  destruct (int32_t (readers h - 1) =? 0) eqn:Hzero; simpl; [|done].
  unfold bind, store, modify. simpl.
  eapply (all_handles_insert a _ _ s); [simpl; by rewrite list_insert_insert_eq| |].
  - by apply all_handles_weaken.
  - unfold pinned_is_loaded in *. simpl. apply Z.eqb_eq in Hzero. lia.
Qed.

Lemma SetLimit_pinned limit s :
  all_handles pinned_is_loaded s →
  all_handles pinned_is_loaded (SetLimit limit s).2.
Proof.
  intros Hall. unfold SetLimit, bind at 1.
  pose proof (EvictBlocks_pinned 0 limit s Hall) as Hev.
  destruct (EvictBlocks 0 limit s) as [[ok|e] s1]; simpl in *; [|done].
  destruct ok; simpl; [|done].
  unfold bind at 1, gets. simpl. unfold bind at 1, modify. simpl.
  unfold bind at 1.
  pose proof (EvictBlocks_pinned 0 limit (set_maximum_memory limit s1) Hev) as Hev2.
  destruct (EvictBlocks 0 limit _) as [[ok2|e] s2]; simpl in *; [|done].
  destruct ok2; simpl; done.
Qed.

Lemma ReAllocate_pinned a alloc_size s :
  all_handles pinned_is_loaded s →
  all_handles pinned_is_loaded (ReAllocate a alloc_size s).2.
Proof.
  intros Hall. unfold ReAllocate, bind at 1, D_ASSERT.
  destruct (DEBUG && _); simpl; [done|].
  unfold bind at 1, deref.
  destruct (lock a s) as [h|] eqn:Hlock; simpl; [|done].
  unfold bind at 1. destruct (DEBUG && _); simpl; [done|].
  set (required := int64_t _).
  unfold bind at 1.
  assert (Hfirst : ∀ (m : M unit),
            (∀ s0, all_handles pinned_is_loaded s0 → all_handles pinned_is_loaded (m s0).2) →
            all_handles pinned_is_loaded (m s).2) by auto.
  match goal with
  | |- context [match ?m s with _ => _ end] =>
      assert (Hm : all_handles pinned_is_loaded (m s).2)
  end.
  { destruct (0 <? required); [|done].
    unfold bind at 1, gets. simpl. unfold bind.
    pose proof (EvictBlocks_pinned required (maximum_memory s) s Hall) as Hev.
    destruct (EvictBlocks _ _ s) as [[ok|e] s1]; simpl in *; [|done].
    by destruct ok. }
  match goal with
  | |- context [match ?m s with _ => _ end] => destruct (m s) as [[[]|e] s1]
  end; simpl in *; [|done].
  unfold bind at 1, deref.
  destruct (lock a s1) as [h1|] eqn:Hlock1; simpl; [|done].
  pose proof (Hm a h1 Hlock1) as Hh1.
  destruct (buffer h1) as [b|]; simpl; [|done].
  unfold bind at 1, store, modify. simpl.
  set (s2 := set_heap _ s1).
  assert (Hs2 : all_handles pinned_is_loaded s2).
  { apply all_handles_store; [by apply all_handles_weaken|done]. }
  unfold bind at 1.
  match goal with
  | |- context [match ?m s2 with _ => _ end] =>
      assert (Hm3 : all_handles pinned_is_loaded (m s2).2 ∧ ∃ u, (m s2).1 = Ret u)
  end.
  { destruct (required <? 0); simpl; (split; [done|by eexists]). }
  match goal with
  | |- context [match ?m s2 with _ => _ end] => destruct (m s2) as [[[]|e] s3]
  end; simpl in *; [|by destruct Hm3].
  destruct Hm3 as [Hs3 _].
  unfold bind at 1, deref.
  destruct (lock a s3) as [h3|] eqn:Hlock3; simpl; [|done].
  apply all_handles_store; [by apply all_handles_weaken|].
  apply (Hs3 a h3 Hlock3).
Qed.

Lemma BlockHandle_destroy_pinned a s :
  all_handles pinned_is_loaded s →
  all_handles pinned_is_loaded (BlockHandle_destroy a s).2.
Proof.
  intros Hall. unfold BlockHandle_destroy, bind at 1, deref.
  destruct (lock a s) as [h|] eqn:Hlock; simpl; [|done].
  unfold bind at 1.
  pose proof (Hall a h Hlock) as Hh.
  match goal with
  | |- context [match ?m s with _ => _ end] =>
      assert (Hm : all_handles pinned_is_loaded (m s).2)
  end.
  { destruct (is_loaded (state h)); simpl; [|done].
    apply all_handles_store; [by apply all_handles_weaken|done]. }
  match goal with
  | |- context [match ?m s with _ => _ end] => destruct (m s) as [[[]|e] s1]
  end; simpl in *; [|done].
  unfold bind at 1.
  pose proof (UnregisterBlock_heap (block_id h) (can_destroy h) s1) as Hheap.
  destruct (UnregisterBlock _ _ s1) as [[[]|e] s2]; simpl in *.
  - eapply (all_handles_released a _ s2); [done|].
    apply all_handles_weaken. by apply (all_handles_same_heap _ s1).
  - by apply (all_handles_same_heap _ s1).
Qed.

Lemma discard_result_state {A} (m : M A) s : ((m ;;; ret tt) s).2 = (m s).2.
Proof. unfold bind. by destruct (m s) as [[x|e] s']. Qed.

Lemma perform_pinned o s :
  Unpin_in_range s →
  all_handles pinned_is_loaded s →
  all_handles pinned_is_loaded (perform o s).2.
Proof.
  intros Hrange Hall. destruct o; simpl; rewrite ?discard_result_state.
  - by apply RegisterBlock_pinned.
  - by apply RegisterMemory_pinned.
  - by apply Allocate_pinned.
  - by apply ReAllocate_pinned.
  - by apply Pin_pinned.
  - by apply Unpin_pinned.
  - by apply EvictBlocks_pinned.
  - by apply SetLimit_pinned.
  - unfold SetTemporaryDirectory, bind, gets. simpl.
    by destruct (temp_directory_handle s).
  - by apply BlockHandle_destroy_pinned.
Qed.


(** ** Operations that neither create nor destroy handles *)

#[local] Instance stable_preorder : PreOrder stable.
Proof.
  split.
  - intros s. by repeat split.
  - intros s1 s2 s3 (?&?&?&Hid1) (?&?&?&Hid2).
    split; [congruence|]. split; [congruence|]. split; [congruence|].
    intros a. by rewrite Hid2, Hid1.
Qed.

#[local] Instance stable_at_preorder a id : PreOrder (stable_at a id).
Proof.
  split.
  - intros s _. reflexivity.
  - intros s1 s2 s3 H1 H2 Hid. specialize (H1 Hid).
    etransitivity; [exact H1|]. apply H2.
    destruct H1 as (_ & _ & _ & H1). by rewrite H1.
Qed.

Lemma stable_weaken {A} a id (m : M A) :
  preserves stable m → preserves (stable_at a id) m.
Proof. intros Hm s _. apply Hm. Qed.

Lemma store_stable_at a id h' :
  block_id h' = id → preserves (stable_at a id) (store a h').
Proof.
  intros <- s Hid. simpl. repeat split; simpl.
  - apply length_insert.
  - intros a0. destruct (decide (a = a0)) as [<-|Hne].
    + destruct (lock a s) as [h0|] eqn:Hlock; [|done].
      rewrite lock_set_heap_eq by eauto using lock_lt. done.
    + by rewrite lock_set_heap_ne.
Qed.

Lemma deref_bind_stable {B} a (k : BlockHandle → M B) :
  (∀ h, preserves (stable_at a (block_id h)) (k h)) →
  preserves stable (bind (deref a) k).
Proof.
  intros Hk s. unfold bind, deref.
  destruct (lock a s) as [h|] eqn:Hlock; simpl; [|reflexivity].
  apply Hk. by rewrite Hlock.
Qed.

Lemma deref_bind_stable_at {B} a id (k : BlockHandle → M B) :
  (∀ h, block_id h = id → preserves (stable_at a id) (k h)) →
  preserves (stable_at a id) (bind (deref a) k).
Proof.
  intros Hk s Hid. unfold bind, deref.
  destruct (lock a s) as [h|] eqn:Hlock; simpl; [|reflexivity].
  injection Hid as Hid. by apply Hk; [|rewrite Hlock, <- Hid].
Qed.

Lemma stable_set_current_memory x s : stable s (set_current_memory x s).
Proof. by repeat split. Qed.
Lemma stable_set_maximum_memory x s : stable s (set_maximum_memory x s).
Proof. by repeat split. Qed.
Lemma stable_set_queue x s : stable s (set_queue x s).
Proof. by repeat split. Qed.
Lemma stable_set_temp_directory x s : stable s (set_temp_directory x s).
Proof. by repeat split. Qed.

Lemma same_heap_stable {A} (m : M A) :
  preserves same_heap m → preserves same_configuration m → preserves stable m.
Proof.
  intros Hh Hc s. specialize (Hh s). destruct (Hc s) as (_ & _ & Hb & Ht).
  repeat split; try done; [by rewrite Hh|].
  intros a. unfold lock. by rewrite Hh.
Qed.

Lemma ReadTemporaryBuffer_configuration id :
  preserves same_configuration (ReadTemporaryBuffer id).
Proof.
  unfold ReadTemporaryBuffer.
  apply preserves_bind; [apply _|apply preserves_gets, _|intros dir].
  apply preserves_bind; [apply _|apply preserves_D_ASSERT, _|intros _].
  apply preserves_bind; [apply _|apply preserves_gets, _|intros created].
  apply preserves_bind; [apply _|apply preserves_D_ASSERT, _|intros _].
  apply preserves_bind; [apply _|apply preserves_gets, _|intros path].
  apply preserves_bind; [apply _|apply preserves_gets, _|intros fs].
  destruct (fs !! path) as [file|]; [|apply preserves_throw, _].
  destruct (FileHandle_Read file sizeof_idx_t 0) as [header|]; [|apply preserves_throw, _].
  destruct (FileHandle_Read file _ sizeof_idx_t); [apply preserves_ret, _|apply preserves_throw, _].
Qed.

Lemma evict_rel_stable s s' : evict_rel s s' → stable s s'.
Proof.
  intros ((_ & _ & Hb & Ht) & Hlen & Hrel). repeat split; try done.
  intros a. specialize (Hrel a).
  destruct (lock a s) as [h|], (lock a s') as [h'|]; try done.
  destruct Hrel as [->|(_ & _ & _ & Hid & _)]; [done|]. simpl. by rewrite Hid.
Qed.

Lemma EvictBlocks_stable extra limit : preserves stable (EvictBlocks extra limit).
Proof. intros s. apply evict_rel_stable, EvictBlocks_rel. Qed.

(** Syntax-directed proofs that a call is [stable]. *)
Ltac stable_step :=
  first
    [ apply preserves_ret; apply _
    | apply preserves_throw; apply _
    | apply preserves_gets; apply _
    | apply preserves_D_ASSERT; apply _
    | apply store_stable_at; done
    | apply stable_weaken; apply EvictBlocks_stable
    | apply EvictBlocks_stable
    | apply preserves_modify; intros ?; intros;
        first [apply stable_set_current_memory | apply stable_set_maximum_memory
              | apply stable_set_queue | apply stable_set_temp_directory]
    | apply deref_bind_stable; intros ?
    | apply deref_bind_stable_at; intros ? <-
    | apply preserves_bind; [apply _| |intros ?]
    | match goal with
      | |- preserves _ (if ?b then _ else _) => destruct b
      | |- preserves _ (match ?x with _ => _ end) => destruct x
      end ].

Lemma Load_stable_at a id : preserves (stable_at a id) (Load a).
Proof.
  unfold Load. apply deref_bind_stable_at; intros h <-.
  destruct (is_loaded (state h)); [repeat stable_step|].
  apply preserves_bind; [apply _|by apply store_stable_at|intros _].
  destruct (block_id h <? MAXIMUM_BLOCK).
  - destruct (BlockManager_Read (block_id h)); [|stable_step].
    apply preserves_bind; [apply _|by apply store_stable_at|intros _]. stable_step.
  - destruct (can_destroy h); [stable_step|].
    apply preserves_bind; [apply _| |intros b].
    + apply stable_weaken, same_heap_stable;
        [apply ReadTemporaryBuffer_heap|apply ReadTemporaryBuffer_configuration].
    + apply preserves_bind; [apply _|by apply store_stable_at|intros _]. stable_step.
Qed.

Lemma Pin_stable a : preserves stable (Pin a).
Proof.
  unfold Pin. apply deref_bind_stable; intros h.
  destruct (is_loaded (state h)).
  - apply preserves_bind; [apply _|by apply store_stable_at|intros _].
    apply Load_stable_at.
  - apply preserves_bind; [apply _|apply preserves_gets, _|intros limit].
    apply preserves_bind; [apply _|apply stable_weaken, EvictBlocks_stable|intros ok].
    destruct (negb ok); [stable_step|].
    apply deref_bind_stable_at; intros h1 Hid.
    destruct (is_loaded (state h1)).
    + apply preserves_bind; [apply _| |intros _; apply Load_stable_at].
      by apply store_stable_at.
    + apply preserves_bind; [apply _|apply preserves_D_ASSERT, _|intros _].
      apply preserves_bind; [apply _| |intros _; apply Load_stable_at].
      by apply store_stable_at.
Qed.

Lemma Unpin_stable a : preserves stable (Unpin a).
Proof.
  unfold Unpin. apply deref_bind_stable; intros h.
  apply preserves_bind; [apply _|apply preserves_D_ASSERT, _|intros _].
  apply preserves_bind; [apply _|by apply store_stable_at|intros _].
  destruct (_ =? 0); [|stable_step].
  apply preserves_bind; [apply _|by apply store_stable_at|intros _].
  apply preserves_modify. intros s _. apply stable_set_queue.
Qed.

Lemma ReAllocate_stable a alloc_size : preserves stable (ReAllocate a alloc_size).
Proof.
  unfold ReAllocate.
  apply preserves_bind; [apply _|apply preserves_D_ASSERT, _|intros _].
  apply deref_bind_stable; intros h.
  apply preserves_bind; [apply _|apply preserves_D_ASSERT, _|intros _].
  apply preserves_bind; [apply _| |intros _].
  { destruct (0 <? _); [|stable_step].
    apply preserves_bind; [apply _|apply preserves_gets, _|intros limit].
    apply preserves_bind; [apply _|apply stable_weaken, EvictBlocks_stable|intros ok].
    destruct (negb ok); stable_step. }
  apply deref_bind_stable_at; intros h1 Hid.
  destruct (buffer h1) as [b|]; [|stable_step].
  apply preserves_bind; [apply _| |intros _].
  { by apply store_stable_at. }
  apply preserves_bind; [apply _| |intros _].
  { destruct (_ <? 0); [|stable_step].
    apply preserves_modify. intros s _. apply stable_set_current_memory. }
  apply deref_bind_stable_at; intros h2 Hid2.
  by apply store_stable_at.
Qed.

Lemma SetLimit_stable limit : preserves stable (SetLimit limit).
Proof.
  unfold SetLimit.
  apply preserves_bind; [apply _|apply EvictBlocks_stable|intros ok].
  destruct (negb ok); [stable_step|].
  apply preserves_bind; [apply _|apply preserves_gets, _|intros old].
  apply preserves_bind; [apply _| |intros _].
  { apply preserves_modify. intros s. apply stable_set_maximum_memory. }
  apply preserves_bind; [apply _|apply EvictBlocks_stable|intros ok2].
  destruct (negb ok2); [|stable_step].
  apply preserves_bind; [apply _| |intros _; stable_step].
  apply preserves_modify. intros s. apply stable_set_maximum_memory.
Qed.

Lemma SetTemporaryDirectory_stable d : preserves stable (SetTemporaryDirectory d).
Proof.
  unfold SetTemporaryDirectory.
  apply preserves_bind; [apply _|apply preserves_gets, _|intros created].
  destruct created; [stable_step|].
  apply preserves_modify. intros s. apply stable_set_temp_directory.
Qed.

(** ** The registry *)

Lemma stable_lock s s' a h' :
  stable s s' → lock a s' = Some h' →
  ∃ h, lock a s = Some h ∧ block_id h = block_id h'.
Proof.
  intros (_ & _ & _ & Hid) Hlock. specialize (Hid a). rewrite Hlock in Hid.
  destruct (lock a s) as [h|]; [|done]. injection Hid as Hid. eauto.
Qed.

Lemma stable_registered s s' : stable s s' → registered s → registered s'.
Proof.
  intros Hst Hreg a h' Hlock Hlt.
  destruct (stable_lock _ _ _ _ Hst Hlock) as (h & Hl & Hid).
  destruct Hst as (Hb & _). rewrite Hb, <- Hid. apply Hreg; [done|by rewrite Hid].
Qed.

Lemma stable_registry_inv n s s' : stable s s' → registry_inv n s → registry_inv n s'.
Proof.
  intros Hst [Hreg Hid]. split; [by apply (stable_registered s)|].
  destruct Hst as (_ & Ht & _). by rewrite Ht.
Qed.

Lemma stable_dead a s s' : stable s s' → dead a s → dead a s'.
Proof.
  intros (_ & _ & Hlen & Hid) [Hlt Hnone]. split; [by rewrite Hlen|].
  specialize (Hid a). rewrite Hnone in Hid. by destruct (lock a s').
Qed.

Lemma stable_registered_as id a s s' :
  stable s s' → registered_as id a s → is_Some (lock a s') → registered_as id a s'.
Proof. intros (Hb & _) [Hentry _] Hlive. split; [by rewrite Hb|done]. Qed.

Lemma registry_inv_mono n m s : n ≤ m → registry_inv n s → registry_inv m s.
Proof. intros Hle [Hreg Hid]. split; [done|lia]. Qed.

(** What [RegisterBlock] does. *)
Lemma RegisterBlock_cases id s :
  (∃ a, registered_as id a s ∧ RegisterBlock id s = (Ret a, s)) ∨
  ((∀ a, blocks s !! id = Some a → lock a s = None) ∧
   RegisterBlock id s
   = (Ret (length (heap s)),
      set_blocks (<[id := length (heap s)]> (blocks s))
        (set_heap (heap s ++ [Some (BlockHandle_new id)]) s))).
Proof.
  unfold RegisterBlock, bind, gets, make_shared, modify, registered_as. simpl.
  destruct (blocks s !! id) as [a|]; simpl; [|by right].
  destruct (lock a s) as [h|] eqn:Hlock; simpl.
  - left. exists a. by rewrite Hlock.
  - right. split; [|done]. by intros a' [= <-].
Qed.

(** What [RegisterMemory] does: an eviction, then a move of the id counter,
    then a new handle carrying the new id. *)
Lemma RegisterMemory_cases alloc_size cd s :
  ∃ s1, stable s s1 ∧
    let s2 := set_temporary_id (int64_t (temporary_id s1 + 1)) s1 in
    (RegisterMemory alloc_size cd s).2 = s1 ∨
    (RegisterMemory alloc_size cd s).2 = s2 ∨
    ∃ h, block_id h = temporary_id s2 ∧
         RegisterMemory alloc_size cd s
         = (Ret (length (heap s1)), set_heap (heap s1 ++ [Some h]) s2).
Proof.
  destruct (RegisterMemory alloc_size cd s) as [o s'] eqn:Hr. simpl.
  revert Hr. unfold RegisterMemory, bind at 1, gets. simpl. unfold bind at 1.
  pose proof (EvictBlocks_stable (idx_t (alloc_size + BLOCK_HEADER_SIZE))
                (maximum_memory s) s) as Hst.
  destruct (EvictBlocks _ _ s) as [[ok|e] s1]; simpl in *;
    intros Hr; exists s1; (split; [done|]); [|left; congruence].
  destruct ok; simpl in Hr; [|unfold throw in Hr; left; congruence].
  revert Hr.
  unfold bind, modify, gets, BlockHandle_new_loaded, D_ASSERT, make_shared. simpl.
  destruct (DEBUG && _); simpl; intros [= <- <-]; [by right; left|].
  right; right. eexists. split; [|reflexivity]. done.
Qed.

(** What the destructor does. *)
Lemma BlockHandle_destroy_cases a s :
  (lock a s = None ∧ (BlockHandle_destroy a s).2 = s) ∨
  ∃ h s2,
    lock a s = Some h ∧
    stable s (set_blocks (blocks s) s2) ∧
    (blocks s2 = blocks s ∨
     (block_id h < MAXIMUM_BLOCK ∧ blocks s2 = delete (block_id h) (blocks s))) ∧
    (BlockHandle_destroy a s).2 = set_heap (<[a := None]> (heap s2)) s2.
Proof.
  destruct (lock a s) as [h|] eqn:Hlock; [right|left].
  2: { split; [done|]. unfold BlockHandle_destroy, bind, deref. by rewrite Hlock. }
  exists h.
  destruct (BlockHandle_destroy a s) as [o s'] eqn:Hr. simpl.
  revert Hr. unfold BlockHandle_destroy, bind at 1, deref. rewrite Hlock.
  unfold bind at 1.
  match goal with
  | |- context [match ?m0 s with _ => _ end] => set (m := m0)
  end.
  assert (Hm : stable s (m s).2 ∧ ∃ u, (m s).1 = Ret u).
  { unfold m. destruct (is_loaded (state h)); simpl; [|split; [reflexivity|by eexists]].
    split; [|by eexists].
    etransitivity; [|apply stable_set_current_memory].
    apply (store_stable_at a (block_id h) (with_buffer None h) eq_refl s).
    by rewrite Hlock. }
  destruct (m s) as [[[]|e] s1]; simpl in *; [|by destruct Hm as [_ [? ?]]].
  destruct Hm as [Hst _].
  unfold bind, UnregisterBlock.
  destruct (MAXIMUM_BLOCK <=? block_id h) eqn:Hid.
  - assert (Hdel : ∃ s2, (if negb (can_destroy h)
                          then DeleteTemporaryFile (block_id h) else ret tt) s1
                         = (Ret tt, s2) ∧ heap s2 = heap s1 ∧ blocks s2 = blocks s1 ∧
                           temporary_id s2 = temporary_id s1).
    { destruct (can_destroy h); simpl; [by eexists|].
      unfold DeleteTemporaryFile, bind, gets, modify. simpl.
      destruct (bool_decide _ || negb _); simpl; by eexists. }
    destruct Hdel as (s2 & -> & Hheap & Hblocks & Htemp). simpl.
    intros [= <- <-].
    exists s2. split; [done|]. split; [|split; [left|done]].
    + destruct Hst as (Hb & Ht & Hl & Hi).
      split; [done|]. split; [simpl; congruence|]. split; [simpl; congruence|].
      intros a0. rewrite <- Hi. unfold lock. simpl. by rewrite Hheap.
    + destruct Hst as (Hb & _). congruence.
  - simpl. apply Z.leb_gt in Hid. intros [= <- <-].
    exists (set_blocks (delete (block_id h) (blocks s1)) s1).
    split; [done|]. split; [|split; [right|done]].
    + destruct Hst as (Hb & Ht & Hl & Hi). by repeat split.
    + destruct Hst as (Hb & _). simpl. by rewrite Hb.
Qed.

Lemma int64_t_small z : - 2 ^ 63 ≤ z < 2 ^ 63 → int64_t z = z.
Proof. intros Hz. unfold int64_t. rewrite Z.mod_small; lia. Qed.

Lemma Allocate_state alloc_size s :
  (Allocate alloc_size s).2
  = match RegisterMemory alloc_size true s with
    | (Ret block, s1) => (Pin block s1).2
    | (Throw _, s1) => s1
    end.
Proof. unfold Allocate, bind. by destruct (RegisterMemory _ _ s) as [[?|?] ?]. Qed.

(** The operations other than registration and destruction. *)
Lemma perform_stable o s :
  match o with
  | OpRegisterBlock _ | OpRegisterMemory _ _ | OpAllocate _ | OpDestroy _ => True
  | _ => stable s (perform o s).2
  end.
Proof.
  destruct o; simpl; rewrite ?discard_result_state; try done.
  - apply ReAllocate_stable.
  - apply Pin_stable.
  - apply Unpin_stable.
  - apply EvictBlocks_stable.
  - apply SetLimit_stable.
  - apply SetTemporaryDirectory_stable.
Qed.

Lemma RegisterMemory_registry_inv n alloc_size cd s :
  - 2 ^ 63 ≤ MAXIMUM_BLOCK → MAXIMUM_BLOCK + n + 1 < 2 ^ 63 → 0 ≤ n →
  registry_inv n s →
  registry_inv (n + 1) (RegisterMemory alloc_size cd s).2.
Proof.
  intros Hlo Hhi Hn Hinv.
  destruct (RegisterMemory_cases alloc_size cd s) as (s1 & Hst & Hcases).
  pose proof (stable_registry_inv _ _ _ Hst Hinv) as [Hreg Hid].
  assert (Hnext : int64_t (temporary_id s1 + 1) = temporary_id s1 + 1)
    by (apply int64_t_small; lia).
  destruct Hcases as [->|[->|(h & Hh & ->)]].
  - split; [done|lia].
  - split; [done|]. simpl. lia.
  - simpl in *. split; [|simpl; lia].
    intros a h0 Hlock Hlt.
    apply (lock_appended _ _ h s1) in Hlock as [Hlock|[_ ->]]; [| |done].
    + by apply Hreg.
    + lia.
Qed.

Lemma perform_registry_inv n o s :
  - 2 ^ 63 ≤ MAXIMUM_BLOCK → MAXIMUM_BLOCK + n + 1 < 2 ^ 63 → 0 ≤ n →
  registry_inv n s →
  registry_inv (n + 1) (perform o s).2.
Proof.
  intros Hlo Hhi Hn Hinv.
  pose proof (perform_stable o s) as Hstable.
  destruct o; simpl in *; rewrite ?discard_result_state in *;
    try (apply (registry_inv_mono n); [lia|];
         by apply (stable_registry_inv _ s)).
  - (* RegisterBlock *)
    apply (registry_inv_mono n); [lia|].
    destruct (RegisterBlock_cases id s) as [(a & _ & ->)|[Hdead ->]]; [done|].
    destruct Hinv as [Hreg Hid]. split; [|done].
    intros a h Hlock Hlt. simpl.
    apply (lock_appended _ _ (BlockHandle_new id) s)
      in Hlock as [Hlock|[-> ->]]; [| |done].
    + rewrite lookup_insert_ne; [by apply Hreg|].
      intros Heq. specialize (Hreg a h Hlock Hlt). rewrite <- Heq in Hreg.
      apply Hdead in Hreg. congruence.
    + simpl. by rewrite lookup_insert_eq.
  - (* RegisterMemory *)
    by apply RegisterMemory_registry_inv.
  - (* Allocate *)
    rewrite Allocate_state.
    pose proof (RegisterMemory_registry_inv n alloc_size true s Hlo Hhi Hn Hinv) as Hrm.
    destruct (RegisterMemory alloc_size true s) as [[block|e] s1]; simpl in *; [|done].
    by apply (stable_registry_inv _ s1); [apply Pin_stable|].
  - (* the destructor *)
    apply (registry_inv_mono n); [lia|].
    destruct (BlockHandle_destroy_cases a s)
      as [[_ ->]|(h & s2 & Hlock & Hst & Hblocks & ->)]; [done|].
    destruct Hinv as [Hreg Hid]. split.
    + intros a0 h0 Hlock0 Hlt0. simpl.
      assert (Hne : a0 ≠ a).
      { intros ->. destruct (decide (a < length (heap s2))%nat).
        - by rewrite lock_set_heap_eq in Hlock0.
        - rewrite lock_beyond in Hlock0; [done|]. simpl. rewrite length_insert. lia. }
      rewrite lock_set_heap_ne in Hlock0 by done.
      destruct (stable_lock _ _ a0 h0 Hst Hlock0) as (h0' & Hl0 & Hid0).
      pose proof (Hreg a0 h0' Hl0 ltac:(lia)) as Hentry. rewrite Hid0 in Hentry.
      destruct Hblocks as [->|[Hpers ->]]; [done|].
      rewrite lookup_delete_ne; [done|].
      intros Heq. pose proof (Hreg a h Hlock Hpers) as Hentry'.
      rewrite Heq in Hentry'. congruence.
    + destruct Hst as (_ & Ht & _). simpl in *. by rewrite Ht.
Qed.

Lemma perform_registered_as o s id a :
  registered s → registered_as id a s →
  is_Some (lock a (perform o s).2) →
  registered_as id a (perform o s).2.
Proof.
  intros Hreg Has Hlive.
  pose proof (perform_stable o s) as Hstable.
  destruct o; simpl in *; rewrite ?discard_result_state in *;
    try (by apply (stable_registered_as _ _ s)).
  - (* RegisterBlock *)
    destruct (RegisterBlock_cases id0 s) as [(a0 & _ & ->)|[Hdead Heq]]; [done|].
    rewrite Heq in *. simpl in *. destruct Has as [Hentry [h Hh]].
    split; [simpl|done]. rewrite lookup_insert_ne; [done|].
    intros ->. apply Hdead in Hentry. congruence.
  - (* RegisterMemory *)
    destruct (RegisterMemory_cases alloc_size can_destroy_p s) as (s1 & Hst & Hcases).
    destruct Has as [Hentry _]. destruct Hst as (Hb & _).
    split; [|done].
    destruct Hcases as [->|[->|(h & _ & ->)]]; simpl; by rewrite Hb.
  - (* Allocate *)
    rewrite Allocate_state in *.
    destruct (RegisterMemory_cases alloc_size true s) as (s1 & Hst & Hcases).
    destruct Has as [Hentry _]. destruct Hst as (Hb & _).
    split; [|done].
    destruct (RegisterMemory alloc_size true s) as [[block|e] s'] eqn:Hrm; simpl in *.
    + destruct (Pin_stable block s') as (Hb' & _). rewrite Hb'.
      destruct Hcases as [->|[->|(h & _ & [= _ ->])]]; simpl; by rewrite Hb.
    + destruct Hcases as [->|[->|(h & _ & [=])]]; simpl; by rewrite Hb.
  - (* the destructor *)
    destruct (BlockHandle_destroy_cases a0 s)
      as [[_ Heq]|(h & s2 & Hlock & Hst & Hblocks & Heq)];
      rewrite Heq in *; [done|].
    split; [|done]. destruct Has as [Hentry _]. simpl.
    destruct Hblocks as [->|[Hpers ->]]; [done|].
    rewrite lookup_delete_ne; [done|].
    intros Hid. pose proof (Hreg a0 h Hlock Hpers) as Hentry'.
    rewrite Hid, Hentry in Hentry'. injection Hentry' as ->.
    destruct Hlive as [h' Hh']. destruct (decide (a0 < length (heap s2))%nat).
    + by rewrite lock_set_heap_eq in Hh'.
    + rewrite lock_beyond in Hh'; [done|]. simpl. rewrite length_insert. lia.
Qed.

Lemma dead_append a h s : dead a s → dead a (set_heap (heap s ++ [Some h]) s).
Proof.
  intros [Hlt Hnone]. split; [simpl; rewrite length_app; lia|].
  by rewrite lock_make_shared_old.
Qed.

Lemma perform_dead o s a : dead a s → dead a (perform o s).2.
Proof.
  intros Hdead.
  pose proof (perform_stable o s) as Hstable.
  destruct o; simpl in *; rewrite ?discard_result_state in *;
    try (by apply (stable_dead _ s)).
  - destruct (RegisterBlock_cases id s) as [(a0 & _ & ->)|[_ ->]]; [done|].
    by apply (dead_append a (BlockHandle_new id)) in Hdead.
  - destruct (RegisterMemory_cases alloc_size can_destroy_p s) as (s1 & Hst & Hcases).
    apply (stable_dead _ _ _ Hst) in Hdead.
    destruct Hcases as [->|[->|(h & _ & ->)]]; simpl; [done|done|].
    by apply (dead_append a h) in Hdead.
  - rewrite Allocate_state.
    destruct (RegisterMemory_cases alloc_size true s) as (s1 & Hst & Hcases).
    apply (stable_dead _ _ _ Hst) in Hdead.
    destruct (RegisterMemory alloc_size true s) as [[block|e] s'] eqn:Hrm; simpl in *.
    + apply (stable_dead _ s'); [apply Pin_stable|].
      destruct Hcases as [->|[->|(h & _ & [= _ ->])]]; [done|done|].
      by apply (dead_append a h) in Hdead.
    + destruct Hcases as [->|[->|(h & _ & [=])]]; done.
  - destruct (BlockHandle_destroy_cases a0 s)
      as [[_ ->]|(h & s2 & Hlock & Hst & _ & ->)]; [done|].
    apply (stable_dead _ _ _ Hst) in Hdead. destruct Hdead as [Hlt Hnone].
    simpl in *. split; [simpl; by rewrite length_insert|].
    destruct (decide (a0 = a)) as [->|Hne].
    + by rewrite lock_set_heap_eq.
    + by rewrite lock_set_heap_ne.
Qed.

Lemma perform_length o s : (length (heap s) ≤ length (heap (perform o s).2))%nat.
Proof.
  pose proof (perform_stable o s) as Hstable.
  destruct o; simpl in *; rewrite ?discard_result_state in *;
    try (destruct Hstable as (_ & _ & -> & _); lia).
  - destruct (RegisterBlock_cases id s) as [(a0 & _ & ->)|[_ ->]]; [done|].
    simpl. rewrite length_app. lia.
  - destruct (RegisterMemory_cases alloc_size can_destroy_p s)
      as (s1 & (_ & _ & Hlen & _) & Hcases).
    destruct Hcases as [->|[->|(h & _ & ->)]]; simpl; rewrite ?length_app; lia.
  - rewrite Allocate_state.
    destruct (RegisterMemory_cases alloc_size true s)
      as (s1 & (_ & _ & Hlen & _) & Hcases).
    destruct (RegisterMemory alloc_size true s) as [[block|e] s'] eqn:Hrm; simpl in *.
    + destruct (Pin_stable block s') as (_ & _ & -> & _).
      destruct Hcases as [->|[->|(h & _ & [= _ ->])]]; simpl; rewrite ?length_app; lia.
    + destruct Hcases as [->|[->|(h & _ & [=])]]; simpl; lia.
  - destruct (BlockHandle_destroy_cases a s)
      as [[_ ->]|(h & s2 & _ & (_ & _ & Hlen & _) & _ & ->)]; [done|].
    simpl in *. rewrite length_insert. lia.
Qed.

Lemma run_registry_inv ops n s :
  - 2 ^ 63 ≤ MAXIMUM_BLOCK → 0 ≤ n →
  MAXIMUM_BLOCK + n + Z.of_nat (length ops) < 2 ^ 63 →
  registry_inv n s →
  registry_inv (n + Z.of_nat (length ops)) (run ops s).
Proof.
  intros Hlo. revert n s. induction ops as [|o ops IH]; intros n s Hn Hhi Hinv.
  - simpl. by rewrite Z.add_0_r.
  - simpl run. simpl length in *.
    replace (n + Z.of_nat (S (length ops))) with (n + 1 + Z.of_nat (length ops)) by lia.
    apply IH; [lia|lia|]. apply perform_registry_inv; [done|lia|done|done].
Qed.

Lemma run_dead ops s a : dead a s → dead a (run ops s).
Proof.
  revert s. induction ops as [|o ops IH]; intros s Hdead; simpl; [done|].
  by apply IH, perform_dead.
Qed.

Lemma run_registered_as ops n s id a :
  - 2 ^ 63 ≤ MAXIMUM_BLOCK → 0 ≤ n →
  MAXIMUM_BLOCK + n + Z.of_nat (length ops) < 2 ^ 63 →
  registry_inv n s →
  registered_as id a s →
  is_Some (lock a (run ops s)) →
  registered_as id a (run ops s).
Proof.
  intros Hlo. revert n s. induction ops as [|o ops IH]; intros n s Hn Hhi Hinv Has Hlive.
  - done.
  - simpl run in *. simpl length in *.
    assert (Halive : is_Some (lock a (perform o s).2)).
    { destruct (lock a (perform o s).2) as [h|] eqn:Hlock; [by eexists|].
      assert (Hdead : dead a (perform o s).2).
      { split; [|done]. destruct Has as [_ [h Hh]]. apply lock_lt in Hh.
        pose proof (perform_length o s). lia. }
      apply (run_dead ops) in Hdead as [_ Hnone]. rewrite Hnone in Hlive.
      by destruct Hlive. }
    apply (IH (n + 1)); [lia|lia| | |done].
    + apply perform_registry_inv; [done|lia|done|done].
    + apply perform_registered_as; [apply Hinv|done|done].
Qed.

Lemma registry_inv_new tmp maximum fs : registry_inv 0 (BufferManager_new tmp maximum fs).
Proof.
  split; [|simpl; lia].
  intros a h Hlock. by rewrite lock_beyond in Hlock by (simpl; lia).
Qed.

Lemma RegisterBlock_registers id s :
  ∃ a s', RegisterBlock id s = (Ret a, s') ∧ registered_as id a s'.
Proof.
  destruct (RegisterBlock_cases id s) as [(a & Has & Heq)|[_ Heq]].
  - by exists a, s.
  - eexists _, _. split; [exact Heq|]. split; simpl.
    + by rewrite lookup_insert_eq.
    + exists (BlockHandle_new id).
      apply (lock_make_shared_new (BlockHandle_new id) s).
Qed.

(** C7: from its construction and after any calls, the manager answers
    [RegisterBlock id] with a handle [a]; after any further calls, as long
    as [a] has not been destroyed, [RegisterBlock id] returns [a] again and
    changes nothing, the registry holding [a] as its one entry for [id];
    and no two live handles carry the same persistent id. The anonymous id
    counter is a signed 64-bit integer: the calls are fewer than what makes
    it wrap. *)
Theorem RegisterBlock_idempotent (tmp : string) (maximum : Z)
    (fs : gmap string (list byte)) (before between : list operation) (id : Z) :
  - 2 ^ 63 ≤ MAXIMUM_BLOCK →
  MAXIMUM_BLOCK + Z.of_nat (length before) + 1 + Z.of_nat (length between) < 2 ^ 63 →
  ∃ a s1,
    RegisterBlock id (run before (BufferManager_new tmp maximum fs)) = (Ret a, s1) ∧
    is_Some (lock a s1) ∧
    (is_Some (lock a (run between s1)) →
     RegisterBlock id (run between s1) = (Ret a, run between s1) ∧
     ∀ a', blocks (run between s1) !! id = Some a' → a' = a) ∧
    (∀ a1 h1 a2 h2,
       lock a1 (run between s1) = Some h1 →
       lock a2 (run between s1) = Some h2 →
       block_id h1 = block_id h2 → block_id h1 < MAXIMUM_BLOCK → a1 = a2).
Proof.
  intros Hlo Hhi.
  pose proof (Zle_0_nat (length before)) as Hbefore.
  pose proof (Zle_0_nat (length between)) as Hbetween.
  assert (Hinv0 : registry_inv (Z.of_nat (length before))
                    (run before (BufferManager_new tmp maximum fs))).
  { apply (run_registry_inv before 0); [done|done|lia|apply registry_inv_new]. }
  generalize dependent (run before (BufferManager_new tmp maximum fs)).
  intros s0 Hinv0.
  destruct (RegisterBlock_registers id s0) as (a & s1 & Hfirst & Has).
  assert (Hs1 : s1 = (perform (OpRegisterBlock id) s0).2).
  { simpl. by rewrite discard_result_state, Hfirst. }
  assert (Hinv1 : registry_inv (Z.of_nat (length before) + 1) s1).
  { rewrite Hs1. apply perform_registry_inv; [done|lia|lia|done]. }
  exists a, s1. split; [done|]. split; [apply Has|]. split.
  - intros Hlive.
    assert (Has' : registered_as id a (run between s1)).
    { apply (run_registered_as between (Z.of_nat (length before) + 1));
        [done|lia|lia|done..]. }
    destruct (RegisterBlock_cases id (run between s1))
      as [(a' & [Hentry' _] & Heq)|[Hdead _]].
    + destruct Has' as [Hentry _]. rewrite Hentry in Hentry'.
      injection Hentry' as <-. split; [done|]. intros a'. congruence.
    + destruct Has' as [Hentry [h Hh]]. apply Hdead in Hentry. congruence.
  - intros a1 h1 a2 h2 Hl1 Hl2 Hid Hpers.
    assert (Hreg : registered (run between s1)).
    { apply (run_registry_inv between (Z.of_nat (length before) + 1));
        [done|lia|lia|done]. }
    pose proof (Hreg a1 h1 Hl1 Hpers) as H1.
    pose proof (Hreg a2 h2 Hl2 ltac:(lia)) as H2.
    rewrite Hid in H1. congruence.
Qed.

(** ** The memory budget *)

Lemma total_charge_nonneg l :
  (∀ a h, l !! a = Some (Some h) → 0 ≤ memory_usage h) → 0 ≤ total_charge l.
Proof.
  induction l as [|o l IH]; intros Hall; simpl; [done|].
  assert (0 ≤ charge o).
  { destruct o as [h|]; simpl; [|done].
    destruct (is_loaded (state h)); [|done]. by apply (Hall 0%nat). }
  assert (0 ≤ total_charge l) by (apply IH; intros a h; apply (Hall (S a))).
  unfold total_charge in *. lia.
Qed.

Lemma loaded_memory_nonneg s : all_handles sound_handle s → 0 ≤ loaded_memory s.
Proof.
  intros Hall. apply total_charge_nonneg. intros a h Hl.
  by apply (Hall a h), lock_Some.
Qed.

Lemma charge_le_loaded_memory a h s :
  all_handles sound_handle s → lock a s = Some h →
  charge (Some h) ≤ loaded_memory s.
Proof.
  intros Hall Hlock.
  pose proof (loaded_memory_insert s (set_heap (<[a := None]> (heap s)) s)
                a h (BlockHandle_new 0) Hlock) as _.
  assert (Hrest : 0 ≤ total_charge (<[a := None]> (heap s))).
  { apply total_charge_nonneg. intros a' h' Hl.
    destruct (decide (a = a')) as [<-|Hne].
    - rewrite list_lookup_insert_eq in Hl by eauto using lock_lt. done.
    - rewrite list_lookup_insert_ne in Hl by done.
      by apply (Hall a' h'), lock_Some. }
  rewrite (total_charge_insert _ _ (Some h)) in Hrest by (by apply lock_Some).
  unfold loaded_memory. simpl in *. lia.
Qed.

Lemma accounted_intro extra s :
  0 ≤ extra → loaded_memory s + extra ≤ current_memory s →
  current_memory s < 2 ^ 64 → all_handles sound_handle s →
  accounted extra s.
Proof. by intros; split; [|split; [|split]]. Qed.

Lemma accounted_weaken extra s : accounted extra s → accounted 0 s.
Proof. intros (? & ? & ? & ?). apply accounted_intro; [lia|lia|done|done]. Qed.

Lemma sound_unloaded h : sound_handle h → sound_handle (unloaded h).
Proof. intros [Hu _]. split; [done|]. simpl. by intros [? ?]. Qed.

(** A node whose processing returns keeps the accounts. *)
Lemma evict_node_accounted extra node s s' :
  accounted extra s →
  evict_node node s = (Ret tt, s') →
  accounted extra s' ∧ current_memory s' ≤ current_memory s.
Proof.
  intros (Hextra & Hsum & Hrange & Hall).
  destruct (evict_node_cases node s) as [->|(h & Hlock & Hcan & ->)].
  - intros [= <-]. split; [by apply accounted_intro|lia].
  - apply Node_CanUnload_true in Hcan as [_ Hcan].
    pose proof (CanUnload_loaded _ _ Hcan) as Hst.
    destruct (Unload_loaded _ _ _ Hlock Hst) as (r & s1 & -> & _ & _ & Hr).
    intros [= -> <-]. destruct Hr as [Hheap Hcur].
    pose proof (charge_le_loaded_memory _ _ _ Hall Hlock) as Hle.
    pose proof (loaded_memory_insert _ _ _ _ _ Hlock Hheap) as Hl.
    pose proof (proj1 (Hall _ _ Hlock)) as Hnonneg.
    simpl in Hle, Hl. rewrite Hst in Hle, Hl. simpl in Hle, Hl.
    rewrite idx_t_small in Hcur by lia.
    split; [|lia]. apply accounted_intro; [done|lia|lia|].
    eapply (all_handles_insert (handle node) _ _ s);
      [done|by apply all_handles_weaken|].
    apply sound_unloaded, (Hall _ _ Hlock).
Qed.

(** The loop of [EvictBlocks], when it returns: with [true] the reservation
    is kept and the counter is within the limit; with [false] the
    reservation has been given back. *)
Lemma evict_loop_accounted extra limit q s ok s' :
  accounted extra s →
  evict_loop extra limit q s = (Ret ok, s') →
  current_memory s' ≤ current_memory s ∧
  if ok then accounted extra s' ∧ current_memory s' ≤ limit
  else accounted 0 s' ∧ current_memory s' ≤ current_memory s - extra.
Proof.
  revert s. induction q as [|node q IH]; intros s Hacc; simpl;
    unfold bind, gets; simpl.
  - destruct (limit <? current_memory s) eqn:Hlt.
    + intros [= <- <-]. destruct Hacc as (Hextra & Hsum & Hrange & Hall).
      pose proof (loaded_memory_nonneg _ Hall) as Hnn.
      simpl. rewrite idx_t_small by lia.
      split; [lia|]. split; [|lia].
      apply accounted_intro; simpl; [lia| |lia|done].
      change (loaded_memory (set_current_memory _ s)) with (loaded_memory s). lia.
    + intros [= <- <-]. apply Z.ltb_ge in Hlt. split; [lia|done].
  - destruct (limit <? current_memory s) eqn:Hlt.
    + pose proof (evict_node_accounted extra node (set_queue q s)) as Hnode.
      destruct (evict_node node (set_queue q s)) as [[[]|e] s1]; [|done].
      destruct (Hnode s1 Hacc eq_refl) as [Hacc1 Hle1]. simpl in Hle1.
      intros Hloop. destruct (IH _ Hacc1 Hloop) as [Hle Hres].
      split; [lia|]. destruct ok; [done|]. split; [apply Hres|lia].
    + intros [= <- <-]. apply Z.ltb_ge in Hlt. split; [lia|done].
Qed.

Lemma EvictBlocks_accounted extra limit s ok s' :
  accounted 0 s → 0 ≤ extra → current_memory s + extra < 2 ^ 64 →
  EvictBlocks extra limit s = (Ret ok, s') →
  evict_rel s s' ∧
  if ok then accounted extra s' ∧ current_memory s' ≤ limit
  else accounted 0 s' ∧ current_memory s' ≤ current_memory s.
Proof.
  intros (_ & Hsum & Hrange & Hall) Hextra Hfit Hev.
  split.
  { pose proof (EvictBlocks_rel extra limit s) as Hrel. by rewrite Hev in Hrel. }
  revert Hev. unfold EvictBlocks, bind, gets, modify. simpl. intros Hloop.
  pose proof (loaded_memory_nonneg _ Hall) as Hnn.
  apply evict_loop_accounted in Hloop.
  - simpl in Hloop. rewrite idx_t_small in Hloop by lia.
    destruct Hloop as [Hle Hres]. destruct ok; [done|].
    split; [apply Hres|lia].
  - apply accounted_intro; simpl; rewrite ?idx_t_small by lia; [done| |lia|done].
    change (loaded_memory (set_current_memory _ s)) with (loaded_memory s). lia.
Qed.

Lemma loaded_memory_appended s s' h :
  heap s' = heap s ++ [Some h] →
  loaded_memory s' = loaded_memory s + charge (Some h).
Proof.
  intros Hheap. unfold loaded_memory. rewrite Hheap, total_charge_app.
  simpl. lia.
Qed.

Lemma accounted_insert extra s s' a h h' :
  all_handles sound_handle s →
  lock a s = Some h →
  heap s' = <[a := Some h']> (heap s) →
  sound_handle h' →
  0 ≤ extra →
  loaded_memory s - charge (Some h) + charge (Some h') + extra ≤ current_memory s' →
  current_memory s' < 2 ^ 64 →
  accounted extra s'.
Proof.
  intros Hall Hlock Hheap Hsound Hextra Hsum Hrange.
  apply accounted_intro; [done| |done|].
  - by rewrite (loaded_memory_insert _ _ _ _ _ Hlock Hheap).
  - eapply (all_handles_insert a _ _ s); [done|by apply all_handles_weaken|done].
Qed.

Lemma accounted_appended extra s s' h :
  all_handles sound_handle s →
  heap s' = heap s ++ [Some h] →
  sound_handle h →
  0 ≤ extra →
  loaded_memory s + charge (Some h) + extra ≤ current_memory s' →
  current_memory s' < 2 ^ 64 →
  accounted extra s'.
Proof.
  intros Hall Hheap Hsound Hextra Hsum Hrange.
  apply accounted_intro; [done| |done|].
  - by rewrite (loaded_memory_appended _ _ _ Hheap).
  - by eapply (all_handles_appended _ _ s).
Qed.

Lemma RegisterBlock_budget id s a s' :
  0 ≤ BLOCK_ALLOC_SIZE →
  budget_inv s →
  RegisterBlock id s = (Ret a, s') →
  budget_inv s'.
Proof.
  intros Hconst [Hacc Hle].
  destruct (RegisterBlock_cases id s) as [(a0 & _ & ->)|[_ ->]];
    intros [= <- <-]; [done|].
  destruct Hacc as (_ & Hsum & Hrange & Hall).
  split; [|done].
  eapply (accounted_appended 0 s _ (BlockHandle_new id)); simpl; try done.
  - split; simpl; [done|]. by intros [? ?].
  - lia.
Qed.

(** [RegisterMemory], when it returns: the new handle is loaded and takes
    over the reservation. *)
Lemma RegisterMemory_budget alloc_size cd s a s' :
  budget_inv s →
  0 ≤ alloc_size + BLOCK_HEADER_SIZE →
  current_memory s + (alloc_size + BLOCK_HEADER_SIZE) < 2 ^ 64 →
  RegisterMemory alloc_size cd s = (Ret a, s') →
  budget_inv s' ∧ ∃ h, lock a s' = Some h ∧ state h = BLOCK_LOADED.
Proof.
  intros [Hacc Hle] Hsize Hfit.
  pose proof (loaded_memory_nonneg s (proj2 (proj2 (proj2 Hacc)))) as Hnn.
  assert (Hcur : 0 ≤ current_memory s) by (destruct Hacc as (_ & ? & _); lia).
  assert (Hidx : idx_t (alloc_size + BLOCK_HEADER_SIZE) = alloc_size + BLOCK_HEADER_SIZE)
    by (apply idx_t_small; lia).
  unfold RegisterMemory, bind at 1, gets. simpl. unfold bind at 1.
  rewrite Hidx.
  destruct (EvictBlocks _ _ s) as [[ok|e] s1] eqn:Hev; simpl; [|done].
  apply EvictBlocks_accounted in Hev as [Hrel Hres]; [|done..].
  destruct ok; simpl; [|done].
  destruct Hres as [(_ & Hsum1 & Hrange1 & Hall1) Hle1].
  destruct Hrel as ((Hmax & _) & _).
  unfold bind, modify, gets, BlockHandle_new_loaded, D_ASSERT, make_shared. simpl.
  destruct (DEBUG && _); simpl; [done|].
  intros [= <- <-]. split; [split|].
  - eapply (accounted_appended 0 s1); simpl; [done|reflexivity| |lia| |done].
    + split; simpl; [rewrite Hidx; lia|done].
    + simpl. rewrite Hidx. lia.
  - simpl. lia.
  - eexists. split.
    + apply (lock_make_shared_new _ (set_temporary_id _ s1)).
    + done.
Qed.

(** [ReadTemporaryBuffer] only reads. *)
Lemma ReadTemporaryBuffer_state id s : (ReadTemporaryBuffer id s).2 = s.
Proof.
  unfold ReadTemporaryBuffer, bind, gets, D_ASSERT. simpl.
  destruct (DEBUG && _); simpl; [done|].
  destruct (DEBUG && _); simpl; [done|].
  destruct (files s !! _) as [file|]; simpl; [|done].
  destruct (FileHandle_Read file sizeof_idx_t 0) as [header|]; simpl; [|done].
  destruct (FileHandle_Read file _ sizeof_idx_t); done.
Qed.

(** [Load], when it returns: a loaded handle is left alone, an unloaded one
    becomes loaded, with or without a buffer. *)
Lemma Load_returns a s h t s' :
  lock a s = Some h →
  Load a s = (Ret t, s') →
  current_memory s' = current_memory s ∧
  maximum_memory s' = maximum_memory s ∧
  ((state h = BLOCK_LOADED ∧ heap s' = heap s) ∨
   (state h = BLOCK_UNLOADED ∧
    ∃ b, heap s' = <[a := Some (with_buffer b (with_state BLOCK_LOADED h))]> (heap s))).
Proof.
  intros Hlock. unfold Load, bind at 1, deref. rewrite Hlock.
  destruct (state h) eqn:Hst; simpl.
  - unfold bind at 1, store, modify. simpl.
    destruct (block_id h <? MAXIMUM_BLOCK).
    + destruct (BlockManager_Read (block_id h)); simpl; [|done].
      intros [= <- <-]. simpl. split; [done|]. split; [done|]. right.
      split; [done|]. eexists. by rewrite list_insert_insert_eq.
    + destruct (can_destroy h); simpl.
      * intros [= <- <-]. simpl. split; [done|]. split; [done|]. right.
        split; [done|]. by exists (buffer h).
      * unfold bind at 1.
        pose proof (ReadTemporaryBuffer_state (block_id h)
                      (set_heap (<[a := Some (with_state BLOCK_LOADED h)]> (heap s)) s))
          as Hread.
        destruct (ReadTemporaryBuffer _ _) as [[b|e] s1]; simpl in *; [|done].
        subst s1. intros [= <- <-]. simpl. split; [done|]. split; [done|]. right.
        split; [done|]. eexists. by rewrite list_insert_insert_eq.
  - unfold bind, D_ASSERT. destruct (DEBUG && _); simpl; [done|].
    intros [= <- <-]. split; [done|]. split; [done|]. by left.
Qed.

Lemma sound_with_readers r h : sound_handle h → sound_handle (with_readers r h).
Proof. done. Qed.

(** [Pin], when it returns. *)
Lemma Pin_budget a s t s' :
  budget_inv s →
  (∀ h, lock a s = Some h → state h = BLOCK_UNLOADED →
        current_memory s + memory_usage h < 2 ^ 64) →
  Pin a s = (Ret t, s') →
  budget_inv s'.
Proof.
  intros [Hacc Hle] Hfit. unfold Pin, bind at 1, deref.
  destruct (lock a s) as [h|] eqn:Hlock; simpl; [|done].
  destruct (state h) eqn:Hst; simpl.
  - (* unloaded: reserve, then load *)
    specialize (Hfit h eq_refl Hst).
    pose proof (proj1 (proj2 (proj2 (proj2 Hacc)) a h Hlock)) as Hnn.
    unfold bind at 1, gets. simpl. unfold bind at 1.
    destruct (EvictBlocks _ _ s) as [[ok|e] s1] eqn:Hev; simpl; [|done].
    apply EvictBlocks_accounted in Hev as [Hrel Hres]; [|done..].
    destruct ok; simpl; [|done].
    destruct Hres as [(_ & Hsum1 & Hrange1 & Hall1) Hle1].
    assert (Hlock1 : lock a s1 = Some h).
    { destruct Hrel as (_ & _ & Hrel). specialize (Hrel a). rewrite Hlock in Hrel.
      destruct (lock a s1) as [h1|]; [|done].
      destruct Hrel as [->|(Hcan & _)]; [done|].
      apply CanUnload_loaded in Hcan. congruence. }
    destruct Hrel as ((Hmax & _) & _).
    unfold bind at 1, deref. rewrite Hlock1, Hst. simpl.
    unfold bind at 1, D_ASSERT. destruct (DEBUG && _); simpl; [done|].
    unfold bind at 1, store, modify. simpl.
    set (s2 := set_heap _ s1). intros Hload.
    apply (Load_returns a s2 (with_readers 1 h)) in Hload
      as (Hcur & Hmax2 & [[Hbad _]|[_ [b Hheap]]]);
      [simpl in Hbad; congruence| |].
    2: { unfold s2. apply lock_set_heap_eq. eauto using lock_lt. }
    simpl in *. rewrite list_insert_insert_eq in Hheap.
    split; [|unfold s2 in *; simpl in *; lia].
    eapply (accounted_insert 0 s1 s' a h); [done|done|exact Hheap| |lia| |].
    + split; simpl; [done|done].
    + simpl. rewrite Hst. unfold s2 in *. simpl in *. lia.
    + unfold s2 in *. simpl in *. lia.
  - (* loaded already *)
    unfold bind at 1, store, modify. simpl.
    set (s1 := set_heap _ s). intros Hload.
    apply (Load_returns a s1 (with_readers (int32_t (readers h + 1)) h)) in Hload
      as (Hcur & Hmax & [[_ Hheap]|[Hbad _]]);
      [|simpl in Hbad; congruence|].
    2: { unfold s1. apply lock_set_heap_eq. eauto using lock_lt. }
    destruct Hacc as (_ & Hsum & Hrange & Hall).
    split; [|unfold s1 in *; simpl in *; lia].
    eapply (accounted_insert 0 s s' a h); [done|done|exact Hheap| |lia| |].
    + apply sound_with_readers, (Hall a h Hlock).
    + simpl. unfold s1 in *. simpl in *. lia.
    + unfold s1 in *. simpl in *. lia.
Qed.

Lemma Allocate_budget alloc_size s t s' :
  budget_inv s →
  0 ≤ alloc_size + BLOCK_HEADER_SIZE →
  current_memory s + (alloc_size + BLOCK_HEADER_SIZE) < 2 ^ 64 →
  Allocate alloc_size s = (Ret t, s') →
  budget_inv s'.
Proof.
  intros Hinv Hsize Hfit. unfold Allocate, bind.
  destruct (RegisterMemory alloc_size true s) as [[block|e] s1] eqn:Hrm; [|done].
  apply RegisterMemory_budget in Hrm as (Hinv1 & h & Hlock & Hst); [|done..].
  apply Pin_budget; [done|]. intros h' Hlock' Hst'. congruence.
Qed.

Lemma Unpin_budget a s s' :
  budget_inv s → Unpin a s = (Ret tt, s') → budget_inv s'.
Proof.
  intros [(_ & Hsum & Hrange & Hall) Hle]. unfold Unpin, bind at 1, deref.
  destruct (lock a s) as [h|] eqn:Hlock; simpl; [|done].
  unfold bind at 1, D_ASSERT. destruct (DEBUG && _); simpl; [done|].
  unfold bind at 1, store, modify. simpl.
  pose proof (Hall a h Hlock) as Hsound.
  destruct (int32_t (readers h - 1) =? 0); simpl.
  - unfold bind, store, modify. simpl. intros [= <-]. split; [|done].
    eapply (accounted_insert 0 s _ a h); simpl;
      [done|done|by rewrite list_insert_insert_eq|done|lia| |done].
    simpl. lia.
  - intros [= <-]. split; [|done].
    eapply (accounted_insert 0 s _ a h); simpl; [done|done|done|done|lia| |done].
    simpl. lia.
Qed.

Lemma EvictBlocks_budget extra limit s ok s' :
  budget_inv s →
  0 ≤ extra → current_memory s + extra < 2 ^ 64 → limit ≤ maximum_memory s →
  EvictBlocks extra limit s = (Ret ok, s') →
  budget_inv s'.
Proof.
  intros [Hacc Hle] Hextra Hfit Hlimit Hev.
  apply EvictBlocks_accounted in Hev as [((Hmax & _) & _) Hres]; [|done..].
  destruct ok.
  - destruct Hres as [Hacc' Hle']. split; [by apply (accounted_weaken extra)|lia].
  - destruct Hres as [Hacc' Hle']. split; [done|lia].
Qed.

Lemma SetLimit_budget limit s s' :
  budget_inv s → SetLimit limit s = (Ret tt, s') → budget_inv s'.
Proof.
  intros [Hacc Hle]. unfold SetLimit, bind at 1.
  assert (Hcur : current_memory s + 0 < 2 ^ 64) by (destruct Hacc as (_ & _ & ? & _); lia).
  destruct (EvictBlocks 0 limit s) as [[ok|e] s1] eqn:Hev; simpl; [|done].
  apply EvictBlocks_accounted in Hev as [_ Hres]; [|done..].
  destruct ok; simpl; [|done]. destruct Hres as [Hacc1 Hle1].
  unfold bind at 1, gets. simpl. unfold bind at 1, modify. simpl.
  unfold bind at 1.
  destruct (EvictBlocks 0 limit (set_maximum_memory limit s1))
    as [[ok2|e] s2] eqn:Hev2; simpl; [|done].
  apply EvictBlocks_accounted in Hev2 as [((Hmax & _) & _) Hres2];
    [|done|done|destruct Hacc1 as (_ & _ & ? & _); simpl; lia].
  destruct ok2; simpl; [|done]. intros [= <-].
  destruct Hres2 as [Hacc2 Hle2]. split; [done|]. simpl in Hmax. lia.
Qed.

#[local] Instance same_accounts_preorder : PreOrder same_accounts.
Proof.
  split; [by intros s|].
  intros s1 s2 s3 (?&?&?) (?&?&?). repeat split; congruence.
Qed.

Lemma UnregisterBlock_accounts id cd : preserves same_accounts (UnregisterBlock id cd).
Proof.
  unfold UnregisterBlock. destruct (MAXIMUM_BLOCK <=? id).
  - destruct (negb cd); [|apply preserves_ret, _].
    unfold DeleteTemporaryFile.
    apply preserves_bind; [apply _|apply preserves_gets, _|intros dir].
    apply preserves_bind; [apply _|apply preserves_gets, _|intros created].
    destruct (bool_decide (dir = "") || negb created); [apply preserves_ret, _|].
    apply preserves_bind; [apply _|apply preserves_gets, _|intros path].
    by apply preserves_modify.
  - by apply preserves_modify.
Qed.

Lemma accounted_released s s' a h :
  all_handles sound_handle s →
  lock a s = Some h →
  heap s' = <[a := None]> (heap s) →
  loaded_memory s - charge (Some h) ≤ current_memory s' →
  current_memory s' < 2 ^ 64 →
  accounted 0 s'.
Proof.
  intros Hall Hlock Hheap Hsum Hrange.
  apply accounted_intro; [done| |done|].
  - unfold loaded_memory. rewrite Hheap.
    rewrite (total_charge_insert _ _ (Some h)) by (by apply lock_Some).
    unfold loaded_memory in Hsum. simpl in *. lia.
  - eapply (all_handles_released a _ s); [done|by apply all_handles_weaken].
Qed.

Lemma BlockHandle_destroy_budget a s s' :
  budget_inv s → BlockHandle_destroy a s = (Ret tt, s') → budget_inv s'.
Proof.
  intros [(_ & Hsum & Hrange & Hall) Hle]. unfold BlockHandle_destroy, bind at 1, deref.
  destruct (lock a s) as [h|] eqn:Hlock; simpl; [|done].
  pose proof (charge_le_loaded_memory _ _ _ Hall Hlock) as Hcharge.
  pose proof (proj1 (Hall a h Hlock)) as Hnn.
  pose proof (loaded_memory_nonneg _ Hall) as HL.
  unfold bind at 1.
  match goal with
  | |- context [match ?m0 s with _ => _ end] => set (m := m0)
  end.
  assert (Hm : ∃ s1, m s = (Ret tt, s1) ∧
             heap s1 = <[a := Some (with_buffer None h)]> (heap s) ∧
             current_memory s1 = current_memory s - charge (Some h) ∧
             maximum_memory s1 = maximum_memory s).
  { unfold m. simpl in *. destruct (is_loaded (state h)) eqn:Hst; simpl.
    - eexists. split; [reflexivity|]. simpl.
      rewrite idx_t_small by lia. done.
    - exists s. split; [done|]. split; [|split; [lia|done]].
      symmetry. apply list_insert_id. apply lock_Some.
      rewrite Hlock. f_equal.
      assert (Hbuf : buffer h = None).
      { destruct (buffer h) as [b|] eqn:Hb; [|done].
        pose proof (proj2 (Hall a h Hlock)) as Hloaded.
        rewrite Hb in Hloaded. rewrite Hloaded in Hst by eauto. done. }
      destruct h. simpl in Hbuf. by rewrite Hbuf. }
  destruct Hm as (s1 & -> & Hheap1 & Hcur1 & Hmax1).
  assert (Hc0 : 0 ≤ charge (Some h)) by (simpl; destruct (is_loaded _); lia).
  unfold bind.
  destruct (UnregisterBlock_accounts (block_id h) (can_destroy h) s1)
    as (Hheap2 & Hcur2 & Hmax2).
  destruct (UnregisterBlock _ _ s1) as [[[]|e] s2]; simpl in *; [|done].
  intros [= <-]. split; [|simpl; lia].
  eapply (accounted_released s _ a h); simpl; [done|done| |lia|lia].
  by rewrite Hheap2, Hheap1, list_insert_insert_eq.
Qed.

Lemma evict_rel_memory_usage s s1 a h h1 :
  evict_rel s s1 → lock a s = Some h → lock a s1 = Some h1 →
  memory_usage h1 = memory_usage h.
Proof.
  intros (_ & _ & Hrel) Hlock Hlock1. specialize (Hrel a).
  rewrite Hlock, Hlock1 in Hrel.
  by destruct Hrel as [->|(_ & _ & _ & _ & _ & _ & ?)].
Qed.

(** [ReAllocate], when it returns: the counter follows the new size. *)
Lemma ReAllocate_budget a alloc_size s s' :
  budget_inv s →
  (∀ h, lock a s = Some h →
        0 ≤ alloc_size + BLOCK_HEADER_SIZE < 2 ^ 64 ∧
        - 2 ^ 63 ≤ alloc_size + BLOCK_HEADER_SIZE - memory_usage h < 2 ^ 63 ∧
        current_memory s + (alloc_size + BLOCK_HEADER_SIZE - memory_usage h) < 2 ^ 64) →
  ReAllocate a alloc_size s = (Ret tt, s') →
  budget_inv s'.
Proof.
  intros [Hacc Hle] Hfit. unfold ReAllocate, bind at 1, D_ASSERT.
  destruct (DEBUG && _); simpl; [done|].
  unfold bind at 1, deref.
  destruct (lock a s) as [h|] eqn:Hlock; simpl; [|done].
  destruct (Hfit h eq_refl) as (Htotal & Hdiff & Hfits).
  unfold bind at 1. destruct (DEBUG && _); simpl; [done|].
  rewrite (idx_t_small (alloc_size + BLOCK_HEADER_SIZE)) by done.
  rewrite (int64_t_small (alloc_size + BLOCK_HEADER_SIZE - memory_usage h)) by done.
  set (T := alloc_size + BLOCK_HEADER_SIZE) in *.
  set (R := T - memory_usage h) in *.
  assert (HR : R = T - memory_usage h) by done.
  clearbody R T. clear Hfit.
  unfold bind at 1.
  match goal with
  | |- context [match ?m0 s with _ => _ end] => set (m := m0)
  end.
  assert (Hm : ∀ s1, m s = (Ret tt, s1) →
             accounted (Z.max 0 R) s1 ∧
             current_memory s1 ≤ maximum_memory s1 ∧
             evict_rel s s1).
  { unfold m. destruct (0 <? R) eqn:HRpos.
    - apply Z.ltb_lt in HRpos. intros s1. unfold bind at 1, gets. simpl. unfold bind.
      destruct (EvictBlocks R (maximum_memory s) s) as [[ok|e] s1'] eqn:Hev;
        simpl; [|done].
      apply EvictBlocks_accounted in Hev as [Hrel Hres]; [|done|lia|lia].
      destruct ok; simpl; [|done]. intros [= <-]. destruct Hres as [Hacc1 Hle1].
      rewrite Z.max_r by lia. split; [done|]. split; [|done].
      destruct Hrel as ((Hmax & _) & _). lia.
    - apply Z.ltb_ge in HRpos. intros s1 [= <-]. rewrite Z.max_l by lia.
      split; [done|]. split; [done|reflexivity]. }
  destruct (m s) as [[[]|e] s1]; [|done].
  destruct (Hm s1 eq_refl) as ((_ & Hsum1 & Hrange1 & Hall1) & Hle1 & Hrel).
  clear Hm m. simpl. unfold bind at 1, deref.
  destruct (lock a s1) as [h1|] eqn:Hlock1; simpl; [|done].
  pose proof (evict_rel_memory_usage _ _ _ _ _ Hrel Hlock Hlock1) as Hmu.
  destruct (buffer h1) as [b|] eqn:Hbuf; simpl; [|done].
  assert (Hst1 : state h1 = BLOCK_LOADED).
  { apply (Hall1 a h1 Hlock1). rewrite Hbuf. by eexists. }
  pose proof (charge_le_loaded_memory _ _ _ Hall1 Hlock1) as Hcharge.
  simpl in Hcharge. rewrite Hst1 in Hcharge. simpl in Hcharge.
  pose proof (proj1 (Hall1 a h1 Hlock1)) as Hnn.
  set (h2 := with_buffer (Some (Resize alloc_size b)) h1).
  assert (Hlock2 : ∀ x, lock a (set_current_memory x
                                  (set_heap (<[a := Some h2]> (heap s1)) s1)) = Some h2).
  { intros x. apply (lock_set_heap_eq a (Some h2) s1). eauto using lock_lt. }
  assert (Hlock2' : lock a (set_heap (<[a := Some h2]> (heap s1)) s1) = Some h2).
  { apply (lock_set_heap_eq a (Some h2) s1). eauto using lock_lt. }
  unfold bind at 1, store, modify. simpl.
  unfold bind at 1.
  destruct (R <? 0) eqn:HR0; simpl.
  - apply Z.ltb_lt in HR0. unfold bind, deref. rewrite Hlock2. simpl.
    intros [= <-]. rewrite Z.max_l in Hsum1 by lia.
    rewrite idx_t_small by lia.
    split; [|simpl; lia].
    eapply (accounted_insert 0 s1 _ a h1); simpl;
      [done|done|by rewrite list_insert_insert_eq| |lia| |lia].
    + split; simpl; [lia|done].
    + repeat (rewrite Hst1; simpl). lia.
  - apply Z.ltb_ge in HR0. unfold bind, deref. rewrite Hlock2'. simpl.
    intros [= <-]. rewrite Z.max_r in Hsum1 by lia.
    split; [|simpl; lia].
    eapply (accounted_insert 0 s1 _ a h1); simpl;
      [done|done|by rewrite list_insert_insert_eq| |lia| |lia].
    + split; simpl; [lia|done].
    + repeat (rewrite Hst1; simpl). lia.
Qed.

Lemma perform_budget o s :
  0 ≤ BLOCK_ALLOC_SIZE →
  budget_inv s → fits o s → returned (perform o s) →
  budget_inv (perform o s).2.
Proof.
  intros Hconst Hinv Hfit. unfold returned.
  destruct o; simpl in *.
  - unfold bind. destruct (RegisterBlock id s) as [[a|e] s'] eqn:Hop; simpl; [|done].
    intros _. by eapply RegisterBlock_budget.
  - unfold bind.
    destruct (RegisterMemory alloc_size can_destroy_p s) as [[a|e] s'] eqn:Hop;
      simpl; [|done].
    intros _. destruct Hfit. by eapply RegisterMemory_budget.
  - unfold bind. destruct (Allocate alloc_size s) as [[t|e] s'] eqn:Hop; simpl; [|done].
    intros _. destruct Hfit. by eapply Allocate_budget.
  - destruct (ReAllocate a alloc_size s) as [[[]|e] s'] eqn:Hop; simpl; [|done].
    intros _. by eapply ReAllocate_budget.
  - unfold bind. destruct (Pin a s) as [[t|e] s'] eqn:Hop; simpl; [|done].
    intros _. by eapply Pin_budget.
  - destruct (Unpin a s) as [[[]|e] s'] eqn:Hop; simpl; [|done].
    intros _. by eapply Unpin_budget.
  - unfold bind.
    destruct (EvictBlocks extra_memory memory_limit s) as [[ok|e] s'] eqn:Hop;
      simpl; [|done].
    intros _. destruct Hfit as (? & ? & ?). by eapply EvictBlocks_budget.
  - destruct (SetLimit limit s) as [[[]|e] s'] eqn:Hop; simpl; [|done].
    intros _. by eapply SetLimit_budget.
  - unfold SetTemporaryDirectory, bind, gets. simpl.
    destruct (temp_directory_handle s); simpl; [done|]. intros _. done.
  - destruct (BlockHandle_destroy a s) as [[[]|e] s'] eqn:Hop; simpl; [|done].
    intros _. by eapply BlockHandle_destroy_budget.
Qed.

Lemma budget_inv_new tmp maximum fs :
  0 ≤ maximum → budget_inv (BufferManager_new tmp maximum fs).
Proof.
  intros Hmax. split; [|done].
  apply accounted_intro; simpl; [done|done|done|].
  intros a h Hlock. by rewrite lock_beyond in Hlock by (simpl; lia).
Qed.

(** C1, as the code has it: from construction, after any sequence of
    RegisterBlock, RegisterMemory, Allocate, ReAllocate, Pin, Unpin,
    SetLimit, SetTemporaryDirectory, handle destruction and EvictBlocks
    called with a limit no larger than maximum_memory, each of which returns
    and none of which overflows its 64-bit arithmetic, current_memory is at
    most maximum_memory. *)
Theorem budget_holds_after_returning_calls (tmp : string) (maximum : Z)
    (fs : gmap string (list byte)) (ops : list operation) :
  0 ≤ maximum →
  0 ≤ BLOCK_ALLOC_SIZE →
  all_return ops (BufferManager_new tmp maximum fs) →
  all_fit ops (BufferManager_new tmp maximum fs) →
  current_memory (run ops (BufferManager_new tmp maximum fs))
    ≤ maximum_memory (run ops (BufferManager_new tmp maximum fs)).
Proof.
  intros Hmax Hconst.
  pose proof (budget_inv_new tmp maximum fs Hmax) as Hinv.
  generalize dependent (BufferManager_new tmp maximum fs).
  induction ops as [|o ops IH]; intros s Hinv Hret Hfit; simpl.
  - apply Hinv.
  - destruct Hret as [Hret Hrets], Hfit as [Hfit Hfits].
    apply IH; [|done|done]. by apply perform_budget.
Qed.

(** ** What Pin and Unpin do to the readers count *)

Lemma Unpin_readers a s h s' :
  lock a s = Some h →
  Unpin a s = (Ret tt, s') →
  ∃ h', lock a s' = Some h' ∧ readers h' = int32_t (readers h - 1) ∧ state h' = state h.
Proof.
  intros Hlock. unfold Unpin, bind at 1, deref. rewrite Hlock.
  unfold bind at 1, D_ASSERT. destruct (DEBUG && _); simpl; [done|].
  unfold bind at 1, store, modify. simpl.
  pose proof (lock_lt _ _ _ Hlock) as Hlt.
  destruct (int32_t (readers h - 1) =? 0); simpl.
  - unfold bind, store, modify. simpl. intros [= <-]. eexists. split.
    + apply lock_Some. simpl. apply list_lookup_insert_eq.
      by rewrite length_insert.
    + done.
  - intros [= <-]. eexists. split.
    + by apply lock_set_heap_eq.
    + done.
Qed.

Lemma Pin_readers a s h t s' :
  lock a s = Some h →
  Pin a s = (Ret t, s') →
  ∃ h', lock a s' = Some h' ∧ state h' = BLOCK_LOADED ∧
        readers h' = if is_loaded (state h) then int32_t (readers h + 1) else 1.
Proof.
  intros Hlock. unfold Pin, bind at 1, deref. rewrite Hlock.
  pose proof (lock_lt _ _ _ Hlock) as Hlt.
  destruct (state h) eqn:Hst; simpl.
  - unfold bind at 1, gets. simpl. unfold bind at 1.
    pose proof (EvictBlocks_rel (memory_usage h) (maximum_memory s) s) as Hrel.
    destruct (EvictBlocks _ _ s) as [[ok|e] s1]; simpl in *; [|done].
    destruct ok; simpl; [|done].
    assert (Hlock1 : lock a s1 = Some h).
    { destruct Hrel as (_ & _ & Hrel). specialize (Hrel a). rewrite Hlock in Hrel.
      destruct (lock a s1) as [h1|]; [|done].
      destruct Hrel as [->|(Hcan & _)]; [done|].
      apply CanUnload_loaded in Hcan. congruence. }
    pose proof (lock_lt _ _ _ Hlock1) as Hlt1.
    unfold bind at 1, deref. rewrite Hlock1, Hst. simpl.
    unfold bind at 1, D_ASSERT. destruct (DEBUG && _); simpl; [done|].
    unfold bind at 1, store, modify. simpl.
    set (s2 := set_heap _ s1). intros Hload.
    apply (Load_returns a s2 (with_readers 1 h)) in Hload
      as (_ & _ & [[Hbad _]|[_ [b Hheap]]]);
      [simpl in Hbad; congruence| |by apply lock_set_heap_eq].
    eexists. split.
    + apply lock_Some. rewrite Hheap. apply list_lookup_insert_eq.
      unfold s2. simpl. by rewrite length_insert.
    + done.
  - unfold bind at 1, store, modify. simpl.
    set (s1 := set_heap _ s). intros Hload.
    apply (Load_returns a s1 (with_readers (int32_t (readers h + 1)) h)) in Hload
      as (_ & _ & [[_ Hheap]|[Hbad _]]);
      [|simpl in Hbad; congruence|by apply lock_set_heap_eq].
    eexists. split.
    + apply lock_Some. rewrite Hheap. unfold s1. simpl.
      by apply list_lookup_insert_eq.
    + done.
Qed.

(** * Further properties of the operations *)

(** Successive updates of the store: the last one counts. *)
Ltac collapse_heap :=
  repeat match goal with
         | |- context [set_heap ?x (set_heap ?y ?s)] =>
             change (set_heap x (set_heap y s)) with (set_heap x s)
         end.

(** ** What an eviction consumes, and how it can end *)

(** The spill, a temporary directory being set, fails with an assertion
    or with an I/O error of the file system. *)
Lemma WriteTemporaryBuffer_throws b s e :
  temp_directory s ≠ "" →
  (WriteTemporaryBuffer b s).1 = Throw e → e = AssertionFailure ∨ e = IOException.
Proof.
  intros Hdir.
  unfold WriteTemporaryBuffer, RequireTemporaryDirectory, TemporaryDirectoryHandle_new,
    FileSystem_CreateDirectory, FileSystem_OpenFile, FileHandle_Write_at,
    bind, gets, modify, D_ASSERT, throw, ret.
  simpl. rewrite !bool_decide_eq_false_2 by done. simpl.
  destruct (temp_directory_handle s); simpl.
  - destruct (DEBUG && _); simpl; [intros [= <-]; by left|].
    destruct (OpenFile_fails _); simpl; [intros [= <-]; by right|].
    destruct (Write_fails _ 0%nat); simpl; [intros [= <-]; by right|].
    destruct (Write_fails _ sizeof_idx_t); simpl; [intros [= <-]; by right|done].
  - destruct (CreateDirectory_fails _); simpl; [intros [= <-]; by right|].
    destruct (DEBUG && _); simpl; [intros [= <-]; by left|].
    destruct (OpenFile_fails _); simpl; [intros [= <-]; by right|].
    destruct (Write_fails _ 0%nat); simpl; [intros [= <-]; by right|].
    destruct (Write_fails _ sizeof_idx_t); simpl; [intros [= <-]; by right|done].
Qed.

(** [Unload] is called by the eviction loop on handles that can be
    unloaded: the missing-directory error of [RequireTemporaryDirectory] is
    then out of reach, and what is left is a failed assertion, a handle
    without a buffer to spill, or an I/O error of the spill. *)
Lemma Unload_throws a h s e :
  lock a s = Some h → CanUnload h s = true →
  (Unload a s).1 = Throw e →
  e = AssertionFailure ∨ e = NullDereference ∨ e = IOException.
Proof.
  intros Hlock Hcan. pose proof (CanUnload_loaded _ _ Hcan) as Hst.
  unfold Unload, bind, deref. rewrite Hlock, Hst. simpl.
  unfold D_ASSERT.
  destruct (DEBUG && negb (CanUnload h s)); simpl; [intros [= <-]; by left|].
  destruct (DEBUG && negb (BLOCK_SIZE <=? memory_usage h)); simpl;
    [intros [= <-]; by left|].
  destruct ((MAXIMUM_BLOCK <=? block_id h) && negb (can_destroy h)) eqn:Hspill; simpl;
    [|done].
  destruct (buffer h) as [b|]; simpl; [|intros [= <-]; right; by left].
  assert (Hdir : temp_directory s ≠ "").
  { intros Hdir. revert Hcan. unfold CanUnload. rewrite Hst. simpl.
    destruct (0 <? readers h); [done|]. rewrite Hspill. simpl.
    by rewrite bool_decide_eq_true_2. }
  match goal with
  | |- context [WriteTemporaryBuffer b ?s0] =>
      pose proof (WriteTemporaryBuffer_throws b s0 e Hdir) as Hwrite;
      destruct (WriteTemporaryBuffer b s0) as [[[]|e'] s1]
  end; simpl in *; [done|].
  intros [= <-]. destruct Hwrite as [->| ->]; auto.
Qed.

Lemma evict_node_throws node s e :
  (evict_node node s).1 = Throw e →
  e = AssertionFailure ∨ e = NullDereference ∨ e = IOException.
Proof.
  destruct (evict_node_cases node s) as [->|(h & Hlock & Hcan & ->)]; [done|].
  apply Node_CanUnload_true in Hcan as [_ Hcan]. by apply (Unload_throws _ h).
Qed.

Lemma evict_node_queue node s : queue (evict_node node s).2 = queue s.
Proof.
  destruct (evict_node_cases node s) as [->|(h & Hlock & Hcan & ->)]; [done|].
  apply Node_CanUnload_true in Hcan as [_ Hcan].
  by destruct (Unload_loaded _ _ _ Hlock (CanUnload_loaded _ _ Hcan))
    as (r & s' & -> & _ & Hq & _).
Qed.

(** The loop takes nodes from the front of the queue and puts none back. *)
Lemma evict_loop_queue extra limit q s :
  queue s = q →
  queue (evict_loop extra limit q s).2 `suffix_of` q ∧
  match (evict_loop extra limit q s).1 with
  | Ret true => current_memory (evict_loop extra limit q s).2 ≤ limit
  | Ret false => queue (evict_loop extra limit q s).2 = []
  | Throw e => e = AssertionFailure ∨ e = NullDereference ∨ e = IOException
  end.
Proof.
  revert s. induction q as [|node q IH]; intros s Hq; simpl; unfold bind, gets; simpl.
  - destruct (limit <? current_memory s) eqn:Hlt; simpl.
    + by rewrite Hq.
    + rewrite Hq. split; [done|]. by apply Z.ltb_ge.
  - destruct (limit <? current_memory s) eqn:Hlt; simpl.
    + pose proof (evict_node_queue node (set_queue q s)) as Hq1.
      pose proof (evict_node_throws node (set_queue q s)) as Hthrow.
      destruct (evict_node node (set_queue q s)) as [[[]|e] s1]; simpl in *.
      * destruct (IH s1 Hq1) as [Hsuf Hres]. split; [by apply suffix_cons_r|done].
      * split; [rewrite Hq1; by apply suffix_cons_r|]. by apply Hthrow.
    + rewrite Hq. split; [done|]. by apply Z.ltb_ge.
Qed.

(** X2: [EvictBlocks] consumes a prefix of the queue: the queue it leaves is a
    suffix of the queue it found. With [true] the counter is within the
    limit; with [false] the queue has run dry; and an exception, if any, is
    a failed assertion, a loaded handle with no buffer to spill, or an I/O
    error raised by the file system during a spill (never the
    out-of-memory exception, and never the missing-directory one). *)
Theorem EvictBlocks_consumes_queue (extra limit : Z) (s : BufferManager) :
  queue (EvictBlocks extra limit s).2 `suffix_of` queue s ∧
  match (EvictBlocks extra limit s).1 with
  | Ret true => current_memory (EvictBlocks extra limit s).2 ≤ limit
  | Ret false => queue (EvictBlocks extra limit s).2 = []
  | Throw e => e = AssertionFailure ∨ e = NullDereference ∨ e = IOException
  end.
Proof. unfold EvictBlocks, bind, gets, modify. simpl. by apply evict_loop_queue. Qed.

Lemma EvictBlocks_false_queue extra limit s s' :
  EvictBlocks extra limit s = (Ret false, s') → queue s' = [].
Proof.
  unfold EvictBlocks, bind, gets, modify. simpl. intros Hloop.
  destruct (evict_loop_queue extra limit (queue s)
              (set_current_memory (idx_t (current_memory s + extra)) s) eq_refl)
    as [_ Hres].
  by rewrite Hloop in Hres.
Qed.

Lemma EvictBlocks_throws extra limit s e s' :
  EvictBlocks extra limit s = (Throw e, s') →
  e = AssertionFailure ∨ e = NullDereference ∨ e = IOException.
Proof.
  unfold EvictBlocks, bind, gets, modify. simpl. intros Hloop.
  destruct (evict_loop_queue extra limit (queue s)
              (set_current_memory (idx_t (current_memory s + extra)) s) eq_refl)
    as [_ Hres].
  by rewrite Hloop in Hres.
Qed.

(** ** Out of memory *)

Lemma Load_not_out_of_range a s r :
  Load a s = r → r.1 ≠ Throw OutOfRangeException.
Proof.
  intros <-. unfold Load, bind at 1, deref.
  destruct (lock a s) as [h|]; simpl; [|done].
  destruct (is_loaded (state h)).
  - unfold bind, D_ASSERT. by destruct (DEBUG && _).
  - unfold bind at 1, store, modify. simpl.
    destruct (block_id h <? MAXIMUM_BLOCK).
    + by destruct (BlockManager_Read (block_id h)).
    + destruct (can_destroy h); simpl; [done|].
      unfold bind at 1, ReadTemporaryBuffer, bind, gets, D_ASSERT. simpl.
      destruct (DEBUG && _); simpl; [done|].
      destruct (DEBUG && _); simpl; [done|].
      destruct (files s !! _) as [file|]; simpl; [|done].
      destruct (FileHandle_Read file sizeof_idx_t 0) as [header|]; simpl; [|done].
      by destruct (FileHandle_Read file _ sizeof_idx_t).
Qed.

Lemma Pin_out_of_range a s s' :
  Pin a s = (Throw OutOfRangeException, s') →
  queue s' = [] ∧ evict_rel s s'.
Proof.
  unfold Pin, bind at 1, deref.
  destruct (lock a s) as [h|] eqn:Hlock; simpl; [|done].
  destruct (is_loaded (state h)) eqn:Hst.
  - unfold bind at 1, store, modify. simpl.
    intros Hload. by apply Load_not_out_of_range in Hload.
  - unfold bind at 1, gets. simpl. unfold bind at 1.
    pose proof (EvictBlocks_rel (memory_usage h) (maximum_memory s) s) as Hrel.
    destruct (EvictBlocks _ _ s) as [[ok|e] s1] eqn:Hev; simpl in *.
    + destruct ok; simpl.
      * unfold bind at 1, deref. destruct (lock a s1) as [h1|]; simpl; [|done].
        destruct (is_loaded (state h1)).
        -- unfold bind at 1, store, modify. simpl.
           intros Hload. by apply Load_not_out_of_range in Hload.
        -- unfold bind at 1, D_ASSERT. destruct (DEBUG && _); simpl; [done|].
           unfold bind at 1, store, modify. simpl.
           intros Hload. by apply Load_not_out_of_range in Hload.
      * intros [= <-]. split; [by apply EvictBlocks_false_queue in Hev|done].
    + intros [= -> <-]. by apply EvictBlocks_throws in Hev as [?|[?|?]].
Qed.

(** [RegisterMemory], when it returns: the eviction made room, and the new
    handle sits at a fresh address. *)
Lemma RegisterMemory_returns alloc_size cd s a s' :
  RegisterMemory alloc_size cd s = (Ret a, s') →
  ∃ s1,
    EvictBlocks (idx_t (alloc_size + BLOCK_HEADER_SIZE)) (maximum_memory s) s
      = (Ret true, s1) ∧
    a = length (heap s1) ∧
    s' = set_heap
           (heap s1 ++
              [Some (mkBlockHandle BLOCK_LOADED 0 (int64_t (temporary_id s1 + 1))
                       (Some (ManagedBuffer alloc_size cd (int64_t (temporary_id s1 + 1))))
                       0 cd (idx_t (alloc_size + BLOCK_HEADER_SIZE)))])
           (set_temporary_id (int64_t (temporary_id s1 + 1)) s1).
Proof.
  unfold RegisterMemory, bind at 1, gets. simpl. unfold bind at 1.
  destruct (EvictBlocks _ _ s) as [[ok|e] s1]; simpl; [|done].
  destruct ok; simpl; [|done].
  unfold bind, modify, gets, BlockHandle_new_loaded, D_ASSERT, make_shared. simpl.
  destruct (DEBUG && _); simpl; [done|].
  intros [= <- <-]. by exists s1.
Qed.

Lemma RegisterMemory_out_of_range alloc_size cd s s' :
  RegisterMemory alloc_size cd s = (Throw OutOfRangeException, s') →
  queue s' = [] ∧ evict_rel s s'.
Proof.
  unfold RegisterMemory, bind at 1, gets. simpl. unfold bind at 1.
  pose proof (EvictBlocks_rel (idx_t (alloc_size + BLOCK_HEADER_SIZE))
                (maximum_memory s) s) as Hrel.
  destruct (EvictBlocks _ _ s) as [[ok|e] s1] eqn:Hev; simpl in *.
  - destruct ok; simpl.
    + unfold bind, modify, gets, BlockHandle_new_loaded, D_ASSERT, make_shared. simpl.
      by destruct (DEBUG && _).
    + intros [= <-]. split; [by apply EvictBlocks_false_queue in Hev|done].
  - intros [= -> <-]. by apply EvictBlocks_throws in Hev as [?|[?|?]].
Qed.

(** [Pin] of a loaded handle counts a reader and hands the buffer out. *)
Lemma Pin_loaded a h s :
  lock a s = Some h → state h = BLOCK_LOADED →
  Pin a s
  = (if DEBUG && negb (bool_decide (is_Some (buffer h)))
     then Throw AssertionFailure else Ret (Some a),
     set_heap (<[a := Some (with_readers (int32_t (readers h + 1)) h)]> (heap s)) s).
Proof.
  intros Hlock Hst. unfold Pin, bind at 1, deref. rewrite Hlock, Hst. simpl.
  unfold bind at 1, store, modify. simpl.
  unfold Load, bind at 1, deref.
  rewrite lock_set_heap_eq by eauto using lock_lt. simpl. rewrite Hst. simpl.
  unfold bind, D_ASSERT. by destruct (DEBUG && _).
Qed.

Lemma ReAllocate_out_of_range a alloc_size s s' :
  ReAllocate a alloc_size s = (Throw OutOfRangeException, s') →
  queue s' = [] ∧ evict_rel s s'.
Proof.
  unfold ReAllocate, bind at 1, D_ASSERT.
  destruct (DEBUG && _); simpl; [done|].
  unfold bind at 1, deref.
  destruct (lock a s) as [h|] eqn:Hlock; simpl; [|done].
  unfold bind at 1. destruct (DEBUG && _); simpl; [done|].
  set (required := int64_t _).
  assert (Hrest : ∀ s1 r,
            (h1 <- deref a ;;
             match buffer h1 with
             | None => throw NullDereference
             | Some b =>
                 store a (with_buffer (Some (Resize alloc_size b)) h1) ;;;
                 (if required <? 0 then
                    modify (λ s, set_current_memory
                                   (idx_t (current_memory s + required)) s)
                  else ret tt) ;;;
                 h2 <- deref a ;;
                 store a (with_memory_usage
                            (idx_t (alloc_size + BLOCK_HEADER_SIZE)) h2)
             end) s1 = r → r.1 ≠ Throw OutOfRangeException).
  { intros s1 r <-. unfold bind at 1, deref.
    destruct (lock a s1) as [h1|]; simpl; [|done].
    destruct (buffer h1) as [b|]; simpl; [|done].
    unfold bind at 1, store, modify. simpl. unfold bind at 1.
    destruct (required <? 0); simpl; unfold bind, deref;
      match goal with |- context [lock a ?x] => by destruct (lock a x) end. }
  unfold bind at 1.
  destruct (0 <? required).
  - unfold bind at 1, gets. simpl. unfold bind at 1.
    pose proof (EvictBlocks_rel required (maximum_memory s) s) as Hrel.
    destruct (EvictBlocks _ _ s) as [[ok|e] s1] eqn:Hev; simpl in *.
    + destruct ok; simpl.
      * intros Hr. by apply Hrest in Hr.
      * intros [= <-]. split; [by apply EvictBlocks_false_queue in Hev|done].
    + intros [= -> <-]. by apply EvictBlocks_throws in Hev as [?|[?|?]].
  - simpl. intros Hr. by apply Hrest in Hr.
Qed.

Lemma SetLimit_out_of_range limit s s' :
  SetLimit limit s = (Throw OutOfRangeException, s') →
  queue s' = [] ∧ evict_rel s s'.
Proof.
  unfold SetLimit, bind at 1.
  pose proof (EvictBlocks_rel 0 limit s) as Hrel.
  pose proof (EvictBlocks_counter 0 limit s) as Hrange.
  destruct (EvictBlocks 0 limit s) as [[ok|e] s1] eqn:Hev; simpl in *.
  - destruct ok; simpl.
    + apply EvictBlocks_true in Hev.
      unfold bind at 1. simpl. unfold bind at 1. simpl.
      destruct (EvictBlocks_zero_satisfied limit (set_maximum_memory limit s1))
        as (s2 & Hsecond & _); [done..|].
      unfold bind at 1. by rewrite Hsecond.
    + intros [= <-]. split; [by apply EvictBlocks_false_queue in Hev|done].
  - intros [= -> <-]. by apply EvictBlocks_throws in Hev as [?|[?|?]].
Qed.

(** X3: An operation ends with the out-of-memory exception only after its
    eviction has run the queue dry; the manager it leaves differs from the
    one it found by evictions only: no handle is created or destroyed, each
    handle is untouched or unloaded, and the limit, the registry, the id
    counter and the temporary directory are what they were. *)
Theorem out_of_memory_only_after_exhausting_queue (o : operation)
    (s s' : BufferManager) :
  perform o s = (Throw OutOfRangeException, s') →
  queue s' = [] ∧ evict_rel s s'.
Proof.
  destruct o; simpl.
  - unfold bind. by destruct (RegisterBlock_cases id s) as [(a & _ & ->)|[_ ->]].
  - unfold bind.
    destruct (RegisterMemory alloc_size can_destroy_p s) as [[a|e] s1] eqn:Hrm;
      simpl; [done|].
    intros [= -> <-]. by apply RegisterMemory_out_of_range in Hrm.
  - unfold Allocate, bind.
    destruct (RegisterMemory alloc_size true s) as [[a|e] s1] eqn:Hrm.
    + apply RegisterMemory_returns in Hrm as (s0 & _ & -> & ->).
      erewrite Pin_loaded;
        [|apply (lock_make_shared_new _ (set_temporary_id _ s0))|done].
      by destruct (DEBUG && _).
    + intros [= -> <-]. by apply RegisterMemory_out_of_range in Hrm.
  - apply ReAllocate_out_of_range.
  - unfold bind. destruct (Pin a s) as [[t|e] s1] eqn:Hpin; simpl; [done|].
    intros [= -> <-]. by apply Pin_out_of_range in Hpin.
  - unfold Unpin, bind at 1, deref.
    destruct (lock a s) as [h|]; simpl; [|done].
    unfold bind at 1, D_ASSERT. destruct (DEBUG && _); simpl; [done|].
    unfold bind at 1, store, modify. simpl.
    by destruct (int32_t (readers h - 1) =? 0).
  - unfold bind.
    destruct (EvictBlocks extra_memory memory_limit s) as [[ok|e] s1] eqn:Hev;
      simpl; [done|].
    intros [= -> <-]. by apply EvictBlocks_throws in Hev as [?|[?|?]].
  - apply SetLimit_out_of_range.
  - unfold SetTemporaryDirectory, bind, gets. simpl.
    by destruct (temp_directory_handle s).
  - unfold BlockHandle_destroy, bind at 1, deref.
    destruct (lock a s) as [h|]; simpl; [|done].
    unfold bind at 1.
    destruct (is_loaded (state h)); simpl;
      unfold bind, UnregisterBlock, DeleteTemporaryFile, bind, gets, modify; simpl;
      destruct (MAXIMUM_BLOCK <=? block_id h); simpl; try done;
      destruct (can_destroy h); simpl; try done;
      by destruct (bool_decide _ || negb _).
Qed.

(** ** Allocation *)

(** X4: [Allocate], when it returns, returns a pinned buffer, never a null
    token: the handle sits at a fresh address, is LOADED with one reader,
    destroyable, carries the next anonymous id and a buffer made for the
    requested size, and accounts that size plus the block header; the
    registry is untouched and the counter is within the limit. *)
Theorem Allocate_returns_pinned_buffer (alloc_size : Z) (s : BufferManager)
    (t : option nat) (s' : BufferManager) :
  Allocate alloc_size s = (Ret t, s') →
  t = Some (length (heap s)) ∧
  temporary_id s' = int64_t (temporary_id s + 1) ∧
  lock (length (heap s)) s'
    = Some (mkBlockHandle BLOCK_LOADED 1 (temporary_id s')
              (Some (ManagedBuffer alloc_size true (temporary_id s'))) 0 true
              (idx_t (alloc_size + BLOCK_HEADER_SIZE))) ∧
  blocks s' = blocks s ∧
  current_memory s' ≤ maximum_memory s'.
Proof.
  unfold Allocate, bind.
  destruct (RegisterMemory alloc_size true s) as [[a|e] s1] eqn:Hrm; [|done].
  apply RegisterMemory_returns in Hrm as (s0 & Hev & -> & ->).
  pose proof (EvictBlocks_rel (idx_t (alloc_size + BLOCK_HEADER_SIZE))
                (maximum_memory s) s) as Hrel.
  rewrite Hev in Hrel. destruct Hrel as ((Hmax & _ & Hblocks & Hid) & Hlen & _).
  apply EvictBlocks_true in Hev. simpl in *.
  erewrite Pin_loaded;
    [|apply (lock_make_shared_new _ (set_temporary_id _ s0))|done].
  simpl. rewrite andb_false_r.
  intros [= <- <-]. simpl. rewrite <- Hlen, Hid.
  split; [done|]. split; [done|]. split; [|split; [done|lia]].
  apply lock_Some. simpl. apply list_lookup_insert_eq.
  rewrite length_app. simpl. lia.
Qed.

(** ** Pinning *)

(** [Pin] of an unloaded handle, once the eviction has made room. *)
Lemma Pin_unloaded a h s s1 :
  lock a s = Some h → state h = BLOCK_UNLOADED →
  (DEBUG = true → readers h = 0) →
  EvictBlocks (memory_usage h) (maximum_memory s) s = (Ret true, s1) →
  lock a s1 = Some h ∧
  Pin a s = Load a (set_heap (<[a := Some (with_readers 1 h)]> (heap s1)) s1).
Proof.
  intros Hlock Hst Hreaders Hev.
  assert (Hlock1 : lock a s1 = Some h).
  { pose proof (EvictBlocks_rel (memory_usage h) (maximum_memory s) s) as Hrel.
    rewrite Hev in Hrel. destruct Hrel as (_ & _ & Hrel).
    specialize (Hrel a). rewrite Hlock in Hrel. simpl in Hrel.
    destruct (lock a s1) as [h1|]; [|done].
    destruct Hrel as [->|(Hcan & _)]; [done|].
    apply CanUnload_loaded in Hcan. congruence. }
  split; [done|].
  unfold Pin, bind at 1, deref. rewrite Hlock, Hst. simpl.
  unfold bind at 1, gets. simpl. unfold bind at 1. rewrite Hev. simpl.
  unfold bind at 1, deref. rewrite Hlock1, Hst. simpl.
  unfold bind at 1. rewrite D_ASSERT_passes by (intros Hd; apply Z.eqb_eq; auto).
  unfold bind at 1, store, modify. done.
Qed.

(** X5: [Pin] of an unloaded persistent block, the eviction having made room
    for its memory_usage: the block is read through the block manager, and
    the handle is LOADED with one reader and a block buffer holding the
    bytes read; the counter, which now covers the block, is within the
    limit. *)
Theorem Pin_loads_persistent_block (a : nat) (h : BlockHandle) (bytes : list byte)
    (s s1 : BufferManager) :
  lock a s = Some h → state h = BLOCK_UNLOADED →
  (DEBUG = true → readers h = 0) →
  block_id h < MAXIMUM_BLOCK →
  BlockManager_Read (block_id h) = Some bytes →
  EvictBlocks (memory_usage h) (maximum_memory s) s = (Ret true, s1) →
  Pin a s
  = (Ret (Some a),
     set_heap
       (<[a := Some (mkBlockHandle BLOCK_LOADED 1 (block_id h)
                       (Some (mkFileBuffer BLOCK BLOCK_SIZE (block_id h) false bytes))
                       (eviction_timestamp h) (can_destroy h) (memory_usage h))]>
          (heap s1)) s1) ∧
  current_memory s1 ≤ maximum_memory s.
Proof.
  intros Hlock Hst Hreaders Hid Hread Hev.
  destruct (Pin_unloaded a h s s1) as [Hlock1 ->]; [done..|].
  split; [|by apply EvictBlocks_true in Hev].
  unfold Load, bind at 1, deref.
  rewrite lock_set_heap_eq by eauto using lock_lt. simpl. rewrite Hst. simpl.
  unfold bind at 1, store, modify. simpl.
  rewrite (proj2 (Z.ltb_lt _ _)) by done. rewrite Hread.
  unfold bind, store, modify. simpl.
  by rewrite !list_insert_insert_eq.
Qed.

(** X6: an I/O error out of [Pin] of an unloaded handle has one of two
    origins. Either the eviction raised it while spilling another block:
    then the manager is the one the eviction left, and the handle is
    untouched. Or the eviction had made room and the read failed (the
    block manager could not read the block, or the temporary file could
    not be read): then [Pin] is not undone, the reservation is kept, and
    the handle is left LOADED with one reader and the buffer field it
    had. *)
Theorem Pin_io_error_from_spill_or_read (a : nat) (h : BlockHandle)
    (s s' : BufferManager) :
  lock a s = Some h → state h = BLOCK_UNLOADED →
  Pin a s = (Throw IOException, s') →
  (EvictBlocks (memory_usage h) (maximum_memory s) s = (Throw IOException, s') ∧
   lock a s' = Some h) ∨
  (lock a s' = Some (with_state BLOCK_LOADED (with_readers 1 h)) ∧
   ∃ s1, EvictBlocks (memory_usage h) (maximum_memory s) s = (Ret true, s1) ∧
         current_memory s' = current_memory s1 ∧ queue s' = queue s1).
Proof.
  intros Hlock Hst. unfold Pin, bind at 1, deref. rewrite Hlock, Hst. simpl.
  unfold bind at 1, gets. simpl. unfold bind at 1.
  pose proof (EvictBlocks_rel (memory_usage h) (maximum_memory s) s) as Hrel.
  assert (Hlock1 : lock a (EvictBlocks (memory_usage h) (maximum_memory s) s).2
                   = Some h).
  { destruct Hrel as (_ & _ & Hrel).
    specialize (Hrel a). rewrite Hlock in Hrel.
    destruct (lock a (EvictBlocks (memory_usage h) (maximum_memory s) s).2)
      as [h1|]; [|done].
    destruct Hrel as [->|(Hcan & _)]; [done|].
    apply CanUnload_loaded in Hcan. congruence. }
  destruct (EvictBlocks _ _ s) as [[ok|e] s1] eqn:Hev; simpl in *.
  2: { intros [= -> <-]. left. by split. }
  destruct ok; simpl; [|done].
  pose proof (lock_lt _ _ _ Hlock1) as Hlt.
  unfold bind at 1, deref. rewrite Hlock1, Hst. simpl.
  unfold bind at 1, D_ASSERT. destruct (DEBUG && _); simpl; [done|].
  unfold bind at 1, store, modify. simpl.
  unfold Load, bind at 1, deref.
  rewrite lock_set_heap_eq by done. simpl. rewrite Hst. simpl.
  unfold bind at 1, store, modify. simpl. rewrite list_insert_insert_eq.
  match goal with
  | |- context [set_heap ?x (set_heap ?y s1)] =>
      change (set_heap x (set_heap y s1)) with (set_heap x s1)
  end.
  set (s3 := set_heap _ s1).
  assert (Hlock3 : lock a s3 = Some (with_state BLOCK_LOADED (with_readers 1 h)))
    by (by apply lock_set_heap_eq).
  destruct (block_id h <? MAXIMUM_BLOCK).
  - destruct (BlockManager_Read (block_id h)); simpl; [done|].
    intros [= <-]. right. split; [done|]. by exists s1.
  - destruct (can_destroy h); simpl; [done|].
    unfold bind at 1.
    pose proof (ReadTemporaryBuffer_state (block_id h) s3) as Hsame.
    destruct (ReadTemporaryBuffer (block_id h) s3) as [[b|e] s4]; simpl in *; [done|].
    subst s4. intros [= -> <-]. right. split; [done|]. by exists s1.
Qed.

(** X7: [Pin] and then [Unpin] of a loaded handle that holds its buffer: when
    the handle had readers already (fewer than the greatest 32-bit count,
    which [Pin] would wrap around), the manager is back to what it was;
    when it had none, the handle carries the next stamp and a node with
    that stamp is at the back of the queue. *)
Theorem Pin_then_Unpin_restores (a : nat) (h : BlockHandle) (s : BufferManager) :
  lock a s = Some h → state h = BLOCK_LOADED → is_Some (buffer h) →
  (0 < readers h < 2 ^ 31 - 1 → (Pin a ;;; Unpin a) s = (Ret tt, s)) ∧
  (readers h = 0 →
   (Pin a ;;; Unpin a) s
   = (Ret tt,
      set_queue
        (queue s ++ [mkBufferEvictionNode a (idx_t (eviction_timestamp h + 1))])
        (set_heap
           (<[a := Some (with_eviction_timestamp
                           (idx_t (eviction_timestamp h + 1)) h)]> (heap s)) s))).
Proof.
  intros Hlock Hst Hbuf. pose proof (lock_lt _ _ _ Hlock) as Hlt.
  assert (Hpin : ∀ k : option nat → M unit,
            (x <- Pin a ;; k x) s
            = k (Some a)
                (set_heap (<[a := Some (with_readers (int32_t (readers h + 1)) h)]> (heap s)) s)).
  { intros k. unfold bind at 1. rewrite (Pin_loaded a h) by done.
    by rewrite bool_decide_eq_true_2, andb_false_r. }
  split.
  - intros Hr. rewrite Hpin. rewrite (int32_t_small (readers h + 1)) by lia.
    unfold Unpin, bind at 1, deref.
    rewrite lock_set_heap_eq by done. unfold bind at 1.
    rewrite D_ASSERT_holds by (apply Z.ltb_lt; simpl; lia).
    unfold bind at 1, store, modify. simpl.
    replace (readers h + 1 - 1) with (readers h) by lia.
    rewrite (int32_t_small (readers h)) by lia.
    rewrite (proj2 (Z.eqb_neq _ _)) by lia. simpl.
    rewrite list_insert_insert_eq. f_equal.
    destruct s as [hp ? ? ? ? ? ? ? ?]. unfold set_heap. simpl in *. f_equal.
    apply list_insert_id. apply lock_Some in Hlock. simpl in Hlock.
    rewrite Hlock. by destruct h.
  - intros Hr. rewrite Hpin. rewrite Hr.
    change (int32_t (0 + 1)) with 1.
    unfold Unpin, bind at 1, deref.
    rewrite lock_set_heap_eq by done. unfold bind at 1.
    rewrite D_ASSERT_holds by done.
    unfold bind at 1, store, modify. simpl.
    change (int32_t (1 - 1)) with 0. simpl.
    unfold bind, store, modify. simpl. rewrite !list_insert_insert_eq.
    collapse_heap. do 5 f_equal. destruct h. simpl in *. by subst.
Qed.

(** ** From Unpin to eviction *)

Lemma Unload_returns a h s :
  lock a s = Some h → CanUnload h s = true →
  (DEBUG = true → BLOCK_SIZE ≤ memory_usage h) →
  (MAXIMUM_BLOCK <=? block_id h) && negb (can_destroy h) = false →
  Unload a s
  = (Ret tt,
     set_current_memory (idx_t (current_memory s - memory_usage h))
       (set_heap (<[a := Some (unloaded h)]> (heap s)) s)).
Proof.
  intros Hlock Hcan Hsize Hkeep. pose proof (CanUnload_loaded _ _ Hcan) as Hst.
  unfold Unload, bind at 1, deref. rewrite Hlock, Hst. simpl.
  unfold bind at 1, gets. simpl. rewrite Hcan.
  unfold bind at 1. rewrite D_ASSERT_holds by done.
  unfold bind at 1. rewrite D_ASSERT_passes by (intros Hd; apply Z.leb_le; auto).
  unfold bind at 1, store, modify. simpl. rewrite Hkeep.
  unfold bind, store, modify. simpl. unfold unloaded.
  by rewrite list_insert_insert_eq.
Qed.

Lemma evict_node_current node h s :
  lock (handle node) s = Some h → Node_CanUnload node h s = true →
  evict_node node s = Unload (handle node) s.
Proof.
  intros Hlock Hcan. unfold evict_node, bind, gets. simpl.
  rewrite Hlock, Hcan. simpl. by rewrite ?Hcan.
Qed.

(** X8: The last [Unpin] of a loaded block makes it evictable: it puts a node
    with the new stamp of the handle in the queue, and an eviction that
    finds the counter above its limit and this node in front unloads the
    block (one that needs no spilling: a persistent or a destroyable one)
    and releases its memory_usage. *)
Theorem unpinned_block_is_evicted (a : nat) (h : BlockHandle) (s : BufferManager)
    (limit : Z) :
  lock a s = Some h → state h = BLOCK_LOADED → readers h = 1 →
  block_id h < MAXIMUM_BLOCK ∨ can_destroy h = true →
  (DEBUG = true → BLOCK_SIZE ≤ memory_usage h) →
  queue s = [] →
  0 ≤ current_memory s < 2 ^ 64 → limit < current_memory s →
  ∃ s1 s2,
    Unpin a s = (Ret tt, s1) ∧
    queue s1 = [mkBufferEvictionNode a (idx_t (eviction_timestamp h + 1))] ∧
    EvictBlocks 0 limit s1
      = (Ret (bool_decide (idx_t (current_memory s - memory_usage h) ≤ limit)), s2) ∧
    lock a s2
      = Some (unloaded (with_eviction_timestamp (idx_t (eviction_timestamp h + 1))
                          (with_readers 0 h))) ∧
    current_memory s2 = idx_t (current_memory s - memory_usage h) ∧
    queue s2 = [].
Proof.
  intros Hlock Hst Hr Hkind Hsize Hq Hrange Hover.
  pose proof (lock_lt _ _ _ Hlock) as Hlt.
  set (stamp := idx_t (eviction_timestamp h + 1)).
  set (h1 := with_eviction_timestamp stamp (with_readers 0 h)).
  set (node := mkBufferEvictionNode a stamp).
  set (s1 := set_queue [node] (set_heap (<[a := Some h1]> (heap s)) s)).
  assert (HUnpin : Unpin a s = (Ret tt, s1)).
  { unfold Unpin, bind at 1, deref. rewrite Hlock.
    unfold bind at 1. rewrite D_ASSERT_holds by (by rewrite Hr).
    unfold bind at 1, store, modify. simpl. rewrite Hr. simpl.
    unfold bind, store, modify. simpl.
    by rewrite list_insert_insert_eq, Hq. }
  assert (Hkeep : (MAXIMUM_BLOCK <=? block_id h1) && negb (can_destroy h1) = false).
  { simpl. destruct Hkind as [Hid| ->]; [|by rewrite andb_false_r].
    by rewrite (proj2 (Z.leb_gt _ _)). }
  set (s1' := set_queue [] s1).
  assert (Hlock1 : lock a s1' = Some h1) by (by apply lock_set_heap_eq).
  assert (Hcan : CanUnload h1 s1' = true).
  { unfold CanUnload. simpl. rewrite Hst. simpl. simpl in Hkeep. by rewrite Hkeep. }
  assert (Hnode : evict_node node s1'
                  = (Ret tt,
                     set_current_memory (idx_t (current_memory s - memory_usage h))
                       (set_heap (<[a := Some (unloaded h1)]> (heap s1')) s1'))).
  { rewrite (evict_node_current node h1), (Unload_returns a h1); try done.
    unfold Node_CanUnload. simpl. by rewrite Z.eqb_refl. }
  assert (Hloop : evict_loop 0 limit [node] s1
                  = (Ret (bool_decide (idx_t (current_memory s - memory_usage h) ≤ limit)),
                     set_current_memory (idx_t (current_memory s - memory_usage h))
                       (set_heap (<[a := Some (unloaded h1)]> (heap s1')) s1'))).
  { simpl. unfold bind at 1, gets. simpl.
    rewrite (proj2 (Z.ltb_lt _ _)) by done.
    unfold bind at 1, modify. simpl. unfold bind at 1.
    fold s1'. rewrite Hnode. unfold bind, gets, modify. simpl.
    case_bool_decide as Hle.
    - by rewrite (proj2 (Z.ltb_ge _ _)).
    - rewrite (proj2 (Z.ltb_lt _ _)) by lia.
      rewrite Z.sub_0_r. unfold set_current_memory. simpl.
      rewrite (idx_t_small (idx_t _)) by apply idx_t_range. reflexivity. }
  exists s1, (set_current_memory (idx_t (current_memory s - memory_usage h))
                (set_heap (<[a := Some (unloaded h1)]> (heap s1')) s1')).
  split; [done|]. split; [done|]. split; [|split; [|done]].
  - unfold EvictBlocks, bind, gets, modify. simpl (queue _).
    replace (set_current_memory (idx_t (current_memory s1 + 0)) s1) with s1.
    + exact Hloop.
    + unfold s1, set_current_memory. simpl.
      by rewrite Z.add_0_r, idx_t_small.
  - apply lock_Some. simpl. apply list_lookup_insert_eq. by rewrite length_insert.
Qed.

(** ** Destruction *)

Lemma String_length_app (s1 s2 : string) :
  String.length (s1 +:+ s2) = (String.length s1 + String.length s2)%nat.
Proof.
  induction s1 as [|c s1 IH]; [done|].
  change (String c s1 +:+ s2) with (String c (s1 +:+ s2)). simpl. by rewrite IH.
Qed.

Lemma String_app_inj_r (t s1 s2 : string) : s1 +:+ t = s2 +:+ t → s1 = s2.
Proof.
  revert s2. induction s1 as [|c s1 IH]; intros [|c' s2] Heq; [done| | |].
  - apply (f_equal String.length) in Heq. rewrite !String_length_app in Heq.
    simpl in Heq. lia.
  - apply (f_equal String.length) in Heq. rewrite !String_length_app in Heq.
    simpl in Heq. lia.
  - change (String c (s1 +:+ t) = String c' (s2 +:+ t)) in Heq.
    injection Heq as -> Heq. f_equal. by apply IH.
Qed.

(** Two ids never share a temporary file. *)
Lemma GetTemporaryPath_inj id id' s :
  GetTemporaryPath id s = GetTemporaryPath id' s → id = id'.
Proof.
  unfold GetTemporaryPath. intros Heq.
  apply (inj (String.app _)) in Heq. apply (inj (String.app _)) in Heq.
  apply String_app_inj_r in Heq. by apply (inj pretty) in Heq.
Qed.

(** What the destructor leaves. *)
Lemma BlockHandle_destroy_returns a h s :
  lock a s = Some h →
  ∃ s', BlockHandle_destroy a s = (Ret tt, s') ∧
    heap s' = <[a := None]> (heap s) ∧
    current_memory s'
      = (if is_loaded (state h)
         then idx_t (current_memory s - memory_usage h) else current_memory s) ∧
    blocks s'
      = (if MAXIMUM_BLOCK <=? block_id h then blocks s
         else delete (block_id h) (blocks s)) ∧
    files s'
      = (if (MAXIMUM_BLOCK <=? block_id h) && negb (can_destroy h)
            && negb (bool_decide (temp_directory s = "")) && temp_directory_handle s
         then delete (GetTemporaryPath (block_id h) s) (files s) else files s) ∧
    queue s' = queue s ∧ maximum_memory s' = maximum_memory s ∧
    temporary_id s' = temporary_id s ∧ temp_directory s' = temp_directory s ∧
    temp_directory_handle s' = temp_directory_handle s.
Proof.
  intros Hlock. unfold BlockHandle_destroy, bind at 1, deref. rewrite Hlock.
  unfold bind at 1.
  destruct (is_loaded (state h)); simpl;
    unfold bind, UnregisterBlock, DeleteTemporaryFile, bind, gets, modify; simpl;
    destruct (MAXIMUM_BLOCK <=? block_id h); simpl;
    try (eexists; split; [reflexivity|]; simpl;
         rewrite ?list_insert_insert_eq; by repeat split);
    destruct (can_destroy h); simpl;
    try (eexists; split; [reflexivity|]; simpl;
         rewrite ?list_insert_insert_eq; by repeat split);
    case_bool_decide; simpl;
    try (eexists; split; [reflexivity|]; simpl;
         rewrite ?list_insert_insert_eq; by repeat split);
    destruct (temp_directory_handle s) eqn:Hcreated; simpl;
    eexists; (split; [reflexivity|]); simpl;
    rewrite ?list_insert_insert_eq; by repeat split.
Qed.

(** X9: Dropping the last reference to a live handle always succeeds: the
    handle is gone and no other handle is touched; the counter gives back
    its memory_usage if it was LOADED and is unchanged if it was not; a
    persistent id leaves the registry; the queue keeps its nodes, and the
    nodes of the destroyed handle are skipped by the eviction loop from
    then on. *)
Theorem BlockHandle_destroy_releases (a : nat) (h : BlockHandle) (s : BufferManager) :
  lock a s = Some h →
  ∃ s', BlockHandle_destroy a s = (Ret tt, s') ∧
    lock a s' = None ∧
    (∀ a', a' ≠ a → lock a' s' = lock a' s) ∧
    current_memory s'
      = (if is_loaded (state h)
         then idx_t (current_memory s - memory_usage h) else current_memory s) ∧
    (block_id h < MAXIMUM_BLOCK → blocks s' !! block_id h = None) ∧
    queue s' = queue s ∧
    (∀ node, handle node = a → evict_node node s' = (Ret tt, s')).
Proof.
  intros Hlock. pose proof (lock_lt _ _ _ Hlock) as Hlt.
  destruct (BlockHandle_destroy_returns a h s Hlock)
    as (s' & Heq & Hheap & Hcur & Hblocks & _ & Hqueue & _).
  assert (Hnone : lock a s' = None).
  { unfold lock. rewrite Hheap. by rewrite list_lookup_insert_eq. }
  exists s'. split; [done|]. split; [done|]. split; [|split; [done|split; [|split]]].
  - intros a' Hne. unfold lock. rewrite Hheap. by rewrite list_lookup_insert_ne.
  - intros Hid. rewrite Hblocks, (proj2 (Z.leb_gt _ _)) by done.
    apply lookup_delete_eq.
  - done.
  - intros node <-. unfold evict_node, bind, gets. simpl. by rewrite Hnone.
Qed.

(** X10: The destructor and the temporary files: the file of a block that may
    have been spilled (an anonymous block that cannot be destroyed, the
    temporary directory being in use) is deleted; the files of all other
    ids are kept; and destroying a persistent or a destroyable block
    deletes nothing. *)
Theorem BlockHandle_destroy_deletes_own_file (a : nat) (h : BlockHandle)
    (s : BufferManager) :
  lock a s = Some h →
  (MAXIMUM_BLOCK ≤ block_id h → can_destroy h = false →
   temp_directory s ≠ "" → temp_directory_handle s = true →
   files (BlockHandle_destroy a s).2 !! GetTemporaryPath (block_id h) s = None) ∧
  (∀ id, id ≠ block_id h →
     files (BlockHandle_destroy a s).2 !! GetTemporaryPath id s
     = files s !! GetTemporaryPath id s) ∧
  (block_id h < MAXIMUM_BLOCK ∨ can_destroy h = true →
   files (BlockHandle_destroy a s).2 = files s).
Proof.
  intros Hlock.
  destruct (BlockHandle_destroy_returns a h s Hlock)
    as (s' & -> & _ & _ & _ & Hfiles & _).
  simpl. rewrite Hfiles. split; [|split].
  - intros Hid Hcd Hdir Hcreated.
    rewrite (proj2 (Z.leb_le _ _)), Hcd, Hcreated by done.
    rewrite bool_decide_eq_false_2 by done. simpl. apply lookup_delete_eq.
  - intros id Hne. destruct (_ && _); [|done].
    apply lookup_delete_ne. intros Heq. by apply GetTemporaryPath_inj in Heq.
  - intros [Hid| ->]; [|by rewrite andb_false_r].
    by rewrite (proj2 (Z.leb_gt _ _)).
Qed.

(** ** Temporary files of different blocks *)

(** X11: Buffers with different ids are written to different files: after
    writing one and then the other, reading the first id still returns the
    size and the bytes of the first buffer. *)
Theorem temporary_files_do_not_collide (b1 b2 : FileBuffer) (s : BufferManager) :
  buffer_id b1 ≠ buffer_id b2 →
  temp_directory s ≠ "" →
  accepts_spill (buffer_id b1) s → accepts_spill (buffer_id b2) s →
  0 ≤ buffer_size b1 < 2 ^ 64 →
  length (buffer_data b1) = Z.to_nat (buffer_size b1) →
  (DEBUG = true → BLOCK_SIZE ≤ buffer_size b1 ∧ BLOCK_SIZE ≤ buffer_size b2) →
  ∃ s2 b',
    (WriteTemporaryBuffer b1 ;;; WriteTemporaryBuffer b2) s = (Ret tt, s2) ∧
    ReadTemporaryBuffer (buffer_id b1) s2 = (Ret b', s2) ∧
    buffer_size b' = buffer_size b1 ∧
    buffer_data b' = buffer_data b1.
Proof.
  intros Hne Hdir Hfs1 Hfs2 Hsize Hlen Hassert.
  destruct (WriteTemporaryBuffer_returns b1 s Hdir Hfs1 (λ Hd, proj1 (Hassert Hd)))
    as [rest1 Hw1].
  set (s1 := set_files _ _) in Hw1.
  assert (Hfs2' : accepts_spill (buffer_id b2) s1).
  { destruct Hfs2 as (_ & Hfs2). split; [done|exact Hfs2]. }
  destruct (WriteTemporaryBuffer_returns b2 s1 Hdir Hfs2' (λ Hd, proj2 (Hassert Hd)))
    as [rest2 Hw2].
  set (s2 := set_files _ _) in Hw2.
  set (header := encode_le sizeof_idx_t (buffer_size b1)) in *.
  exists s2. eexists. split; [|split; [|split]].
  - unfold bind. by rewrite Hw1.
  - apply (ReadTemporaryBuffer_returns _ _ header (buffer_data b1) rest1);
      [done|done| |apply length_encode_le|].
    + unfold s2. simpl. rewrite lookup_insert_ne.
      * apply lookup_insert_eq.
      * intros Heq. apply (GetTemporaryPath_inj _ _ s) in Heq. done.
    + unfold header. by rewrite decode_encode_size.
  - simpl. unfold header. by apply decode_encode_size.
  - done.
Qed.

(** ** The temporary directory, once used *)

#[local] Instance directory_fixed_preorder : PreOrder directory_fixed.
Proof.
  split; [by intros s|].
  intros s1 s2 s3 H1 H2 Hc. destruct (H1 Hc) as [Hc2 Hd2].
  destruct (H2 Hc2) as [Hc3 Hd3]. split; [done|congruence].
Qed.

Lemma preserves_deref R `{!PreOrder R} a : preserves R (deref a).
Proof. intros s. unfold deref. destruct (lock a s); simpl; reflexivity. Qed.

Lemma make_shared_fixed h : preserves directory_fixed (make_shared h).
Proof. by intros s Hc. Qed.

Create HintDb directory discriminated.

(** Syntax-directed proofs that a call keeps the directory. *)
Ltac fixed_step :=
  first
    [ apply preserves_ret; apply _
    | apply preserves_throw; apply _
    | apply preserves_gets; apply _
    | apply preserves_D_ASSERT; apply _
    | apply preserves_deref; apply _
    | apply make_shared_fixed
    | solve [auto with directory nocore]
    | apply preserves_modify; intros ? ?; done
    | apply preserves_bind; [apply _| |intros ?]
    | match goal with
      | |- preserves _ (if ?b then _ else _) => destruct b
      | |- preserves _ (match ?x with _ => _ end) => destruct x
      | |- preserves _ (match ?x with _ => _ end _) => destruct x
      end ].

Lemma WriteTemporaryBuffer_fixed b : preserves directory_fixed (WriteTemporaryBuffer b).
Proof.
  intros s Hcreated.
  destruct (WriteTemporaryBuffer_spilled b s) as (_ & _ & _ & _ & Hdir & _ & _ & Hkept).
  split; [by apply Hkept|done].
Qed.

Lemma ReadTemporaryBuffer_fixed id : preserves directory_fixed (ReadTemporaryBuffer id).
Proof. intros s. rewrite ReadTemporaryBuffer_state. reflexivity. Qed.

Lemma DeleteTemporaryFile_fixed id : preserves directory_fixed (DeleteTemporaryFile id).
Proof. unfold DeleteTemporaryFile. repeat fixed_step. Qed.

#[local] Hint Resolve WriteTemporaryBuffer_fixed ReadTemporaryBuffer_fixed
  DeleteTemporaryFile_fixed : directory.

Lemma Unload_fixed a : preserves directory_fixed (Unload a).
Proof. unfold Unload, store. repeat fixed_step. Qed.

Lemma Load_fixed a : preserves directory_fixed (Load a).
Proof. unfold Load, store. repeat fixed_step. Qed.

#[local] Hint Resolve Unload_fixed Load_fixed : directory.

Lemma evict_node_fixed node : preserves directory_fixed (evict_node node).
Proof. unfold evict_node. repeat fixed_step. Qed.

#[local] Hint Resolve evict_node_fixed : directory.

Lemma evict_loop_fixed extra limit q :
  preserves directory_fixed (evict_loop extra limit q).
Proof. induction q as [|node q IH]; simpl; repeat fixed_step. Qed.

#[local] Hint Resolve evict_loop_fixed : directory.

Lemma EvictBlocks_fixed extra limit : preserves directory_fixed (EvictBlocks extra limit).
Proof. unfold EvictBlocks. repeat fixed_step. Qed.

#[local] Hint Resolve EvictBlocks_fixed : directory.

Lemma Pin_fixed a : preserves directory_fixed (Pin a).
Proof. unfold Pin, store. repeat fixed_step. Qed.

Lemma RegisterMemory_fixed alloc_size cd :
  preserves directory_fixed (RegisterMemory alloc_size cd).
Proof. unfold RegisterMemory, BlockHandle_new_loaded. repeat fixed_step. Qed.

#[local] Hint Resolve Pin_fixed RegisterMemory_fixed : directory.

Lemma perform_fixed o : preserves directory_fixed (perform o).
Proof.
  destruct o; simpl.
  - unfold RegisterBlock. repeat fixed_step.
  - repeat fixed_step.
  - unfold Allocate. repeat fixed_step.
  - unfold ReAllocate, store. repeat fixed_step.
  - repeat fixed_step.
  - unfold Unpin, store. repeat fixed_step.
  - repeat fixed_step.
  - unfold SetLimit. repeat fixed_step.
  - intros s Hc. unfold SetTemporaryDirectory, bind, gets. simpl. by rewrite Hc.
  - unfold BlockHandle_destroy, UnregisterBlock, store. repeat fixed_step.
Qed.

(** X12: Once the temporary directory has been created (which the first spill
    does), no sequence of calls changes or releases it: after any calls,
    returning or throwing, temp_directory is what it was and
    [SetTemporaryDirectory] is refused with NotImplementedException,
    leaving the manager as it is. *)
Theorem temporary_directory_is_fixed_once_used (ops : list operation)
    (s : BufferManager) :
  temp_directory_handle s = true →
  temp_directory (run ops s) = temp_directory s ∧
  temp_directory_handle (run ops s) = true ∧
  ∀ d, SetTemporaryDirectory d (run ops s)
       = (Throw NotImplementedException, run ops s).
Proof.
  intros Hc.
  assert (Hrun : directory_fixed s (run ops s)).
  { clear Hc. revert s. induction ops as [|o ops IH]; intros s; simpl; [done|].
    etransitivity; [apply perform_fixed|apply IH]. }
  destruct (Hrun Hc) as [Hc' Hd']. split; [done|]. split; [done|].
  intros d. unfold SetTemporaryDirectory, bind, gets. simpl. by rewrite Hc'.
Qed.

(** ** Resizing a pinned buffer *)

(** [ReAllocate], when it returns. *)
Lemma ReAllocate_returns a alloc_size s s' :
  ReAllocate a alloc_size s = (Ret tt, s') →
  ∃ h s1 h1 b,
    lock a s = Some h ∧
    (if 0 <? int64_t (idx_t (alloc_size + BLOCK_HEADER_SIZE) - memory_usage h)
     then EvictBlocks
            (int64_t (idx_t (alloc_size + BLOCK_HEADER_SIZE) - memory_usage h))
            (maximum_memory s) s = (Ret true, s1)
     else s1 = s) ∧
    lock a s1 = Some h1 ∧ buffer h1 = Some b ∧
    heap s'
      = <[a := Some (with_memory_usage (idx_t (alloc_size + BLOCK_HEADER_SIZE))
                       (with_buffer (Some (Resize alloc_size b)) h1))]> (heap s1) ∧
    current_memory s'
      = (if int64_t (idx_t (alloc_size + BLOCK_HEADER_SIZE) - memory_usage h) <? 0
         then idx_t (current_memory s1
                     + int64_t (idx_t (alloc_size + BLOCK_HEADER_SIZE) - memory_usage h))
         else current_memory s1) ∧
    queue s' = queue s1 ∧ maximum_memory s' = maximum_memory s1.
Proof.
  unfold ReAllocate, bind at 1, D_ASSERT.
  destruct (DEBUG && _); simpl; [done|].
  unfold bind at 1, deref.
  destruct (lock a s) as [h|] eqn:Hlock; simpl; [|done].
  unfold bind at 1. destruct (DEBUG && _); simpl; [done|].
  set (total := idx_t _). set (required := int64_t _).
  assert (Hrest : ∀ s1,
            (h1 <- deref a ;;
             match buffer h1 with
             | None => throw NullDereference
             | Some b =>
                 store a (with_buffer (Some (Resize alloc_size b)) h1) ;;;
                 (if required <? 0 then
                    modify (λ s, set_current_memory
                                   (idx_t (current_memory s + required)) s)
                  else ret tt) ;;;
                 h2 <- deref a ;;
                 store a (with_memory_usage total h2)
             end) s1 = (Ret tt, s') →
            ∃ h1 b, lock a s1 = Some h1 ∧ buffer h1 = Some b ∧
              heap s' = <[a := Some (with_memory_usage total
                                       (with_buffer (Some (Resize alloc_size b)) h1))]>
                          (heap s1) ∧
              current_memory s'
                = (if required <? 0 then idx_t (current_memory s1 + required)
                   else current_memory s1) ∧
              queue s' = queue s1 ∧ maximum_memory s' = maximum_memory s1).
  { intros s1. unfold bind at 1, deref.
    destruct (lock a s1) as [h1|] eqn:Hlock1; simpl; [|done].
    destruct (buffer h1) as [b|] eqn:Hbuf; simpl; [|done].
    pose proof (lock_lt _ _ _ Hlock1) as Hlt.
    set (h2 := with_buffer (Some (Resize alloc_size b)) h1).
    assert (Hlock2 : ∀ x, lock a (set_current_memory x
                                    (set_heap (<[a := Some h2]> (heap s1)) s1))
                          = Some h2)
      by (intros x; by apply (lock_set_heap_eq a (Some h2) s1)).
    assert (Hlock2' : lock a (set_heap (<[a := Some h2]> (heap s1)) s1) = Some h2)
      by (by apply (lock_set_heap_eq a (Some h2) s1)).
    unfold bind at 1, store, modify. simpl. unfold bind at 1.
    destruct (required <? 0); simpl; unfold bind, deref.
    - rewrite Hlock2. simpl. intros [= <-]. exists h1, b. simpl.
      by rewrite list_insert_insert_eq.
    - rewrite Hlock2'. simpl. intros [= <-]. exists h1, b. simpl.
      by rewrite list_insert_insert_eq. }
  unfold bind at 1.
  destruct (0 <? required) eqn:Hpos.
  - unfold bind at 1, gets. simpl. unfold bind at 1.
    destruct (EvictBlocks required (maximum_memory s) s) as [[ok|e] s1] eqn:Hev;
      simpl; [|done].
    destruct ok; simpl; [|done].
    intros Hr. apply Hrest in Hr as (h1 & b & ?). exists h, s1, h1, b.
    fold required. by rewrite Hpos.
  - simpl. intros Hr. apply Hrest in Hr as (h1 & b & ?). exists h, s, h1, b.
    fold required. by rewrite Hpos.
Qed.

(** X13: [ReAllocate] of a pinned handle, when it returns: the handle accounts
    the new size plus the block header and holds its buffer resized, and
    nothing else of it changes. A request that does not grow the block
    evicts nothing: the queue and the other handles are left alone and the
    counter comes down by the difference. A request that grows it has
    evicted until the counter, the growth included, is within the limit. *)
Theorem ReAllocate_resizes (a : nat) (h : BlockHandle) (alloc_size : Z)
    (s s' : BufferManager) :
  lock a s = Some h → 0 < readers h →
  ReAllocate a alloc_size s = (Ret tt, s') →
  ∃ b, buffer h = Some b ∧
    lock a s'
      = Some (with_memory_usage (idx_t (alloc_size + BLOCK_HEADER_SIZE))
                (with_buffer (Some (Resize alloc_size b)) h)) ∧
    (int64_t (idx_t (alloc_size + BLOCK_HEADER_SIZE) - memory_usage h) ≤ 0 →
     queue s' = queue s ∧
     (∀ a', a' ≠ a → lock a' s' = lock a' s) ∧
     current_memory s'
       = (if int64_t (idx_t (alloc_size + BLOCK_HEADER_SIZE) - memory_usage h) <? 0
          then idx_t (current_memory s
                      + int64_t (idx_t (alloc_size + BLOCK_HEADER_SIZE) - memory_usage h))
          else current_memory s)) ∧
    (0 < int64_t (idx_t (alloc_size + BLOCK_HEADER_SIZE) - memory_usage h) →
     current_memory s' ≤ maximum_memory s').
Proof.
  intros Hlock Hr Hre.
  apply ReAllocate_returns in Hre
    as (h0 & s1 & h1 & b & Hlock0 & Hs1 & Hlock1 & Hbuf & Hheap & Hcur & Hq & Hmax).
  assert (h0 = h) as -> by congruence.
  set (required := int64_t _) in *.
  assert (Hsame : h1 = h).
  { destruct (0 <? required); [|congruence].
    pose proof (EvictBlocks_rel required (maximum_memory s) s) as Hrel.
    rewrite Hs1 in Hrel. destruct Hrel as (_ & _ & Hrel).
    specialize (Hrel a). simpl in Hrel. rewrite Hlock, Hlock1 in Hrel.
    destruct Hrel as [->|(Hcan & _)]; [done|].
    apply CanUnload_readers in Hcan. lia. }
  subst h1. exists b. split; [done|]. split; [|split].
  - apply lock_Some. rewrite Hheap. apply list_lookup_insert_eq.
    eauto using lock_lt.
  - intros Hle. rewrite (proj2 (Z.ltb_ge _ _)) in Hs1 by done. subst s1.
    split; [done|]. split; [|done].
    intros a' Hne. unfold lock. rewrite Hheap. by rewrite list_lookup_insert_ne.
  - intros Hpos. rewrite (proj2 (Z.ltb_lt _ _)) in Hs1 by done.
    rewrite (proj2 (Z.ltb_ge _ _)) in Hcur by lia.
    pose proof (EvictBlocks_maximum_memory required (maximum_memory s) s) as Hm.
    rewrite Hs1 in Hm. apply EvictBlocks_true in Hs1. simpl in Hm. lia.
Qed.

(** ** The counter and the loaded handles *)

(** A node whose processing returns takes from the counter what it takes
    from the loaded handles. *)
Lemma evict_node_slack extra node s s' :
  accounted extra s → evict_node node s = (Ret tt, s') →
  current_memory s' - loaded_memory s' = current_memory s - loaded_memory s.
Proof.
  intros (Hextra & Hsum & Hrange & Hall).
  destruct (evict_node_cases node s) as [->|(h & Hlock & Hcan & ->)].
  - by intros [= <-].
  - apply Node_CanUnload_true in Hcan as [_ Hcan].
    pose proof (CanUnload_loaded _ _ Hcan) as Hst.
    destruct (Unload_loaded _ _ _ Hlock Hst) as (r & s1 & -> & _ & _ & Hr).
    intros [= -> <-]. destruct Hr as [Hheap Hcur].
    pose proof (charge_le_loaded_memory _ _ _ Hall Hlock) as Hle.
    pose proof (loaded_memory_insert _ _ _ _ _ Hlock Hheap) as Hl.
    pose proof (proj1 (Hall _ _ Hlock)) as Hnonneg.
    simpl in Hle, Hl. rewrite Hst in Hle, Hl. simpl in Hle, Hl.
    rewrite idx_t_small in Hcur by lia. lia.
Qed.

Lemma evict_loop_slack extra limit q s ok s' :
  accounted extra s → evict_loop extra limit q s = (Ret ok, s') →
  current_memory s' - loaded_memory s'
  = current_memory s - loaded_memory s - (if ok then 0 else extra).
Proof.
  revert s. induction q as [|node q IH]; intros s Hacc; simpl;
    unfold bind, gets; simpl.
  - destruct (limit <? current_memory s) eqn:Hlt.
    + intros [= <- <-]. destruct Hacc as (Hextra & Hsum & Hrange & Hall).
      pose proof (loaded_memory_nonneg _ Hall) as Hnn.
      simpl. rewrite idx_t_small by lia.
      change (loaded_memory (set_current_memory _ s)) with (loaded_memory s). lia.
    + intros [= <- <-]. lia.
  - destruct (limit <? current_memory s) eqn:Hlt.
    + pose proof (evict_node_accounted extra node (set_queue q s)) as Hnode.
      pose proof (evict_node_slack extra node (set_queue q s)) as Hslack.
      destruct (evict_node node (set_queue q s)) as [[[]|e] s1]; [|done].
      destruct (Hnode s1 Hacc eq_refl) as [Hacc1 _].
      specialize (Hslack s1 Hacc eq_refl). simpl in Hslack.
      change (loaded_memory (set_queue q s)) with (loaded_memory s) in Hslack.
      intros Hloop. rewrite (IH _ Hacc1 Hloop). lia.
    + intros [= <- <-]. lia.
Qed.

(** [EvictBlocks], when it returns: the counter exceeds the memory of the
    loaded handles by what it did before, plus the reservation kept. *)
Lemma EvictBlocks_slack extra limit s ok s' :
  accounted 0 s → 0 ≤ extra → current_memory s + extra < 2 ^ 64 →
  EvictBlocks extra limit s = (Ret ok, s') →
  current_memory s' - loaded_memory s'
  = current_memory s - loaded_memory s + (if ok then extra else 0).
Proof.
  intros (_ & Hsum & Hrange & Hall) Hextra Hfit.
  unfold EvictBlocks, bind, gets, modify. simpl. intros Hloop.
  pose proof (loaded_memory_nonneg _ Hall) as Hnn.
  apply evict_loop_slack in Hloop.
  - simpl in Hloop. rewrite idx_t_small in Hloop by lia.
    change (loaded_memory (set_current_memory _ s)) with (loaded_memory s) in Hloop.
    destruct ok; lia.
  - apply accounted_intro; simpl; rewrite ?idx_t_small by lia; [done| |lia|done].
    change (loaded_memory (set_current_memory _ s)) with (loaded_memory s). lia.
Qed.

(** [Pin], when it returns. *)
Lemma Pin_returns a h s t s' :
  lock a s = Some h → Pin a s = (Ret t, s') →
  (state h = BLOCK_LOADED ∧
   s' = set_heap (<[a := Some (with_readers (int32_t (readers h + 1)) h)]> (heap s)) s) ∨
  (state h = BLOCK_UNLOADED ∧
   ∃ s1 b,
     EvictBlocks (memory_usage h) (maximum_memory s) s = (Ret true, s1) ∧
     lock a s1 = Some h ∧
     heap s' = <[a := Some (with_buffer b (with_state BLOCK_LOADED (with_readers 1 h)))]>
                 (heap s1) ∧
     current_memory s' = current_memory s1).
Proof.
  intros Hlock Hpin. destruct (state h) eqn:Hst.
  - right. split; [done|]. revert Hpin.
    unfold Pin, bind at 1, deref. rewrite Hlock, Hst. simpl.
    unfold bind at 1, gets. simpl. unfold bind at 1.
    pose proof (EvictBlocks_rel (memory_usage h) (maximum_memory s) s) as Hrel.
    destruct (EvictBlocks _ _ s) as [[ok|e] s1]; simpl in *; [|done].
    destruct ok; simpl; [|done].
    assert (Hlock1 : lock a s1 = Some h).
    { destruct Hrel as (_ & _ & Hrel). specialize (Hrel a). rewrite Hlock in Hrel.
      destruct (lock a s1) as [h1|]; [|done].
      destruct Hrel as [->|(Hcan & _)]; [done|].
      apply CanUnload_loaded in Hcan. congruence. }
    pose proof (lock_lt _ _ _ Hlock1) as Hlt1.
    unfold bind at 1, deref. rewrite Hlock1, Hst. simpl.
    unfold bind at 1, D_ASSERT. destruct (DEBUG && _); simpl; [done|].
    unfold bind at 1, store, modify. simpl.
    set (s2 := set_heap _ s1). intros Hload.
    apply (Load_returns a s2 (with_readers 1 h)) in Hload
      as (Hcur & _ & [[Hbad _]|[_ [b Hheap]]]);
      [simpl in Hbad; congruence| |by apply lock_set_heap_eq].
    exists s1, b. split; [done|]. split; [done|]. split; [|done].
    rewrite Hheap. unfold s2. simpl. by rewrite list_insert_insert_eq.
  - left. split; [done|]. revert Hpin. rewrite (Pin_loaded a h) by done.
    by intros [= _ <-].
Qed.

Lemma lock_released a a' h (s : BufferManager) :
  lock a' (set_heap (<[a := None]> (heap s)) s) = Some h → a' ≠ a ∧ lock a' s = Some h.
Proof.
  destruct (decide (a = a')) as [<-|Hne].
  - destruct (decide (a < length (heap s))%nat).
    + by rewrite lock_set_heap_eq.
    + rewrite lock_beyond; [done|]. simpl. rewrite length_insert. lia.
  - rewrite lock_set_heap_ne by done. done.
Qed.

Lemma charge_with_readers r h : charge (Some (with_readers r h)) = charge (Some h).
Proof. done. Qed.

(** A returning call that fits and reserves nothing itself keeps the
    counter equal to the memory of the loaded handles. *)
Lemma perform_balanced o s :
  budget_inv s → balanced s → fits o s → direct_reservation o = 0 →
  returned (perform o s) → balanced (perform o s).2.
Proof.
  intros [Hacc Hle] Hbal Hfit Hdirect. unfold returned, balanced in *.
  pose proof Hacc as (_ & Hsum & Hrange & Hall).
  pose proof (loaded_memory_nonneg _ Hall) as Hnn.
  destruct o; simpl in *; rewrite ?discard_result_state.
  - (* RegisterBlock *)
    intros _.
    destruct (RegisterBlock_cases id s) as [(a & _ & ->)|[_ ->]]; [done|].
    erewrite (loaded_memory_appended s); [|reflexivity]. simpl. lia.
  - (* RegisterMemory *)
    unfold bind.
    destruct (RegisterMemory alloc_size can_destroy_p s) as [[a|e] s'] eqn:Hrm;
      simpl; [|done].
    intros _. apply RegisterMemory_returns in Hrm as (s1 & Hev & -> & ->).
    destruct Hfit as [Hsize Hfit].
    rewrite (idx_t_small (alloc_size + BLOCK_HEADER_SIZE)) in * by lia.
    apply EvictBlocks_slack in Hev; [|done|lia|lia].
    erewrite (loaded_memory_appended s1); [|reflexivity]. simpl. lia.
  - (* Allocate *)
    unfold bind at 1.
    destruct (Allocate alloc_size s) as [[t|e] s'] eqn:Hal; simpl; [|done].
    intros _. revert Hal. unfold Allocate, bind.
    destruct (RegisterMemory alloc_size true s) as [[a|e] s0] eqn:Hrm; [|done].
    apply RegisterMemory_returns in Hrm as (s1 & Hev & -> & ->).
    destruct Hfit as [Hsize Hfit].
    rewrite (idx_t_small (alloc_size + BLOCK_HEADER_SIZE)) in * by lia.
    apply EvictBlocks_slack in Hev; [|done|lia|lia].
    set (id := int64_t (temporary_id s1 + 1)).
    set (hnew := mkBlockHandle BLOCK_LOADED 0 id _ 0 true _).
    set (s2 := set_heap (heap s1 ++ [Some hnew]) (set_temporary_id id s1)).
    assert (Hnew : lock (length (heap s1)) s2 = Some hnew)
      by apply (lock_make_shared_new hnew (set_temporary_id id s1)).
    rewrite (Pin_loaded _ hnew) by done. intros [= _ <-].
    rewrite (loaded_memory_insert s2 _ _ hnew (with_readers (int32_t (readers hnew + 1)) hnew))
      by done.
    rewrite (loaded_memory_appended s1 s2 hnew) by done. simpl. lia.
  - (* ReAllocate *)
    destruct (ReAllocate a alloc_size s) as [[[]|e] s'] eqn:Hre; simpl; [|done].
    intros _. apply ReAllocate_returns in Hre
      as (h & s1 & h1 & b & Hlock & Hs1 & Hlock1 & Hbuf & Hheap & Hcur & _).
    destruct (Hfit h Hlock) as (Htotal & Hdiff & Hfits).
    rewrite (idx_t_small (alloc_size + BLOCK_HEADER_SIZE)) in * by done.
    rewrite (int64_t_small (alloc_size + BLOCK_HEADER_SIZE - memory_usage h)) in *
      by done.
    set (T := alloc_size + BLOCK_HEADER_SIZE) in *.
    pose proof (proj1 (Hall a h Hlock)) as Husage.
    rewrite (loaded_memory_insert s1 s' a h1 _ Hlock1 Hheap). simpl.
    destruct (0 <? T - memory_usage h) eqn:Hpos.
    + apply Z.ltb_lt in Hpos.
      pose proof Hs1 as Hev.
      apply EvictBlocks_accounted in Hev as [Hrel (( _ & _ & _ & Hall1) & _)];
        [|done|lia|lia].
      apply EvictBlocks_slack in Hs1; [|done|lia|lia].
      pose proof (evict_rel_memory_usage _ _ _ _ _ Hrel Hlock Hlock1) as Hmu.
      assert (Hst1 : state h1 = BLOCK_LOADED)
        by (apply (Hall1 a h1 Hlock1); rewrite Hbuf; by eexists).
      rewrite Hst1. simpl. rewrite (proj2 (Z.ltb_ge _ _)) in Hcur by lia. lia.
    + apply Z.ltb_ge in Hpos. subst s1.
      assert (h1 = h) as -> by congruence.
      assert (Hst1 : state h = BLOCK_LOADED)
        by (apply (Hall a h Hlock); rewrite Hbuf; by eexists).
      pose proof (charge_le_loaded_memory _ _ _ Hall Hlock) as Hcharge.
      simpl in Hcharge. rewrite Hst1 in *. simpl in *.
      destruct (T - memory_usage h <? 0) eqn:Hneg.
      * rewrite idx_t_small in Hcur by lia. lia.
      * apply Z.ltb_ge in Hneg. lia.
  - (* Pin *)
    unfold bind. destruct (Pin a s) as [[t|e] s'] eqn:Hpin; simpl; [|done].
    intros _.
    destruct (lock a s) as [h|] eqn:Hlock.
    2: { revert Hpin. unfold Pin, bind, deref. by rewrite Hlock. }
    apply (Pin_returns a h) in Hpin
      as [[Hst ->]|(Hst & s1 & b & Hev & Hlock1 & Hheap & Hcur)]; [| |done].
    + erewrite loaded_memory_insert; [|exact Hlock|reflexivity].
      rewrite charge_with_readers. simpl. lia.
    + pose proof (proj1 (Hall a h Hlock)) as Husage.
      specialize (Hfit h eq_refl Hst).
      apply EvictBlocks_slack in Hev; [|done|lia|lia].
      rewrite (loaded_memory_insert s1 s' a h _ Hlock1 Hheap). simpl.
      rewrite Hst. simpl. lia.
  - (* Unpin *)
    destruct (Unpin a s) as [[[]|e] s'] eqn:Hun; simpl; [|done].
    intros _. revert Hun. unfold Unpin, bind at 1, deref.
    destruct (lock a s) as [h|] eqn:Hlock; simpl; [|done].
    unfold bind at 1, D_ASSERT. destruct (DEBUG && _); simpl; [done|].
    unfold bind at 1, store, modify. simpl.
    destruct (int32_t (readers h - 1) =? 0); simpl.
    + unfold bind, store, modify. simpl. intros [= <-].
      erewrite (loaded_memory_insert s _ a h); [|done|simpl; by rewrite list_insert_insert_eq].
      simpl. lia.
    + intros [= <-].
      erewrite (loaded_memory_insert s _ a h); [|done|reflexivity]. simpl. lia.
  - (* EvictBlocks *)
    unfold bind.
    destruct (EvictBlocks extra_memory memory_limit s) as [[ok|e] s'] eqn:Hev;
      simpl; [|done].
    intros _. subst extra_memory.
    apply EvictBlocks_slack in Hev; [|done|lia|lia]. destruct ok; lia.
  - (* SetLimit *)
    destruct (SetLimit limit s) as [[[]|e] s'] eqn:Hset; simpl; [|done].
    intros _. revert Hset. unfold SetLimit, bind at 1.
    destruct (EvictBlocks 0 limit s) as [[ok|e] s1] eqn:Hev; simpl; [|done].
    pose proof Hev as Hev'.
    apply EvictBlocks_accounted in Hev' as [_ Hres]; [|done|done|lia].
    apply EvictBlocks_slack in Hev; [|done|done|lia].
    destruct ok; simpl; [|done]. destruct Hres as [Hacc1 Hle1].
    unfold bind at 1, gets. simpl. unfold bind at 1, modify. simpl.
    unfold bind at 1.
    destruct (EvictBlocks 0 limit (set_maximum_memory limit s1))
      as [[ok2|e] s2] eqn:Hev2; simpl; [|done].
    apply EvictBlocks_slack in Hev2;
      [|done|done|destruct Hacc1 as (_ & _ & ? & _); simpl; lia].
    destruct ok2; simpl; [|done]. intros [= <-].
    change (loaded_memory (set_maximum_memory limit s1)) with (loaded_memory s1) in Hev2.
    simpl in Hev2. lia.
  - (* SetTemporaryDirectory *)
    unfold SetTemporaryDirectory, bind, gets. simpl.
    destruct (temp_directory_handle s); simpl; [done|]. intros _. done.
  - (* the destructor *)
    destruct (BlockHandle_destroy a s) as [[[]|e] s'] eqn:Hd; simpl; [|done].
    intros _.
    destruct (lock a s) as [h|] eqn:Hlock.
    2: { revert Hd. unfold BlockHandle_destroy, bind, deref. by rewrite Hlock. }
    destruct (BlockHandle_destroy_returns a h s Hlock)
      as (s'' & Heq & Hheap & Hcur & _).
    rewrite Hd in Heq. injection Heq as <-.
    pose proof (charge_le_loaded_memory _ _ _ Hall Hlock) as Hcharge.
    pose proof (proj1 (Hall a h Hlock)) as Husage.
    unfold loaded_memory at 1. rewrite Hheap.
    rewrite (total_charge_insert _ _ (Some h)) by (by apply lock_Some).
    unfold loaded_memory in *. simpl in *.
    destruct (is_loaded (state h)).
    + rewrite idx_t_small in Hcur by lia. lia.
    + lia.
Qed.

(** A direct call of [EvictBlocks] that reserves nothing and finds the
    counter within its limit does nothing. *)
Lemma EvictBlocks_zero_noop limit s :
  0 ≤ current_memory s < 2 ^ 64 →
  current_memory s ≤ limit →
  EvictBlocks 0 limit s = (Ret true, s).
Proof.
  intros Hrange Hle. unfold EvictBlocks, bind, gets, modify. simpl.
  rewrite evict_loop_satisfied; simpl.
  - rewrite Z.add_0_r, idx_t_small by done. by destruct s.
  - by rewrite Z.add_0_r, idx_t_small.
Qed.

(** A returning call whose sizes fit and that reserves nothing itself
    keeps the budget and the balance, whatever limit a direct call of
    [EvictBlocks] evicts against. *)
Lemma perform_balanced_budget o s :
  0 ≤ BLOCK_ALLOC_SIZE →
  budget_inv s → balanced s → sizes_fit o s → direct_reservation o = 0 →
  returned (perform o s) →
  budget_inv (perform o s).2 ∧ balanced (perform o s).2.
Proof.
  intros Hconst Hinv Hbal Hfit Hdirect Hret.
  pose proof Hinv as [(_ & Hsum & Hrange & Hall) Hle].
  pose proof (loaded_memory_nonneg _ Hall) as Hnn.
  assert (Hcases : fits o s ∨
            ∃ limit, o = OpEvictBlocks 0 limit ∧ maximum_memory s < limit).
  { destruct o; try (by left). simpl in Hdirect. subst extra_memory.
    destruct (decide (memory_limit ≤ maximum_memory s)).
    - left. simpl. lia.
    - right. exists memory_limit. split; [done|lia]. }
  destruct Hcases as [Hfits|(limit & -> & Hlimit)].
  - split; [by apply perform_budget|by apply perform_balanced].
  - simpl. unfold bind. rewrite EvictBlocks_zero_noop by lia. done.
Qed.

(** X14: From construction, after any sequence of calls each of which returns,
    stays within 64 bits and, if it is a direct call of [EvictBlocks],
    reserves nothing (whatever limit it evicts against), current_memory is
    exactly the sum of memory_usage over the LOADED handles. *)
Theorem counter_equals_loaded_memory (tmp : string) (maximum : Z)
    (fs : gmap string (list byte)) (ops : list operation) :
  0 ≤ maximum →
  0 ≤ BLOCK_ALLOC_SIZE →
  all_return ops (BufferManager_new tmp maximum fs) →
  all_sizes_fit ops (BufferManager_new tmp maximum fs) →
  Forall (λ o, direct_reservation o = 0) ops →
  current_memory (run ops (BufferManager_new tmp maximum fs))
  = loaded_memory (run ops (BufferManager_new tmp maximum fs)).
Proof.
  intros Hmax Hconst.
  pose proof (budget_inv_new tmp maximum fs Hmax) as Hinv.
  assert (Hbal : balanced (BufferManager_new tmp maximum fs)) by done.
  generalize dependent (BufferManager_new tmp maximum fs).
  induction ops as [|o ops IH]; intros s Hinv Hbal Hret Hfit Hdirect; simpl; [done|].
  destruct Hret as [Hret Hrets], Hfit as [Hfit Hfits].
  apply Forall_cons in Hdirect as [Hdirect Hdirects].
  destruct (perform_balanced_budget o s Hconst Hinv Hbal Hfit Hdirect Hret)
    as [Hinv' Hbal'].
  by apply IH.
Qed.

(** ** Block ids of live handles *)

Lemma stable_unique_ids s s' : stable s s' → unique_ids s → unique_ids s'.
Proof.
  intros Hst Hu a1 h1 a2 h2 Hl1 Hl2 Hid.
  destruct (stable_lock _ _ _ _ Hst Hl1) as (h1' & Hl1' & Hid1).
  destruct (stable_lock _ _ _ _ Hst Hl2) as (h2' & Hl2' & Hid2).
  apply (Hu a1 h1' a2 h2'); [done|done|congruence].
Qed.

Lemma stable_ids_issued s s' : stable s s' → ids_issued s → ids_issued s'.
Proof.
  intros Hst Hi a h Hl.
  destruct (stable_lock _ _ _ _ Hst Hl) as (h' & Hl' & Hid).
  destruct Hst as (_ & Ht & _). rewrite Ht, <- Hid. by apply (Hi a).
Qed.

Lemma RegisterMemory_ids n alloc_size cd s :
  - 2 ^ 63 ≤ MAXIMUM_BLOCK → MAXIMUM_BLOCK + n + 1 < 2 ^ 63 → 0 ≤ n →
  registry_inv n s → ids_issued s → unique_ids s →
  ids_issued (RegisterMemory alloc_size cd s).2 ∧
  unique_ids (RegisterMemory alloc_size cd s).2.
Proof.
  intros Hlo Hhi Hn Hinv Hi Hu.
  destruct (RegisterMemory_cases alloc_size cd s) as (s1 & Hst & Hcases).
  pose proof (stable_registry_inv _ _ _ Hst Hinv) as [_ Hid].
  apply (stable_ids_issued _ _ Hst) in Hi. apply (stable_unique_ids _ _ Hst) in Hu.
  assert (Hnext : int64_t (temporary_id s1 + 1) = temporary_id s1 + 1)
    by (apply int64_t_small; lia).
  destruct Hcases as [->|[->|(h & Hh & ->)]]; [done| |].
  - split; [|done]. intros a h Hl. simpl. rewrite Hnext.
    specialize (Hi a h Hl). lia.
  - simpl in Hh. rewrite Hnext in Hh. split.
    + intros a h0 Hl. simpl. rewrite Hnext.
      apply (lock_appended _ _ h s1) in Hl as [Hl|[_ ->]]; [| |done].
      * specialize (Hi a h0 Hl). lia.
      * lia.
    + intros a1 h1 a2 h2 Hl1 Hl2 Heq.
      apply (lock_appended _ _ h s1) in Hl1 as [Hl1|[-> ->]]; [| |done];
        apply (lock_appended _ _ h s1) in Hl2 as [Hl2|[-> ->]]; try done.
      * by apply (Hu a1 h1 a2 h2).
      * specialize (Hi a1 h1 Hl1). lia.
      * specialize (Hi a2 h2 Hl2). lia.
Qed.

Lemma perform_ids n o s :
  - 2 ^ 63 ≤ MAXIMUM_BLOCK → MAXIMUM_BLOCK + n + 1 < 2 ^ 63 → 0 ≤ n →
  registers_persistent o →
  registry_inv n s → ids_issued s → unique_ids s →
  ids_issued (perform o s).2 ∧ unique_ids (perform o s).2.
Proof.
  intros Hlo Hhi Hn Hpers Hinv Hi Hu.
  pose proof (perform_stable o s) as Hstable.
  destruct o; simpl in *; rewrite ?discard_result_state in *;
    try (split; [by apply (stable_ids_issued s)|by apply (stable_unique_ids s)]).
  - (* RegisterBlock *)
    destruct (RegisterBlock_cases id s) as [(a & _ & ->)|[Hdead ->]]; [done|].
    destruct Hinv as [Hreg Hid]. split.
    + intros a h Hl. simpl.
      apply (lock_appended _ _ (BlockHandle_new id) s) in Hl as [Hl|[_ ->]];
        [by apply (Hi a)|simpl; lia|done].
    + assert (Hfresh : ∀ a h, lock a s = Some h → block_id h ≠ id).
      { intros a h Hl Heq. pose proof (Hreg a h Hl ltac:(lia)) as Hentry.
        rewrite Heq in Hentry. apply Hdead in Hentry. congruence. }
      intros a1 h1 a2 h2 Hl1 Hl2 Heq.
      apply (lock_appended _ _ (BlockHandle_new id) s) in Hl1 as [Hl1|[-> ->]];
        [| |done];
        apply (lock_appended _ _ (BlockHandle_new id) s) in Hl2 as [Hl2|[-> ->]];
        try done.
      * by apply (Hu a1 h1 a2 h2).
      * by apply Hfresh in Hl1.
      * symmetry in Heq. by apply Hfresh in Hl2.
  - (* RegisterMemory *)
    by apply (RegisterMemory_ids n).
  - (* Allocate *)
    rewrite Allocate_state.
    destruct (RegisterMemory_ids n alloc_size true s) as [Hi1 Hu1]; [done..|].
    destruct (RegisterMemory alloc_size true s) as [[block|e] s1]; simpl in *; [|done].
    split; [apply (stable_ids_issued s1)|apply (stable_unique_ids s1)];
      try done; apply Pin_stable.
  - (* the destructor *)
    destruct (BlockHandle_destroy_cases a s)
      as [[_ ->]|(h & s2 & Hlock & Hst & _ & ->)]; [done|].
    apply (stable_ids_issued _ _ Hst) in Hi. apply (stable_unique_ids _ _ Hst) in Hu.
    split.
    + intros a0 h0 Hl. apply lock_released in Hl as [_ Hl]. by apply (Hi a0).
    + intros a1 h1 a2 h2 Hl1 Hl2 Heq.
      apply lock_released in Hl1 as [_ Hl1]. apply lock_released in Hl2 as [_ Hl2].
      by apply (Hu a1 h1 a2 h2).
Qed.

(** X15: From construction, after any sequence of calls (returning or
    throwing) in which [RegisterBlock] is called with persistent ids only,
    fewer than what wraps the signed 64-bit id counter, no two live handles
    carry the same block id, persistent or anonymous. *)
Theorem live_handles_have_distinct_ids (tmp : string) (maximum : Z)
    (fs : gmap string (list byte)) (ops : list operation) :
  - 2 ^ 63 ≤ MAXIMUM_BLOCK →
  MAXIMUM_BLOCK + Z.of_nat (length ops) < 2 ^ 63 →
  Forall registers_persistent ops →
  ∀ a1 h1 a2 h2,
    lock a1 (run ops (BufferManager_new tmp maximum fs)) = Some h1 →
    lock a2 (run ops (BufferManager_new tmp maximum fs)) = Some h2 →
    a1 ≠ a2 →
    block_id h1 ≠ block_id h2.
Proof.
  intros Hlo Hhi Hpers.
  assert (Hrun : ∀ n s, 0 ≤ n → MAXIMUM_BLOCK + n + Z.of_nat (length ops) < 2 ^ 63 →
            registry_inv n s → ids_issued s → unique_ids s →
            unique_ids (run ops s)).
  { induction ops as [|o ops IH]; intros n s Hn Hbound Hinv Hi Hu; [done|].
    apply Forall_cons in Hpers as [Hpers Hperss].
    simpl run. simpl length in *.
    destruct (perform_ids n o s) as [Hi1 Hu1]; [done|lia|done..|].
    apply (IH ltac:(lia) Hperss (n + 1)); [lia|lia| |done|done].
    apply perform_registry_inv; [done|lia|done|done]. }
  assert (Hu : unique_ids (run ops (BufferManager_new tmp maximum fs))).
  { apply (Hrun 0); [done|lia|apply registry_inv_new| |].
    - intros a h Hl. by rewrite lock_beyond in Hl by (simpl; lia).
    - intros a1 h1 a2 h2 Hl. by rewrite lock_beyond in Hl by (simpl; lia). }
  intros a1 h1 a2 h2 Hl1 Hl2 Hne Heq. apply Hne. by apply (Hu a1 h1 a2 h2).
Qed.

(** ** What a call keeps of the handles *)

Section Kept.
Context {K : Type} (key : nat → BlockHandle → K).

#[local] Instance kept_preorder : PreOrder (kept key).
Proof.
  split.
  - intros s. by split.
  - intros s1 s2 s3 [Hl1 H1] [Hl2 H2]. split; [lia|].
    intros a Ha. rewrite H2 by lia. by apply H1.
Qed.

#[local] Instance kept_at_preorder a k : PreOrder (kept_at key a k).
Proof.
  split.
  - intros s _. reflexivity.
  - intros s1 s2 s3 H1 H2 Hk. specialize (H1 Hk).
    etransitivity; [exact H1|]. apply H2.
    destruct H1 as [_ H1]. rewrite H1; [done|].
    destruct (lock a s1) as [h|] eqn:Hlock; [|done]. eauto using lock_lt.
Qed.

Lemma kept_weaken {A} a k (m : M A) :
  preserves (kept key) m → preserves (kept_at key a k) m.
Proof. intros Hm s _. apply Hm. Qed.

Lemma same_heap_kept s s' : heap s' = heap s → kept key s s'.
Proof.
  intros Hheap. split; [by rewrite Hheap|].
  intros a _. unfold lock. by rewrite Hheap.
Qed.

Lemma preserves_same_heap_kept {A} (m : M A) :
  preserves same_heap m → preserves (kept key) m.
Proof. intros Hm s. apply same_heap_kept, Hm. Qed.

Lemma store_kept_at a k h' :
  key a h' = k → preserves (kept_at key a k) (store a h').
Proof.
  intros <- s Hk. split; [simpl; by rewrite length_insert|].
  intros a0 Ha0. simpl. destruct (decide (a = a0)) as [<-|Hne].
  - rewrite lock_set_heap_eq by done. by rewrite Hk.
  - by rewrite lock_set_heap_ne.
Qed.

Lemma make_shared_kept h : preserves (kept key) (make_shared h).
Proof.
  intros s. split; [simpl; rewrite length_app; lia|].
  intros a Ha. simpl. by rewrite lock_make_shared_old.
Qed.

Lemma deref_bind_kept {B} a (k : BlockHandle → M B) :
  (∀ h, preserves (kept_at key a (key a h)) (k h)) →
  preserves (kept key) (bind (deref a) k).
Proof.
  intros Hk s. unfold bind, deref.
  destruct (lock a s) as [h|] eqn:Hlock; simpl; [|reflexivity].
  apply Hk. by rewrite Hlock.
Qed.

Lemma deref_bind_kept_at {B} a k0 (k : BlockHandle → M B) :
  (∀ h, key a h = k0 → preserves (kept_at key a k0) (k h)) →
  preserves (kept_at key a k0) (bind (deref a) k).
Proof.
  intros Hk s Hid. unfold bind, deref.
  destruct (lock a s) as [h|] eqn:Hlock; simpl; [|reflexivity].
  injection Hid as Hid. by apply Hk; [|rewrite Hlock, <- Hid].
Qed.

End Kept.

#[local] Existing Instance kept_preorder.
#[local] Existing Instance kept_at_preorder.

Section Watched.
Context (mr mt mu : nat → bool).

Lemma evict_rel_kept s s' : evict_rel s s' → kept (watched mr mt mu) s s'.
Proof.
  intros (_ & Hlen & Hrel). split; [by rewrite Hlen|].
  intros a _. specialize (Hrel a).
  destruct (lock a s) as [h|], (lock a s') as [h'|]; try done.
  destruct Hrel as [->|(_ & _ & Hr & Hid & Ht & Hcd & Hmu)]; [done|].
  simpl. unfold watched. by rewrite Hr, Hid, Ht, Hcd, Hmu.
Qed.

Lemma EvictBlocks_kept extra limit : preserves (kept (watched mr mt mu)) (EvictBlocks extra limit).
Proof. intros s. apply evict_rel_kept, EvictBlocks_rel. Qed.

(** Syntax-directed proofs that a call keeps the watched part. *)
Ltac kept_step :=
  first
    [ apply preserves_ret; apply _
    | apply preserves_throw; apply _
    | apply preserves_gets; apply _
    | apply preserves_D_ASSERT; apply _
    | apply store_kept_at; done
    | apply make_shared_kept
    | apply kept_weaken; apply EvictBlocks_kept
    | apply EvictBlocks_kept
    | apply kept_weaken; apply preserves_same_heap_kept;
        first [apply ReadTemporaryBuffer_heap | apply DeleteTemporaryFile_heap]
    | apply preserves_modify; intros ?; intros; by apply same_heap_kept
    | apply deref_bind_kept; intros ?
    | apply deref_bind_kept_at; intros ? ?
    | apply preserves_bind; [apply _| |intros ?]
    | match goal with
      | |- preserves _ (if ?b then _ else _) => destruct b
      | |- preserves _ (match ?x with _ => _ end) => destruct x
      | |- preserves _ (match ?x with _ => _ end _) => destruct x
      end ].

Lemma Load_kept_at a k : preserves (kept_at (watched mr mt mu) a k) (Load a).
Proof. unfold Load. repeat kept_step. Qed.

Lemma Pin_kept a : mr a = true → preserves (kept (watched mr mt mu)) (Pin a).
Proof.
  intros Hmr.
  assert (Hreaders : ∀ r h, (watched mr mt mu) a (with_readers r h) = (watched mr mt mu) a h)
    by (intros r h; unfold watched; simpl; by rewrite Hmr).
  unfold Pin. apply deref_bind_kept; intros h.
  destruct (is_loaded (state h)).
  - apply preserves_bind; [apply _|by apply store_kept_at|intros _].
    apply Load_kept_at.
  - apply preserves_bind; [apply _|apply preserves_gets, _|intros limit].
    apply preserves_bind; [apply _|apply kept_weaken, EvictBlocks_kept|intros ok].
    destruct (negb ok); [kept_step|].
    apply deref_bind_kept_at; intros h1 Hid.
    destruct (is_loaded (state h1)).
    + apply preserves_bind; [apply _| |intros _; apply Load_kept_at].
      apply store_kept_at. by rewrite Hreaders.
    + apply preserves_bind; [apply _|apply preserves_D_ASSERT, _|intros _].
      apply preserves_bind; [apply _| |intros _; apply Load_kept_at].
      apply store_kept_at. by rewrite Hreaders.
Qed.

Lemma Unpin_kept a : mr a = true → mt a = true → preserves (kept (watched mr mt mu)) (Unpin a).
Proof.
  intros Hmr Hmt.
  unfold Unpin. apply deref_bind_kept; intros h.
  apply preserves_bind; [apply _|apply preserves_D_ASSERT, _|intros _].
  apply preserves_bind; [apply _| |intros _].
  { apply store_kept_at. unfold watched. simpl. by rewrite Hmr. }
  destruct (_ =? 0); [|kept_step].
  apply preserves_bind; [apply _| |intros _].
  { apply store_kept_at. unfold watched. simpl. by rewrite Hmr, Hmt. }
  apply preserves_modify. intros s _. by apply same_heap_kept.
Qed.

Lemma ReAllocate_kept a alloc_size :
  mu a = true → preserves (kept (watched mr mt mu)) (ReAllocate a alloc_size).
Proof.
  intros Hmu. unfold ReAllocate.
  apply preserves_bind; [apply _|apply preserves_D_ASSERT, _|intros _].
  apply deref_bind_kept; intros h.
  apply preserves_bind; [apply _|apply preserves_D_ASSERT, _|intros _].
  apply preserves_bind; [apply _| |intros _].
  { destruct (0 <? _); [|kept_step].
    apply preserves_bind; [apply _|apply preserves_gets, _|intros limit].
    apply preserves_bind; [apply _|apply kept_weaken, EvictBlocks_kept|intros ok].
    destruct (negb ok); kept_step. }
  apply deref_bind_kept_at; intros h1 Hid.
  destruct (buffer h1) as [b|]; [|kept_step].
  apply preserves_bind; [apply _| |intros _].
  { by apply store_kept_at. }
  apply preserves_bind; [apply _| |intros _].
  { destruct (_ <? 0); [|kept_step].
    apply preserves_modify. intros s _. by apply same_heap_kept. }
  apply deref_bind_kept_at; intros h2 Hid2.
  apply store_kept_at. rewrite <- Hid2. unfold watched. simpl. by rewrite Hmu.
Qed.

Lemma SetLimit_kept limit : preserves (kept (watched mr mt mu)) (SetLimit limit).
Proof. unfold SetLimit. repeat kept_step. Qed.

Lemma SetTemporaryDirectory_kept d : preserves (kept (watched mr mt mu)) (SetTemporaryDirectory d).
Proof. unfold SetTemporaryDirectory. repeat kept_step. Qed.

Lemma RegisterBlock_kept id : preserves (kept (watched mr mt mu)) (RegisterBlock id).
Proof. unfold RegisterBlock. repeat kept_step. Qed.

Lemma RegisterMemory_kept alloc_size cd :
  preserves (kept (watched mr mt mu)) (RegisterMemory alloc_size cd).
Proof. unfold RegisterMemory, BlockHandle_new_loaded. repeat kept_step. Qed.

End Watched.

Lemma watched_fields mr mt mu a h h' :
  watched mr mt mu a h' = watched mr mt mu a h →
  block_id h' = block_id h ∧ can_destroy h' = can_destroy h ∧
  (mr a = false → readers h' = readers h) ∧
  (mt a = false → eviction_timestamp h' = eviction_timestamp h) ∧
  (mu a = false → memory_usage h' = memory_usage h).
Proof.
  unfold watched. intros [= Hid Hcd Hr Ht Hu].
  split; [done|]. split; [done|].
  split; [|split]; intros Hm; by rewrite Hm in *.
Qed.

Lemma kept_fields mr mt mu s s' a h h' :
  kept (watched mr mt mu) s s' →
  lock a s = Some h → lock a s' = Some h' →
  block_id h' = block_id h ∧ can_destroy h' = can_destroy h ∧
  (mr a = false → readers h' = readers h) ∧
  (mt a = false → eviction_timestamp h' = eviction_timestamp h) ∧
  (mu a = false → memory_usage h' = memory_usage h).
Proof.
  intros [_ Hk] Hlock Hlock'. specialize (Hk a (lock_lt _ _ _ Hlock)).
  rewrite Hlock, Hlock' in Hk. simpl in Hk. apply (inj Some) in Hk.
  by apply watched_fields.
Qed.

Lemma discard_result_preserves {A} R `{!PreOrder R} (m : M A) :
  preserves R m → preserves R (m ;;; ret tt).
Proof. intros Hm. apply preserves_bind; [done|done|]. intros _. by apply preserves_ret. Qed.

(** [Allocate] pins the handle it has just created: the handles that were
    there keep everything under watch. *)
Lemma Allocate_kept alloc_size :
  preserves (kept (watched (λ _, false) (λ _, false) (λ _, false)))
    (Allocate alloc_size).
Proof.
  intros s. rewrite Allocate_state.
  pose proof (RegisterMemory_kept (λ _, false) (λ _, false) (λ _, false)
                alloc_size true s) as Hreg.
  destruct (RegisterMemory alloc_size true s) as [[block|e] s1] eqn:Hrm;
    simpl in *; [|done].
  assert (Hblock : (length (heap s) ≤ block)%nat).
  { apply RegisterMemory_returns in Hrm as (s0 & Hev & -> & _).
    pose proof (EvictBlocks_rel (idx_t (alloc_size + BLOCK_HEADER_SIZE))
                  (maximum_memory s) s) as Hrel.
    rewrite Hev in Hrel. destruct Hrel as (_ & Hlen & _). simpl in Hlen. lia. }
  pose proof (Pin_kept (λ a, bool_decide (a = block)) (λ _, false) (λ _, false)
                block (bool_decide_eq_true_2 _ eq_refl) s1) as Hpin.
  destruct Hreg as [Hl1 H1], Hpin as [Hl2 H2]. split; [lia|].
  intros a Ha. rewrite <- (H1 a Ha). specialize (H2 a ltac:(lia)).
  unfold watched in *. by rewrite bool_decide_eq_false_2 in H2 by lia.
Qed.

(** What a call other than a destruction keeps of the handles. *)
Lemma perform_kept o :
  (∀ a, o ≠ OpDestroy a) →
  preserves (kept (watched (changes_readers o) (changes_stamp o) (changes_size o)))
    (perform o).
Proof.
  intros Hnot. destruct o; simpl.
  - apply discard_result_preserves; [apply _|]. apply RegisterBlock_kept.
  - apply discard_result_preserves; [apply _|]. apply RegisterMemory_kept.
  - apply discard_result_preserves; [apply _|]. apply Allocate_kept.
  - apply ReAllocate_kept. by apply bool_decide_eq_true_2.
  - apply discard_result_preserves; [apply _|].
    apply Pin_kept. by apply bool_decide_eq_true_2.
  - apply Unpin_kept; by apply bool_decide_eq_true_2.
  - apply discard_result_preserves; [apply _|]. apply EvictBlocks_kept.
  - apply SetLimit_kept.
  - apply SetTemporaryDirectory_kept.
  - by destruct (Hnot a).
Qed.

(** The destructor leaves the other handles as they are. *)
Lemma BlockHandle_destroy_others a s a' :
  lock a' (BlockHandle_destroy a s).2 = None ∨
  lock a' (BlockHandle_destroy a s).2 = lock a' s.
Proof.
  destruct (lock a s) as [h|] eqn:Hlock.
  - destruct (BlockHandle_destroy_returns a h s Hlock) as (s' & -> & Hheap & _).
    simpl. unfold lock. rewrite Hheap.
    destruct (decide (a = a')) as [<-|Hne].
    + left. by rewrite list_lookup_insert_eq by eauto using lock_lt.
    + right. by rewrite list_lookup_insert_ne.
  - right. unfold BlockHandle_destroy, bind, deref. by rewrite Hlock.
Qed.

(** X16: A call changes, of the handles that were there, at most the one it is
    called on: whatever the call and its outcome, a handle that lives
    through it keeps its block id and its can_destroy flag; its readers
    count unless the call is [Pin] or [Unpin] of that handle; its
    eviction stamp unless the call is [Unpin] of that handle; and its
    memory_usage unless the call is [ReAllocate] of that handle. *)
Theorem calls_change_their_own_handle_only (o : operation) (s : BufferManager)
    (a : nat) (h h' : BlockHandle) :
  lock a s = Some h → lock a (perform o s).2 = Some h' →
  block_id h' = block_id h ∧ can_destroy h' = can_destroy h ∧
  (changes_readers o a = false → readers h' = readers h) ∧
  (changes_stamp o a = false → eviction_timestamp h' = eviction_timestamp h) ∧
  (changes_size o a = false → memory_usage h' = memory_usage h).
Proof.
  intros Hlock Hlock'.
  assert (Hcases : (∃ a0, o = OpDestroy a0) ∨ ∀ a0, o ≠ OpDestroy a0)
    by (destruct o; first [by right|left; by eexists]).
  destruct Hcases as [[a0 ->]|Hnot].
  - simpl in Hlock'.
    destruct (BlockHandle_destroy_others a0 s a) as [Hnone|Hsame]; [congruence|].
    rewrite Hsame, Hlock in Hlock'. injection Hlock' as <-. done.
  - apply (kept_fields _ _ _ s (perform o s).2); [|done|done].
    by apply perform_kept.
Qed.

(** ** The stamps of the queue *)

#[local] Instance queue_shrinks_preorder : PreOrder queue_shrinks.
Proof.
  split; unfold queue_shrinks.
  - by intros s.
  - intros s1 s2 s3 H1 H2. by etransitivity.
Qed.

Lemma make_shared_shrinks h : preserves queue_shrinks (make_shared h).
Proof. intros s. unfold queue_shrinks. done. Qed.

Lemma EvictBlocks_shrinks extra limit : preserves queue_shrinks (EvictBlocks extra limit).
Proof.
  intros s. unfold queue_shrinks, EvictBlocks, bind, gets, modify. simpl.
  by destruct (evict_loop_queue extra limit (queue s)
                 (set_current_memory (idx_t (current_memory s + extra)) s) eq_refl).
Qed.

Lemma ReadTemporaryBuffer_shrinks id : preserves queue_shrinks (ReadTemporaryBuffer id).
Proof. intros s. rewrite ReadTemporaryBuffer_state. reflexivity. Qed.

Create HintDb shrinks discriminated.

#[local] Hint Resolve EvictBlocks_shrinks ReadTemporaryBuffer_shrinks : shrinks.

(** Syntax-directed proofs that a call puts nothing in the queue. *)
Ltac shrink_step :=
  first
    [ apply preserves_ret; apply _
    | apply preserves_throw; apply _
    | apply preserves_gets; apply _
    | apply preserves_D_ASSERT; apply _
    | apply preserves_deref; apply _
    | apply make_shared_shrinks
    | solve [auto with shrinks nocore]
    | apply preserves_modify; intros ?; unfold queue_shrinks; simpl; reflexivity
    | apply preserves_bind; [apply _| |intros ?]
    | match goal with
      | |- preserves _ (if ?b then _ else _) => destruct b
      | |- preserves _ (match ?x with _ => _ end) => destruct x
      | |- preserves _ (match ?x with _ => _ end _) => destruct x
      end ].

Lemma Load_shrinks a : preserves queue_shrinks (Load a).
Proof. unfold Load, store. repeat shrink_step. Qed.

#[local] Hint Resolve Load_shrinks : shrinks.

Lemma Pin_shrinks a : preserves queue_shrinks (Pin a).
Proof. unfold Pin, store. repeat shrink_step. Qed.

Lemma RegisterMemory_shrinks alloc_size cd :
  preserves queue_shrinks (RegisterMemory alloc_size cd).
Proof. unfold RegisterMemory, BlockHandle_new_loaded. repeat shrink_step. Qed.

#[local] Hint Resolve Pin_shrinks RegisterMemory_shrinks : shrinks.

(** Every call but [Unpin] leaves in the queue a suffix of what it found. *)
Lemma perform_shrinks o :
  (∀ a, o ≠ OpUnpin a) → preserves queue_shrinks (perform o).
Proof.
  intros Hnot. destruct o; simpl.
  - unfold RegisterBlock. repeat shrink_step.
  - repeat shrink_step.
  - unfold Allocate. repeat shrink_step.
  - unfold ReAllocate, store. repeat shrink_step.
  - repeat shrink_step.
  - by destruct (Hnot a).
  - repeat shrink_step.
  - unfold SetLimit. repeat shrink_step.
  - unfold SetTemporaryDirectory. repeat shrink_step.
  - unfold BlockHandle_destroy, UnregisterBlock, DeleteTemporaryFile, store.
    repeat shrink_step.
Qed.

(** The three things [Unpin] can do. *)
Lemma Unpin_cases a s :
  (Unpin a s).2 = s ∨
  ∃ h, lock a s = Some h ∧ (DEBUG = true → 0 < readers h) ∧
    ((Unpin a s).2
     = set_heap (<[a := Some (with_readers (int32_t (readers h - 1)) h)]> (heap s)) s ∨
     (Unpin a s).2
     = set_queue
         (queue s ++ [mkBufferEvictionNode a (idx_t (eviction_timestamp h + 1))])
         (set_heap
            (<[a := Some (with_eviction_timestamp (idx_t (eviction_timestamp h + 1))
                            (with_readers (int32_t (readers h - 1)) h))]> (heap s)) s)).
Proof.
  unfold Unpin, bind, deref, D_ASSERT, store, modify, ret, throw.
  destruct (lock a s) as [h|] eqn:Hlock; simpl; [|by left].
  destruct (DEBUG && _) eqn:Hassert; simpl; [by left|].
  right. exists h. split; [done|]. split.
  { intros Hdebug. rewrite Hdebug in Hassert. simpl in Hassert.
    apply negb_false_iff, Z.ltb_lt in Hassert. done. }
  destruct (int32_t (readers h - 1) =? 0); simpl; [right|by left].
  by rewrite list_insert_insert_eq.
Qed.

(** [Load] and the eviction leave the readers count of every handle as it
    is. *)
Lemma Load_readers a s h h' :
  lock a s = Some h → lock a (Load a s).2 = Some h' → readers h' = readers h.
Proof.
  intros Hlock Hlock'.
  pose proof (Load_kept_at (λ _, false) (λ _, false) (λ _, false) a
                (watched (λ _, false) (λ _, false) (λ _, false) a h) s) as Hkept.
  destruct (kept_fields _ _ _ _ _ _ _ _ (Hkept ltac:(by rewrite Hlock)) Hlock Hlock')
    as (_ & _ & Hr & _).
  by apply Hr.
Qed.

Lemma EvictBlocks_readers extra limit a s h h' :
  lock a s = Some h → lock a (EvictBlocks extra limit s).2 = Some h' →
  readers h' = readers h.
Proof.
  intros Hlock Hlock'.
  pose proof (EvictBlocks_kept (λ _, false) (λ _, false) (λ _, false) extra limit s)
    as Hkept.
  destruct (kept_fields _ _ _ _ _ _ _ _ Hkept Hlock Hlock') as (_ & _ & Hr & _).
  by apply Hr.
Qed.

(** What [Pin] does to the readers count of its handle, whatever its
    outcome: nothing, one more (modulo 2^32), or one. *)
Lemma Pin_readers_cases a s h h' :
  lock a s = Some h → lock a (Pin a s).2 = Some h' →
  readers h' = readers h ∨ readers h' = int32_t (readers h + 1) ∨ readers h' = 1.
Proof.
  intros Hlock. pose proof (lock_lt _ _ _ Hlock) as Hlt.
  unfold Pin, bind at 1, deref. rewrite Hlock. simpl.
  destruct (is_loaded (state h)).
  - unfold bind at 1, store, modify. simpl. intros Hl.
    apply (Load_readers _ _ (with_readers (int32_t (readers h + 1)) h)) in Hl;
      [|by apply lock_set_heap_eq].
    right. by left.
  - unfold bind at 1, gets. simpl. unfold bind at 1.
    pose proof (EvictBlocks_readers (memory_usage h) (maximum_memory s) a s h) as Hev.
    destruct (EvictBlocks _ _ s) as [[ok|e] s1]; simpl in *;
      [|intros Hl; left; by apply Hev].
    destruct ok; simpl; [|intros Hl; left; by apply Hev].
    unfold bind at 1, deref.
    destruct (lock a s1) as [h1|] eqn:Hlock1; simpl; [|congruence].
    specialize (Hev h1 Hlock eq_refl).
    pose proof (lock_lt _ _ _ Hlock1) as Hlt1.
    destruct (is_loaded (state h1)).
    + unfold bind at 1, store, modify. simpl. intros Hl.
      apply (Load_readers _ _ (with_readers (int32_t (readers h1 + 1)) h1)) in Hl;
        [|by apply lock_set_heap_eq].
      right. left. rewrite Hl. simpl. by rewrite Hev.
    + unfold bind at 1, D_ASSERT. destruct (DEBUG && _); simpl.
      { intros Hl. left. congruence. }
      unfold bind at 1, store, modify. simpl. intros Hl.
      apply (Load_readers _ _ (with_readers 1 h1)) in Hl;
        [|by apply lock_set_heap_eq].
      right. by right.
Qed.

(** A handle that lives through a call was there before it, unless the
    call created it; and it has the stamp it had, unless the call is its
    [Unpin]. *)
Lemma perform_survivor o s a h' :
  (a < length (heap s))%nat → lock a (perform o s).2 = Some h' →
  ∃ h, lock a s = Some h ∧
       (changes_readers o a = false → readers h' = readers h) ∧
       (changes_stamp o a = false → eviction_timestamp h' = eviction_timestamp h).
Proof.
  intros Ha Hlock'.
  assert (Hcases : (∃ a0, o = OpDestroy a0) ∨ ∀ a0, o ≠ OpDestroy a0)
    by (destruct o; first [by right|left; by eexists]).
  destruct Hcases as [[a0 ->]|Hnot].
  - simpl in Hlock'.
    destruct (BlockHandle_destroy_others a0 s a) as [Hnone|Hsame]; [congruence|].
    rewrite Hsame in Hlock'. by exists h'.
  - pose proof (perform_kept o Hnot s) as Hkept.
    destruct (lock a s) as [h|] eqn:Hlock.
    + exists h. split; [done|].
      by destruct (kept_fields _ _ _ _ _ _ _ _ Hkept Hlock Hlock') as (_ & _ & ? & ? & _).
    + destruct Hkept as [_ Hk]. specialize (Hk a Ha).
      rewrite Hlock, Hlock' in Hk. done.
Qed.

(** A handle created by a call has stamp 0 and at most one reader. *)
Lemma perform_fresh o s a h' :
  (length (heap s) ≤ a)%nat → lock a (perform o s).2 = Some h' →
  eviction_timestamp h' = 0 ∧ 0 ≤ readers h' ≤ 1.
Proof.
  intros Ha.
  pose proof (perform_stable o s) as Hstable.
  assert (Hno : ∀ s', length (heap s') = length (heap s) → lock a s' = Some h' → False).
  { intros s' Hlen Hl. rewrite lock_beyond in Hl by lia. done. }
  destruct o; simpl in *; rewrite ?discard_result_state in *;
    try (intros Hl; exfalso; apply (Hno _ (proj1 (proj2 (proj2 Hstable))) Hl)).
  - (* RegisterBlock *)
    destruct (RegisterBlock_cases id s) as [(a0 & _ & ->)|[_ ->]]; simpl.
    + intros Hl. exfalso. by apply (Hno s).
    + intros Hl. apply (lock_appended _ _ (BlockHandle_new id) s) in Hl
        as [Hl|[_ ->]]; [|done|done].
      exfalso. by apply (Hno s).
  - (* RegisterMemory *)
    destruct (RegisterMemory alloc_size can_destroy_p s) as [[a0|e] s'] eqn:Hrm; simpl.
    + apply RegisterMemory_returns in Hrm as (s1 & Hev & -> & ->).
      pose proof (EvictBlocks_stable (idx_t (alloc_size + BLOCK_HEADER_SIZE))
                    (maximum_memory s) s) as (_ & _ & Hlen & _).
      rewrite Hev in Hlen. simpl in Hlen.
      intros Hl.
      match type of Hl with
      | lock _ (set_heap (_ ++ [Some ?hnew]) _) = _ =>
          apply (lock_appended _ _ hnew s1) in Hl as [Hl|[_ ->]]; [|done|done]
      end.
      exfalso. by apply (Hno s1).
    + destruct (RegisterMemory_cases alloc_size can_destroy_p s)
        as (s1 & (_ & _ & Hlen & _) & Hcases).
      rewrite Hrm in Hcases. simpl in Hcases.
      destruct Hcases as [->|[->|(h & _ & [=])]]; intros Hl; exfalso;
        by apply (Hno s1).
  - (* Allocate: the new handle is pinned *)
    rewrite Allocate_state.
    destruct (RegisterMemory alloc_size true s) as [[a0|e] s'] eqn:Hrm; simpl.
    + apply RegisterMemory_returns in Hrm as (s1 & Hev & -> & ->).
      pose proof (EvictBlocks_stable (idx_t (alloc_size + BLOCK_HEADER_SIZE))
                    (maximum_memory s) s) as (_ & _ & Hlen & _).
      rewrite Hev in Hlen. simpl in Hlen.
      set (hnew := mkBlockHandle BLOCK_LOADED 0 _ _ 0 true _).
      set (s2 := set_heap (heap s1 ++ [Some hnew]) _).
      assert (Hnew : lock (length (heap s1)) s2 = Some hnew)
        by exact (lock_make_shared_new hnew s1).
      pose proof (Pin_kept (λ _, true) (λ _, false) (λ _, false)
                    (length (heap s1)) eq_refl s2) as [_ Hpin].
      pose proof (Pin_readers_cases (length (heap s1)) s2 hnew h' Hnew) as Hcnt.
      pose proof (Pin_stable (length (heap s1)) s2) as (_ & _ & Hlen' & _).
      intros Hl.
      destruct (decide (a < length (heap s2))%nat) as [Hlt|Hge].
      * specialize (Hpin a Hlt). rewrite Hl in Hpin.
        destruct (lock a s2) as [h0|] eqn:Hl0; [|done].
        apply (lock_appended _ _ hnew s1) in Hl0 as [Hl0|[-> ->]]; [| |done].
        { apply lock_lt in Hl0. lia. }
        simpl in Hpin. apply (inj Some) in Hpin.
        apply watched_fields in Hpin as (_ & _ & _ & Ht & _).
        split; [by rewrite (Ht eq_refl)|].
        destruct (Hcnt Hl) as [->|[->| ->]]; simpl;
          rewrite ?(int32_t_small (0 + 1)) by lia; lia.
      * rewrite lock_beyond in Hl; [done|]. rewrite Hlen'. lia.
    + destruct (RegisterMemory_cases alloc_size true s)
        as (s1 & (_ & _ & Hlen & _) & Hcases).
      rewrite Hrm in Hcases. simpl in Hcases.
      destruct Hcases as [->|[->|(h & _ & [=])]]; intros Hl; exfalso;
        by apply (Hno s1).
  - (* the destructor *)
    intros Hl. destruct (BlockHandle_destroy_others a0 s a) as [Hnone|Hsame];
      [congruence|].
    rewrite Hsame in Hl. exfalso. by apply (Hno s).
Qed.

Lemma queue_inv_mono n m s : n ≤ m → queue_inv n s → queue_inv m s.
Proof.
  intros Hle (H1 & H2 & H3 & H4). split; [|done].
  intros a h Hl. specialize (H1 a h Hl). lia.
Qed.

(** A handle is stored back with a stamp that is not older, and at most
    one node carrying the new stamp joins the queue. *)
Lemma queue_inv_update n s s' a0 h h' extra :
  queue_inv n s → lock a0 s = Some h →
  heap s' = <[a0 := Some h']> (heap s) →
  queue s' = queue s ++ extra →
  eviction_timestamp h ≤ eviction_timestamp h' ≤ n →
  extra = [] ∨
  (extra = [mkBufferEvictionNode a0 (eviction_timestamp h')] ∧
   eviction_timestamp h < eviction_timestamp h') →
  queue_inv n s'.
Proof.
  intros (H1 & H2 & H3 & H4) Hlock Hheap Hqueue Hstamp Hextra.
  pose proof (lock_lt _ _ _ Hlock) as Hlt.
  assert (Hlock' : ∀ a, lock a s' = if decide (a0 = a) then Some h' else lock a s).
  { intros a. unfold lock. rewrite Hheap. destruct (decide (a0 = a)) as [<-|Hne].
    - by rewrite list_lookup_insert_eq.
    - by rewrite list_lookup_insert_ne. }
  assert (Hold : ∀ node h1, node ∈ queue s → lock (handle node) s' = Some h1 →
                             timestamp node ≤ eviction_timestamp h1).
  { intros node h1 Hin Hl. rewrite Hlock' in Hl.
    destruct (decide (a0 = handle node)) as [Heq|Hne].
    - injection Hl as <-. rewrite Heq in Hlock.
      specialize (H3 node h Hin Hlock). lia.
    - by apply H3. }
  split; [|split; [|split]].
  - intros a h1 Hl. rewrite Hlock' in Hl. destruct (decide (a0 = a)).
    + injection Hl as <-. specialize (H1 a0 h Hlock). lia.
    + by apply (H1 a).
  - intros node Hin. rewrite Hheap, length_insert. rewrite Hqueue in Hin.
    apply elem_of_app in Hin as [Hin|Hin]; [by apply H2|].
    destruct Hextra as [->|[-> _]]; [by apply elem_of_nil in Hin|].
    apply list_elem_of_singleton in Hin as ->. done.
  - intros node h1 Hin Hl. rewrite Hqueue in Hin.
    apply elem_of_app in Hin as [Hin|Hin]; [by apply Hold|].
    destruct Hextra as [->|[-> _]]; [by apply elem_of_nil in Hin|].
    apply list_elem_of_singleton in Hin as ->. simpl in *.
    rewrite Hlock', decide_True in Hl by done. by injection Hl as <-.
  - intros i j ni nj Hi Hj Hij Hsame. rewrite Hqueue in Hi, Hj.
    destruct (decide (j < length (queue s))%nat) as [Hjl|Hjl].
    + rewrite lookup_app_l in Hi, Hj by lia. by apply (H4 i j).
    + rewrite lookup_app_r in Hj by lia.
      destruct Hextra as [->|[-> Hnew]]; [done|].
      destruct (j - length (queue s))%nat eqn:Hjz; [|done].
      injection Hj as <-. simpl in *.
      destruct (decide (i < length (queue s))%nat) as [Hil|Hil].
      * rewrite lookup_app_l in Hi by lia.
        apply list_elem_of_lookup_2 in Hi. rewrite <- Hsame in Hlock.
        specialize (H3 ni h Hi Hlock). lia.
      * rewrite lookup_app_r in Hi by lia.
        destruct (i - length (queue s))%nat eqn:Hz; [lia|done].
Qed.

(** One more call, one more tick of the stamps. *)
Lemma perform_queue_inv n o s :
  0 ≤ n → n + 1 < 2 ^ 64 →
  queue_inv n s → queue_inv (n + 1) (perform o s).2.
Proof.
  intros Hn Hbound Hinv.
  assert (Hcases : (∃ a0, o = OpUnpin a0) ∨ ∀ a0, o ≠ OpUnpin a0)
    by (destruct o; first [by right|left; by eexists]).
  destruct Hcases as [[a0 ->]|Hnot].
  - (* Unpin *)
    simpl. destruct (Unpin_cases a0 s) as [->|(h & Hlock & _ & [->| ->])].
    + by apply (queue_inv_mono n); [lia|].
    + apply (queue_inv_mono n); [lia|].
      apply (queue_inv_update n s _ a0 h (with_readers (int32_t (readers h - 1)) h) []);
        simpl; try done.
      * by rewrite app_nil_r.
      * destruct Hinv as (H1 & _). specialize (H1 a0 h Hlock). lia.
      * by left.
    + pose proof (proj1 Hinv a0 h Hlock) as Hstamp.
      assert (Hnext : idx_t (eviction_timestamp h + 1) = eviction_timestamp h + 1)
        by (apply idx_t_small; lia).
      apply (queue_inv_update (n + 1) s _ a0 h
               (with_eviction_timestamp (idx_t (eviction_timestamp h + 1))
                  (with_readers (int32_t (readers h - 1)) h))
               [mkBufferEvictionNode a0 (idx_t (eviction_timestamp h + 1))]);
        simpl; try done.
      * by apply (queue_inv_mono n); [lia|].
      * rewrite Hnext. lia.
      * right. split; [done|]. rewrite Hnext. lia.
  - (* the others *)
    assert (Hstamps : ∀ a, changes_stamp o a = false)
      by (intros a; destruct o; try done; by destruct (Hnot a0)).
    pose proof (perform_shrinks o Hnot s) as [k Hk].
    pose proof (perform_length o s) as Hlen.
    destruct Hinv as (H1 & H2 & H3 & H4).
    assert (Hin : ∀ node, node ∈ queue (perform o s).2 → node ∈ queue s).
    { intros node Hin. rewrite Hk. apply elem_of_app. by right. }
    split; [|split; [|split]].
    + intros a h' Hl. destruct (decide (a < length (heap s))%nat) as [Ha|Ha].
      * destruct (perform_survivor o s a h' Ha Hl) as (h & Hlock & _ & Hsame).
        rewrite (Hsame (Hstamps a)). specialize (H1 a h Hlock). lia.
      * destruct (perform_fresh o s a h') as [-> _]; [lia|done|lia].
    + intros node Hnode. specialize (H2 node (Hin node Hnode)). lia.
    + intros node h' Hnode Hl.
      destruct (perform_survivor o s (handle node) h' (H2 node (Hin node Hnode)) Hl)
        as (h & Hlock & _ & Hsame).
      rewrite (Hsame (Hstamps _)). apply H3; [by apply Hin|done].
    + intros i j ni nj Hi Hj Hij Hsame.
      apply (H4 (length k + i)%nat (length k + j)%nat); [| |lia|done];
        rewrite Hk, lookup_app_r by lia.
      * by replace (length k + i - length k)%nat with i by lia.
      * by replace (length k + j - length k)%nat with j by lia.
Qed.

(** X17: From construction, after any sequence of calls (returning or
    throwing), fewer than what wraps the 64-bit eviction stamp: of two
    nodes of the queue that point to the same live handle, the one nearer
    the front carries a stamp older than the stamp of the handle; it is
    stale, and the eviction loop discards it without touching the manager.
    So at most one node per handle, the last one enqueued for it, can
    unload the handle. *)
Theorem only_the_latest_node_is_current (tmp : string) (maximum : Z)
    (fs : gmap string (list byte)) (ops : list operation)
    (i j : nat) (ni nj : BufferEvictionNode) (h : BlockHandle) :
  Z.of_nat (length ops) < 2 ^ 64 →
  queue (run ops (BufferManager_new tmp maximum fs)) !! i = Some ni →
  queue (run ops (BufferManager_new tmp maximum fs)) !! j = Some nj →
  (i < j)%nat →
  handle ni = handle nj →
  lock (handle ni) (run ops (BufferManager_new tmp maximum fs)) = Some h →
  timestamp ni < eviction_timestamp h ∧
  evict_node ni (run ops (BufferManager_new tmp maximum fs))
  = (Ret tt, run ops (BufferManager_new tmp maximum fs)).
Proof.
  intros Hbound.
  assert (Hrun : ∀ n s, 0 ≤ n → n + Z.of_nat (length ops) < 2 ^ 64 →
            queue_inv n s → queue_inv (n + Z.of_nat (length ops)) (run ops s)).
  { clear Hbound. induction ops as [|o ops IH]; intros n s Hn Hb Hinv.
    - simpl. by rewrite Z.add_0_r.
    - simpl run. simpl length in *.
      replace (n + Z.of_nat (S (length ops))) with (n + 1 + Z.of_nat (length ops))
        by lia.
      apply IH; [lia|lia|]. apply perform_queue_inv; [done|lia|done]. }
  assert (Hnew : queue_inv 0 (BufferManager_new tmp maximum fs)).
  { split; [|split; [|split]].
    - intros a h0 Hl. by rewrite lock_beyond in Hl by (simpl; lia).
    - intros node Hin. by apply elem_of_nil in Hin.
    - intros node h0 Hin. by apply elem_of_nil in Hin.
    - intros i0 j0 n0 n1 Hi. done. }
  apply (Hrun 0) in Hnew; [|done|lia].
  destruct Hnew as (_ & _ & H3 & H4).
  intros Hi Hj Hij Hsame Hlock.
  assert (Hlt : timestamp ni < eviction_timestamp h).
  { specialize (H4 i j ni nj Hi Hj Hij Hsame).
    apply list_elem_of_lookup_2 in Hj. rewrite Hsame in Hlock.
    specialize (H3 nj h Hj Hlock). lia. }
  split; [done|].
  unfold evict_node, bind, gets. simpl. rewrite Hlock. simpl.
  unfold Node_CanUnload. by rewrite (proj2 (Z.eqb_neq _ _)) by lia.
Qed.

(** ** The range of the readers count *)

(** One more call, and every readers count is within one more: no call
    wraps a count around while fewer than 2^31 calls have been made. *)
Lemma perform_readers_within n o s :
  0 ≤ n → n + 1 < 2 ^ 31 →
  all_handles (readers_within n) s →
  all_handles (readers_within (n + 1)) (perform o s).2.
Proof.
  intros Hn Hbound Hall a h' Hl. unfold readers_within in *.
  destruct (decide (a < length (heap s))%nat) as [Ha|Ha].
  - destruct (perform_survivor o s a h' Ha Hl) as (h & Hlock & Hsame & _).
    pose proof (Hall a h Hlock) as Hh.
    destruct (changes_readers o a) eqn:Hchanges.
    2: { rewrite Hsame by done. destruct DEBUG; lia. }
    destruct o; try done; simpl in Hchanges;
      apply bool_decide_eq_true in Hchanges; subst; simpl in Hl.
    + (* Pin *)
      rewrite discard_result_state in Hl.
      destruct (Pin_readers_cases a s h h' Hlock Hl) as [->|[->| ->]];
        rewrite ?int32_t_small by (destruct DEBUG; lia); destruct DEBUG; lia.
    + (* Unpin *)
      destruct (Unpin_cases a s) as [Heq|(h0 & Hlock0 & Hassert & [Heq|Heq])];
        rewrite Heq in Hl.
      * assert (h' = h) as -> by congruence. destruct DEBUG; lia.
      * assert (h0 = h) as -> by congruence.
        rewrite lock_set_heap_eq in Hl by done. injection Hl as <-. simpl.
        destruct DEBUG eqn:Hdebug.
        -- specialize (Hassert eq_refl). rewrite int32_t_small by lia. lia.
        -- rewrite int32_t_small by lia. lia.
      * assert (h0 = h) as -> by congruence.
        change (lock a (set_heap
                  (<[a := Some (with_eviction_timestamp
                                  (idx_t (eviction_timestamp h + 1))
                                  (with_readers (int32_t (readers h - 1)) h))]>
                     (heap s)) s) = Some h') in Hl.
        rewrite lock_set_heap_eq in Hl by done. injection Hl as <-. simpl.
        destruct DEBUG eqn:Hdebug.
        -- specialize (Hassert eq_refl). rewrite int32_t_small by lia. lia.
        -- rewrite int32_t_small by lia. lia.
  - destruct (perform_fresh o s a h') as [_ Hfresh]; [lia|done|].
    destruct DEBUG; lia.
Qed.

Lemma run_readers_within ops n s :
  0 ≤ n → n + Z.of_nat (length ops) < 2 ^ 31 →
  all_handles (readers_within n) s →
  all_handles (readers_within (n + Z.of_nat (length ops))) (run ops s).
Proof.
  revert n s. induction ops as [|o ops IH]; intros n s Hn Hbound Hall.
  - simpl. by rewrite Z.add_0_r.
  - simpl run. simpl length in *.
    replace (n + Z.of_nat (S (length ops))) with (n + 1 + Z.of_nat (length ops))
      by lia.
    apply IH; [lia|lia|]. apply perform_readers_within; [done|lia|done].
Qed.

Lemma readers_within_new tmp maximum fs :
  all_handles (readers_within 0) (BufferManager_new tmp maximum fs).
Proof. intros a h Hl. by rewrite lock_beyond in Hl by (simpl; lia). Qed.

(** While the counts are within what fewer than 2^31 calls give, [Unpin]
    cannot wrap one around. *)
Lemma readers_within_Unpin_in_range n s :
  n < 2 ^ 31 → all_handles (readers_within n) s → Unpin_in_range s.
Proof.
  intros Hbound Hall. unfold Unpin_in_range.
  destruct DEBUG eqn:Hdebug; [by left|right].
  intros a h Hl. specialize (Hall a h Hl). unfold readers_within in Hall.
  rewrite Hdebug in Hall. lia.
Qed.

(** C2: in every state the manager reaches from its construction by any
    sequence of calls (returning or throwing), in a debug build or with
    fewer than 2^31 calls (the readers count is a 32-bit integer, which an
    unchecked [Unpin] can wrap around), a handle whose readers count is
    positive is LOADED; every operation, whatever its outcome, preserves
    this for all handles, provided [Unpin] does not wrap a count around;
    a [Pin] that returns leaves its handle LOADED, with one reader more
    (modulo 2^32) if it was loaded and with one reader if it was not; and
    an [Unpin] that returns takes one reader away (modulo 2^32) and leaves
    the state alone. *)
Theorem pinned_handles_are_loaded (tmp : string) (maximum : Z)
    (fs : gmap string (list byte)) (ops : list operation) :
  (DEBUG = true ∨ Z.of_nat (length ops) < 2 ^ 31 →
   ∀ a h, lock a (run ops (BufferManager_new tmp maximum fs)) = Some h →
          0 < readers h → state h = BLOCK_LOADED) ∧
  (∀ o s, Unpin_in_range s →
          all_handles pinned_is_loaded s →
          all_handles pinned_is_loaded (perform o s).2) ∧
  (∀ a s h t s', lock a s = Some h → Pin a s = (Ret t, s') →
     ∃ h', lock a s' = Some h' ∧ state h' = BLOCK_LOADED ∧
           readers h' = if is_loaded (state h) then int32_t (readers h + 1) else 1) ∧
  (∀ a s h s', lock a s = Some h → Unpin a s = (Ret tt, s') →
     ∃ h', lock a s' = Some h' ∧ readers h' = int32_t (readers h - 1) ∧
           state h' = state h).
Proof.
  split; [|split; [apply perform_pinned|split; [apply Pin_readers|apply Unpin_readers]]].
  assert (Hnew : all_handles pinned_is_loaded (BufferManager_new tmp maximum fs)).
  { intros a h Hlock. by rewrite lock_beyond in Hlock by (simpl; lia). }
  intros [Hdebug|Hbound].
  - assert (Hrun : ∀ s, all_handles pinned_is_loaded s →
                        all_handles pinned_is_loaded (run ops s)).
    { induction ops as [|o ops IH]; intros s Hs; simpl; [done|].
      apply IH, perform_pinned; [by left|done]. }
    by apply Hrun.
  - assert (Hrun : ∀ n s, 0 ≤ n → n + Z.of_nat (length ops) < 2 ^ 31 →
              all_handles (readers_within n) s →
              all_handles pinned_is_loaded s →
              all_handles pinned_is_loaded (run ops s)).
    { clear Hbound Hnew. induction ops as [|o ops IH];
        intros n s Hn Hbound Hwithin Hs; simpl; [done|].
      simpl length in Hbound.
      apply (IH (n + 1)); [lia|lia| |].
      - apply perform_readers_within; [done|lia|done].
      - apply perform_pinned; [|done].
        apply (readers_within_Unpin_in_range n); [lia|done]. }
    apply (Hrun 0); [done|lia|apply readers_within_new|done].
Qed.

(** X18: In a debug build, from construction, after any sequence of fewer
    than 2^31 calls (returning or throwing; the bound keeps [Pin] from
    wrapping the 32-bit count around), no live handle has a negative
    readers count: an [Unpin] that is not matched by a [Pin] is refused by
    the assertion of [Unpin], and leaves the manager as it is. *)
Theorem readers_are_never_negative_in_debug_builds (tmp : string) (maximum : Z)
    (fs : gmap string (list byte)) (ops : list operation)
    (a : nat) (h : BlockHandle) :
  DEBUG = true →
  Z.of_nat (length ops) < 2 ^ 31 →
  lock a (run ops (BufferManager_new tmp maximum fs)) = Some h →
  0 ≤ readers h ∧
  (readers h = 0 →
   Unpin a (run ops (BufferManager_new tmp maximum fs))
   = (Throw AssertionFailure, run ops (BufferManager_new tmp maximum fs))).
Proof.
  intros Hdebug Hbound Hlock. split.
  - pose proof (run_readers_within ops 0 (BufferManager_new tmp maximum fs)
                  ltac:(done) ltac:(lia) (readers_within_new tmp maximum fs) a h Hlock)
      as Hwithin.
    unfold readers_within in Hwithin. rewrite Hdebug in Hwithin. lia.
  - intros Hzero. unfold Unpin, bind, deref, D_ASSERT. rewrite Hlock. simpl.
    by rewrite Hdebug, Hzero.
Qed.

End BufferManagerProperties.

(** * Concrete runs *)

Section ConcreteRuns.
#[local] Existing Instance duckdb_storage.
#[local] Existing Instance debug_database.

Lemma Unload_unloaded_is_noop_witness :
  Unload 0 one_unloaded_block = (Ret tt, one_unloaded_block).
Proof.
  apply (Unload_unloaded_is_noop 0 (BlockHandle_new 1)); reflexivity.
Defined.

Lemma stale_node_is_discarded_witness :
  evict_node stale_node repinned_block = (Ret tt, repinned_block).
Proof.
  refine (proj1 (stale_node_is_discarded stale_node
                   (mkBlockHandle BLOCK_UNLOADED 0 1 None 2 false 262144)
                   repinned_block 0 0 [] _ _)).
  - vm_compute. reflexivity.
  - vm_compute. discriminate.
Defined.

(** C3 as stated fails: the call below unloads the block of the queue,
    finds the queue empty while still over the limit, returns false, and
    leaves current_memory at 0 where it was 262144. *)
Lemma EvictBlocks_false_changes_current_memory :
  ¬ (∀ (extra limit : Z) (s : BufferManager),
       (EvictBlocks extra limit s).1 = Ret false →
       current_memory (EvictBlocks extra limit s).2 = current_memory s).
Proof.
  intros Hclaim.
  specialize (Hclaim 100 50 one_unpinned_block).
  vm_compute in Hclaim. specialize (Hclaim eq_refl). discriminate.
Qed.

Lemma EvictBlocks_false_rolls_back_reservation_witness :
  EvictBlocks 100 50 one_unpinned_block
    = (Ret false, (EvictBlocks 100 50 one_unpinned_block).2) ∧
  current_memory (EvictBlocks 100 50 one_unpinned_block).2
    = idx_t (current_memory one_unpinned_block
             - (loaded_memory one_unpinned_block
                - loaded_memory (EvictBlocks 100 50 one_unpinned_block).2)).
Proof.
  assert (H : EvictBlocks 100 50 one_unpinned_block
              = (Ret false, (EvictBlocks 100 50 one_unpinned_block).2))
    by (vm_compute; reflexivity).
  split; [exact H|].
  exact (proj1 (EvictBlocks_false_rolls_back_reservation 100 50
                  one_unpinned_block _ H)).
Defined.

Lemma CanUnload_false_never_evicted_witness :
  lock 0 pinned_again = Some pinned_again_handle ∧
  CanUnload pinned_again_handle pinned_again = false ∧
  lock 0 (EvictBlocks 262144 0 pinned_again).2 = Some pinned_again_handle.
Proof.
  assert (H1 : lock 0 pinned_again = Some pinned_again_handle)
    by (vm_compute; reflexivity).
  assert (H2 : CanUnload pinned_again_handle pinned_again = false)
    by (vm_compute; reflexivity).
  split; [exact H1|]. split; [exact H2|].
  exact (proj2 (CanUnload_false_never_evicted 0 pinned_again_handle
                  pinned_again 262144 0) H1 H2).
Defined.

Lemma temporary_buffer_round_trip_witness :
  ∃ s1 rest,
    WriteTemporaryBuffer spilled_buffer spilling_manager = (Ret tt, s1) ∧
    files s1 !! GetTemporaryPath (buffer_id spilled_buffer) s1
      = Some (encode_le sizeof_idx_t (buffer_size spilled_buffer)
                ++ buffer_data spilled_buffer ++ rest) ∧
    ∃ b', ReadTemporaryBuffer (buffer_id spilled_buffer) s1 = (Ret b', s1) ∧
          buffer_size b' = buffer_size spilled_buffer ∧
          buffer_data b' = buffer_data spilled_buffer ∧
          buffer_id b' = buffer_id spilled_buffer.
Proof.
  apply (temporary_buffer_round_trip spilled_buffer spilling_manager).
  - discriminate.
  - by repeat split.
  - change (0 ≤ 262136 < 2 ^ 64). lia.
  - exact (length_replicate _ _).
  - intros _. change (262136 ≤ 262136). lia.
Defined.

(** C4 fails on the code: a destroyable anonymous block that was evicted
    and is pinned again gets a null token, and its handle is left LOADED
    with no buffer; the next [Pin] then trips the assertion that a loaded
    handle has a buffer. *)
Theorem null_token_leaves_handle_loaded_without_buffer :
  let s := run [OpAllocate 262136; OpUnpin 0; OpSetLimit 0; OpSetLimit 262144]
             (BufferManager_new "" 262144 ∅) in
  (state <$> lock 0 s) = Some BLOCK_UNLOADED ∧
  (Pin 0 s).1 = Ret None ∧
  (state <$> lock 0 (Pin 0 s).2) = Some BLOCK_LOADED ∧
  (buffer <$> lock 0 (Pin 0 s).2) = Some None ∧
  (Pin 0 (Pin 0 s).2).1 = Throw AssertionFailure.
Proof. vm_compute. repeat split. Qed.

(** C1 as stated fails: [EvictBlocks] is one of the listed operations, and
    called with a limit above maximum_memory it returns true with the
    counter above the budget. *)
Lemma budget_exceeded_by_direct_eviction :
  ¬ (∀ (tmp : string) (maximum : Z) (fs : gmap string (list byte))
       (ops : list operation),
       all_return ops (BufferManager_new tmp maximum fs) →
       current_memory (run ops (BufferManager_new tmp maximum fs))
         ≤ maximum_memory (run ops (BufferManager_new tmp maximum fs))).
Proof.
  intros Hclaim.
  specialize (Hclaim "" 262144 ∅
                [OpRegisterBlock 1; OpPin 0; OpEvictBlocks 262144 524288]).
  vm_compute in Hclaim.
  apply Hclaim; [repeat split|reflexivity].
Qed.

Lemma budget_holds_after_returning_calls_witness :
  current_memory (run returning_calls (BufferManager_new "" 262144 ∅))
    ≤ maximum_memory (run returning_calls (BufferManager_new "" 262144 ∅)).
Proof.
  apply (budget_holds_after_returning_calls "" 262144 ∅ returning_calls).
  - lia.
  - vm_compute. discriminate.
  - vm_compute. repeat split.
  - unfold returning_calls.
    repeat (cbn [all_fit fits]; split;
            [first [ exact I
                   | intros h Hlock _; vm_compute in Hlock;
                     injection Hlock as <-; vm_compute; reflexivity
                   | vm_compute; repeat split; first [reflexivity|discriminate] ]
            |]).
    exact I.
Defined.

Lemma RegisterBlock_idempotent_witness :
  ∃ a s1,
    RegisterBlock 1 (run [] (BufferManager_new "" 262144 ∅)) = (Ret a, s1) ∧
    is_Some (lock a s1) ∧
    (is_Some (lock a (run [OpPin 0; OpUnpin 0; OpRegisterBlock 2] s1)) →
     RegisterBlock 1 (run [OpPin 0; OpUnpin 0; OpRegisterBlock 2] s1)
       = (Ret a, run [OpPin 0; OpUnpin 0; OpRegisterBlock 2] s1) ∧
     ∀ a', blocks (run [OpPin 0; OpUnpin 0; OpRegisterBlock 2] s1) !! 1 = Some a' →
           a' = a) ∧
    (∀ a1 h1 a2 h2,
       lock a1 (run [OpPin 0; OpUnpin 0; OpRegisterBlock 2] s1) = Some h1 →
       lock a2 (run [OpPin 0; OpUnpin 0; OpRegisterBlock 2] s1) = Some h2 →
       block_id h1 = block_id h2 → block_id h1 < MAXIMUM_BLOCK → a1 = a2).
Proof.
  apply (RegisterBlock_idempotent "" 262144 ∅ []
           [OpPin 0; OpUnpin 0; OpRegisterBlock 2] 1).
  - vm_compute. discriminate.
  - vm_compute. reflexivity.
Defined.

Lemma out_of_memory_only_after_exhausting_queue_witness :
  queue (perform (OpSetLimit 0) one_pinned_block).2 = [] ∧
  evict_rel one_pinned_block (perform (OpSetLimit 0) one_pinned_block).2.
Proof.
  apply (out_of_memory_only_after_exhausting_queue (OpSetLimit 0) one_pinned_block).
  apply outcome_eq. vm_compute. reflexivity.
Defined.

Lemma Allocate_returns_pinned_buffer_witness :
  Some 0%nat = Some (length (heap (BufferManager_new "" 262144 ∅))) ∧
  temporary_id (Allocate 262136 (BufferManager_new "" 262144 ∅)).2
    = int64_t (temporary_id (BufferManager_new "" 262144 ∅) + 1) ∧
  lock (length (heap (BufferManager_new "" 262144 ∅)))
    (Allocate 262136 (BufferManager_new "" 262144 ∅)).2
    = Some (mkBlockHandle BLOCK_LOADED 1
              (temporary_id (Allocate 262136 (BufferManager_new "" 262144 ∅)).2)
              (Some (ManagedBuffer 262136 true
                       (temporary_id (Allocate 262136 (BufferManager_new "" 262144 ∅)).2)))
              0 true (idx_t (262136 + BLOCK_HEADER_SIZE))) ∧
  blocks (Allocate 262136 (BufferManager_new "" 262144 ∅)).2
    = blocks (BufferManager_new "" 262144 ∅) ∧
  current_memory (Allocate 262136 (BufferManager_new "" 262144 ∅)).2
    ≤ maximum_memory (Allocate 262136 (BufferManager_new "" 262144 ∅)).2.
Proof.
  apply (Allocate_returns_pinned_buffer 262136 (BufferManager_new "" 262144 ∅)).
  apply outcome_eq. vm_compute. reflexivity.
Defined.

Lemma Pin_loads_persistent_block_witness :
  Pin 0 one_unloaded_block
  = (Ret (Some 0%nat),
     set_heap
       (<[0%nat := Some (mkBlockHandle BLOCK_LOADED 1 1
                           (Some (mkFileBuffer BLOCK BLOCK_SIZE 1 false
                                    (replicate (Z.to_nat 262136) x00)))
                           0 false 262144)]>
          (heap (EvictBlocks 262144 262144 one_unloaded_block).2))
       (EvictBlocks 262144 262144 one_unloaded_block).2) ∧
  current_memory (EvictBlocks 262144 262144 one_unloaded_block).2 ≤ 262144.
Proof.
  refine (Pin_loads_persistent_block 0 (BlockHandle_new 1)
            (replicate (Z.to_nat 262136) x00) one_unloaded_block
            (EvictBlocks 262144 262144 one_unloaded_block).2 _ _ _ _ _ _).
  - reflexivity.
  - reflexivity.
  - reflexivity.
  - reflexivity.
  - reflexivity.
  - apply outcome_eq. vm_compute. reflexivity.
Defined.

Lemma BlockHandle_destroy_releases_witness :
  ∃ s', BlockHandle_destroy 0 one_unloaded_block = (Ret tt, s') ∧
    lock 0 s' = None ∧
    (∀ a', a' ≠ 0%nat → lock a' s' = lock a' one_unloaded_block) ∧
    current_memory s' = current_memory one_unloaded_block ∧
    (1 < MAXIMUM_BLOCK → blocks s' !! 1 = None) ∧
    queue s' = queue one_unloaded_block ∧
    (∀ node, handle node = 0%nat → evict_node node s' = (Ret tt, s')).
Proof.
  apply (BlockHandle_destroy_releases 0 (BlockHandle_new 1) one_unloaded_block).
  reflexivity.
Defined.

Lemma BlockHandle_destroy_deletes_own_file_witness :
  (MAXIMUM_BLOCK ≤ 1 → false = false →
   temp_directory one_unloaded_block ≠ "" →
   temp_directory_handle one_unloaded_block = true →
   files (BlockHandle_destroy 0 one_unloaded_block).2
     !! GetTemporaryPath 1 one_unloaded_block = None) ∧
  (∀ id, id ≠ 1 →
     files (BlockHandle_destroy 0 one_unloaded_block).2
       !! GetTemporaryPath id one_unloaded_block
     = files one_unloaded_block !! GetTemporaryPath id one_unloaded_block) ∧
  (1 < MAXIMUM_BLOCK ∨ false = true →
   files (BlockHandle_destroy 0 one_unloaded_block).2 = files one_unloaded_block).
Proof.
  apply (BlockHandle_destroy_deletes_own_file 0 (BlockHandle_new 1) one_unloaded_block).
  reflexivity.
Defined.

Lemma temporary_files_do_not_collide_witness :
  ∃ s2 b',
    (WriteTemporaryBuffer spilled_buffer ;;; WriteTemporaryBuffer second_spilled_buffer)
      spilling_manager = (Ret tt, s2) ∧
    ReadTemporaryBuffer (buffer_id spilled_buffer) s2 = (Ret b', s2) ∧
    buffer_size b' = buffer_size spilled_buffer ∧
    buffer_data b' = buffer_data spilled_buffer.
Proof.
  apply (temporary_files_do_not_collide spilled_buffer second_spilled_buffer
           spilling_manager).
  - discriminate.
  - discriminate.
  - by repeat split.
  - by repeat split.
  - change (0 ≤ 262136 < 2 ^ 64). lia.
  - exact (length_replicate _ _).
  - intros _. change (262136 ≤ 262136 ∧ 262136 ≤ 262136). lia.
Defined.

Lemma temporary_directory_is_fixed_once_used_witness :
  temp_directory
    (run [OpSetTemporaryDirectory "/elsewhere"; OpRegisterBlock 1] spilled_manager)
    = temp_directory spilled_manager ∧
  temp_directory_handle
    (run [OpSetTemporaryDirectory "/elsewhere"; OpRegisterBlock 1] spilled_manager)
    = true ∧
  ∀ d, SetTemporaryDirectory d
         (run [OpSetTemporaryDirectory "/elsewhere"; OpRegisterBlock 1] spilled_manager)
       = (Throw NotImplementedException,
          run [OpSetTemporaryDirectory "/elsewhere"; OpRegisterBlock 1] spilled_manager).
Proof.
  apply (temporary_directory_is_fixed_once_used
           [OpSetTemporaryDirectory "/elsewhere"; OpRegisterBlock 1] spilled_manager).
  vm_compute. reflexivity.
Defined.

Lemma counter_equals_loaded_memory_witness :
  current_memory (run balanced_calls (BufferManager_new "" 262144 ∅))
  = loaded_memory (run balanced_calls (BufferManager_new "" 262144 ∅)).
Proof.
  apply (counter_equals_loaded_memory "" 262144 ∅ balanced_calls).
  - lia.
  - vm_compute. discriminate.
  - vm_compute. repeat split.
  - unfold balanced_calls.
    repeat (cbn [all_sizes_fit sizes_fit fits]; split;
            [first [ exact I
                   | intros h Hlock _; vm_compute in Hlock;
                     injection Hlock as <-; vm_compute; reflexivity
                   | vm_compute; repeat split; first [reflexivity|discriminate] ]
            |]).
    exact I.
  - unfold balanced_calls. repeat constructor.
Defined.

Lemma live_handles_have_distinct_ids_witness :
  block_id (BlockHandle_new 1) ≠ block_id (BlockHandle_new 2).
Proof.
  refine (live_handles_have_distinct_ids "" 524288 ∅ mixed_registrations _ _ _
            0%nat (BlockHandle_new 1) 2%nat (BlockHandle_new 2) _ _ _).
  - vm_compute. discriminate.
  - vm_compute. reflexivity.
  - repeat constructor.
  - vm_compute. reflexivity.
  - vm_compute. reflexivity.
  - discriminate.
Defined.

Lemma calls_change_their_own_handle_only_witness :
  block_id (BlockHandle_new 2) = block_id (BlockHandle_new 2) ∧
  can_destroy (BlockHandle_new 2) = can_destroy (BlockHandle_new 2) ∧
  (changes_readers (OpPin 0) 1 = false →
   readers (BlockHandle_new 2) = readers (BlockHandle_new 2)) ∧
  (changes_stamp (OpPin 0) 1 = false →
   eviction_timestamp (BlockHandle_new 2) = eviction_timestamp (BlockHandle_new 2)) ∧
  (changes_size (OpPin 0) 1 = false →
   memory_usage (BlockHandle_new 2) = memory_usage (BlockHandle_new 2)).
Proof.
  apply (calls_change_their_own_handle_only (OpPin 0) two_registered_blocks 1
           (BlockHandle_new 2) (BlockHandle_new 2)).
  - vm_compute. reflexivity.
  - vm_compute. reflexivity.
Defined.

End ConcreteRuns.

(** * Concrete runs over small blocks *)

Section SmallRuns.
#[local] Existing Instance small_storage.
#[local] Existing Instance small_database.

Lemma Pin_then_Unpin_restores_witness :
  (Pin 0 ;;; Unpin 0) small_pinned_block = (Ret tt, small_pinned_block).
Proof.
  apply (Pin_then_Unpin_restores 0 small_pinned_handle small_pinned_block).
  - vm_compute. reflexivity.
  - reflexivity.
  - eexists. reflexivity.
  - vm_compute. split; reflexivity.
Defined.

Lemma unpinned_block_is_evicted_witness :
  ∃ s1 s2,
    Unpin 0 small_pinned_block = (Ret tt, s1) ∧
    queue s1 = [mkBufferEvictionNode 0
                  (idx_t (eviction_timestamp small_pinned_handle + 1))] ∧
    EvictBlocks 0 0 s1
      = (Ret (bool_decide
                (idx_t (current_memory small_pinned_block
                        - memory_usage small_pinned_handle) ≤ 0)), s2) ∧
    lock 0 s2
      = Some (unloaded
                (with_eviction_timestamp
                   (idx_t (eviction_timestamp small_pinned_handle + 1))
                   (with_readers 0 small_pinned_handle))) ∧
    current_memory s2
      = idx_t (current_memory small_pinned_block - memory_usage small_pinned_handle) ∧
    queue s2 = [].
Proof.
  apply (unpinned_block_is_evicted 0 small_pinned_handle small_pinned_block 0).
  - vm_compute. reflexivity.
  - reflexivity.
  - reflexivity.
  - left. vm_compute. reflexivity.
  - intros _. vm_compute. discriminate.
  - vm_compute. reflexivity.
  - vm_compute. split; [discriminate|reflexivity].
  - vm_compute. reflexivity.
Defined.

Lemma ReAllocate_resizes_witness :
  ∃ b, buffer small_allocated_handle = Some b ∧
    lock 0 (ReAllocate 0 32 small_allocation).2
      = Some (with_memory_usage (idx_t (32 + BLOCK_HEADER_SIZE))
                (with_buffer (Some (Resize 32 b)) small_allocated_handle)) ∧
    (int64_t (idx_t (32 + BLOCK_HEADER_SIZE) - memory_usage small_allocated_handle) ≤ 0 →
     queue (ReAllocate 0 32 small_allocation).2 = queue small_allocation ∧
     (∀ a', a' ≠ 0%nat →
        lock a' (ReAllocate 0 32 small_allocation).2 = lock a' small_allocation) ∧
     current_memory (ReAllocate 0 32 small_allocation).2
       = (if int64_t (idx_t (32 + BLOCK_HEADER_SIZE)
                      - memory_usage small_allocated_handle) <? 0
          then idx_t (current_memory small_allocation
                      + int64_t (idx_t (32 + BLOCK_HEADER_SIZE)
                                 - memory_usage small_allocated_handle))
          else current_memory small_allocation)) ∧
    (0 < int64_t (idx_t (32 + BLOCK_HEADER_SIZE) - memory_usage small_allocated_handle) →
     current_memory (ReAllocate 0 32 small_allocation).2
       ≤ maximum_memory (ReAllocate 0 32 small_allocation).2).
Proof.
  apply (ReAllocate_resizes 0 small_allocated_handle 32 small_allocation).
  - vm_compute. reflexivity.
  - vm_compute. reflexivity.
  - apply outcome_eq. vm_compute. reflexivity.
Defined.

Lemma spilled_block_is_reloaded_witness :
  ∃ s1 s2 b',
    Unload 0 small_spillable = (Ret tt, s1) ∧
    lock 0 s1 = Some (unloaded small_spillable_handle) ∧
    Load 0 s1 = (Ret (Some 0%nat), s2) ∧
    lock 0 s2 = Some (with_buffer (Some b') small_spillable_handle) ∧
    buffer_size b' = buffer_size (ManagedBuffer 16 false 4611686018427388001) ∧
    buffer_data b' = buffer_data (ManagedBuffer 16 false 4611686018427388001).
Proof.
  apply (spilled_block_is_reloaded 0 small_spillable_handle
           (ManagedBuffer 16 false 4611686018427388001) small_spillable).
  - vm_compute. reflexivity.
  - reflexivity.
  - vm_compute. discriminate.
  - vm_compute. discriminate.
  - reflexivity.
  - reflexivity.
  - reflexivity.
  - vm_compute. discriminate.
  - by repeat split.
  - vm_compute. split; [discriminate|reflexivity].
  - vm_compute. reflexivity.
  - intros _. vm_compute. split; discriminate.
Defined.

Lemma only_the_latest_node_is_current_witness :
  timestamp (mkBufferEvictionNode 0 1)
  < eviction_timestamp (with_eviction_timestamp 2 (with_readers 0 small_pinned_handle)) ∧
  evict_node (mkBufferEvictionNode 0 1)
    (run twice_unpinned (BufferManager_new "" 64 ∅))
  = (Ret tt, run twice_unpinned (BufferManager_new "" 64 ∅)).
Proof.
  apply (only_the_latest_node_is_current "" 64 ∅ twice_unpinned 0 1
           (mkBufferEvictionNode 0 1) (mkBufferEvictionNode 0 2)
           (with_eviction_timestamp 2 (with_readers 0 small_pinned_handle))).
  - vm_compute. reflexivity.
  - vm_compute. reflexivity.
  - vm_compute. reflexivity.
  - lia.
  - reflexivity.
  - vm_compute. reflexivity.
Defined.

Lemma readers_are_never_negative_in_debug_builds_witness :
  0 ≤ readers (with_eviction_timestamp 2 (with_readers 0 small_pinned_handle)) ∧
  (readers (with_eviction_timestamp 2 (with_readers 0 small_pinned_handle)) = 0 →
   Unpin 0 (run twice_unpinned (BufferManager_new "" 64 ∅))
   = (Throw AssertionFailure, run twice_unpinned (BufferManager_new "" 64 ∅))).
Proof.
  apply (readers_are_never_negative_in_debug_builds "" 64 ∅ twice_unpinned 0
           (with_eviction_timestamp 2 (with_readers 0 small_pinned_handle))).
  - reflexivity.
  - vm_compute. reflexivity.
  - vm_compute. reflexivity.
Defined.

End SmallRuns.

(** * Concrete runs over an unreadable disk *)

Section UnreadableRuns.
#[local] Existing Instance duckdb_storage.
#[local] Existing Instance unreadable_disk.

Lemma Pin_io_error_from_spill_or_read_witness :
  (EvictBlocks (memory_usage (BlockHandle_new 1))
     (maximum_memory (run [OpRegisterBlock 1] (BufferManager_new "" 262144 ∅)))
     (run [OpRegisterBlock 1] (BufferManager_new "" 262144 ∅))
   = (Throw IOException,
      (Pin 0 (run [OpRegisterBlock 1] (BufferManager_new "" 262144 ∅))).2) ∧
   lock 0 (Pin 0 (run [OpRegisterBlock 1] (BufferManager_new "" 262144 ∅))).2
   = Some (BlockHandle_new 1)) ∨
  (lock 0 (Pin 0 (run [OpRegisterBlock 1] (BufferManager_new "" 262144 ∅))).2
   = Some (with_state BLOCK_LOADED (with_readers 1 (BlockHandle_new 1))) ∧
   ∃ s1,
     EvictBlocks (memory_usage (BlockHandle_new 1))
       (maximum_memory (run [OpRegisterBlock 1] (BufferManager_new "" 262144 ∅)))
       (run [OpRegisterBlock 1] (BufferManager_new "" 262144 ∅)) = (Ret true, s1) ∧
     current_memory (Pin 0 (run [OpRegisterBlock 1] (BufferManager_new "" 262144 ∅))).2
     = current_memory s1 ∧
     queue (Pin 0 (run [OpRegisterBlock 1] (BufferManager_new "" 262144 ∅))).2
     = queue s1).
Proof.
  apply (Pin_io_error_from_spill_or_read 0 (BlockHandle_new 1)
           (run [OpRegisterBlock 1] (BufferManager_new "" 262144 ∅))).
  - vm_compute. reflexivity.
  - reflexivity.
  - apply outcome_eq. vm_compute. reflexivity.
Defined.

End UnreadableRuns.

(** * Concrete runs over a file system that fails *)

Section FailingRuns.
#[local] Existing Instance small_storage.
#[local] Existing Instance failing_file_system.

(** The I/O error of a spill propagates out of the eviction and out of
    [Pin]: the anonymous block that was being spilled is left UNLOADED with
    its buffer, nothing is released, the reservation of the eviction stays
    in the counter, and the directory handle is not set. *)
Example spill_failure_propagates :
  let s := run [OpRegisterMemory 16 false; OpPin 0; OpUnpin 0; OpRegisterBlock 1]
               (BufferManager_new "/tmp/duckdb" 40 ∅) in
  (EvictBlocks 24 40 s).1 = Throw IOException ∧
  (Pin 1 s).1 = Throw IOException ∧
  lock 0 (Pin 1 s).2
  = Some (mkBlockHandle BLOCK_UNLOADED 0 4611686018427388001
            (Some (ManagedBuffer 16 false 4611686018427388001)) 1 false 24) ∧
  lock 1 (Pin 1 s).2 = Some (BlockHandle_new 1) ∧
  current_memory s = 24 ∧
  current_memory (Pin 1 s).2 = 48 ∧
  temp_directory_handle (Pin 1 s).2 = false.
Proof. vm_compute. repeat split. Qed.

End FailingRuns.
